(** * releat: observation processor (src/releat/gym_env/obs_processor.py)

    A shallow embedding of the raw-window store ([init_raw_data],
    [update_raw_data]), of the observation builder ([get_obs]) and of the
    numeric utilities ([scale_pos_val], [sample_price],
    [portfolio_to_model_input], [get_curr_price]), and the properties the
    specification states about them.

    Conventions of the embedding.
    - Python dicts with string keys are [gmap string _]; a loop over the keys
      of a dict runs over [elements (dom _)].
    - A 2-D NumPy array is the list of its rows.  float32/float64 numbers are
      idealised in the window code (rationals, [Q]) and where the code takes
      a logarithm (reals, [R]): casts ([astype], [dtype=]) keep the value
      there and matter only through the copy they make.  The price sampling
      code is modelled on binary64 numbers with its [float32] store, because
      what it returns turns on how a quotient is rounded.
    - An exception is a [Raise e] result; a NumPy view is a [view] descriptor
      into the array it aliases, and writing through it updates that array. *)

From Stdlib Require Import QArith Qround Qabs Reals Psatz.
From Stdlib Require PrimFloat SpecFloat FloatOps.
From stdpp Require Import gmap strings list fin_maps pretty.

Local Open Scope Z_scope.

(** ** Exceptions *)

Inductive error : Set :=
  | DataUnavailable   (* the store has no record under the key *)
  | KeyError
  | IndexError
  | ValueError
  | NameError
  | ZeroDivisionError
  | Undefined.        (* compiled code leaves the outcome open *)

Inductive result (A : Type) : Type :=
  | Ok (a : A)
  | Raise (e : error).
Arguments Ok {A} a.
Arguments Raise {A} e.

#[global] Instance result_ret : MRet result := λ A a, Ok a.
#[global] Instance result_bind : MBind result := λ A B f m,
  match m with
  | Ok a => f a
  | Raise e => Raise e
  end.

(** [d[k]] on a dict and [l[i]] on a list, with the exception they raise. *)
Definition getitem {V} (d : gmap string V) (k : string) : result V :=
  match d !! k with
  | Some v => Ok v
  | None => Raise KeyError
  end.

Definition list_getitem {V} (l : list V) (i : nat) : result V :=
  match l !! i with
  | Some v => Ok v
  | None => Raise IndexError
  end.

(** [for x in xs: s = body(x, s)], stopping at the first exception. *)
Fixpoint for_each {X S} (body : X → S → result S) (xs : list X) (s : S)
  : result S :=
  match xs with
  | [] => Ok s
  | x :: xs' => s' ← body x s; for_each body xs' s'
  end.

(** ** Python slices *)

Section slices.
Context {A : Type}.

(** [l[start:]] for an integer [start], negative counting from the end. *)
Definition py_slice_from (start : Z) (l : list A) : list A :=
  if start <? 0
  then drop (Z.to_nat (Z.max 0 (Z.of_nat (length l) + start))) l
  else drop (Z.to_nat start) l.

(** [l[::step]] walks the list keeping one element and skipping
    [step - 1]; [c] counts the elements still to skip. *)
Fixpoint every_nth (step c : nat) (l : list A) : list A :=
  match l with
  | [] => []
  | x :: l' =>
      match c with
      | O => x :: every_nth step (step - 1) l'
      | S c' => every_nth step c' l'
      end
  end.

Definition slice_step (step : nat) (l : list A) : list A :=
  every_nth step 0 l.

(** [l[-1]] and [l[:-1]]. *)
Definition py_last (l : list A) : result A :=
  match last l with
  | Some x => Ok x
  | None => Raise IndexError
  end.

Definition py_init (l : list A) : list A := take (length l - 1)%nat l.
End slices.

(** ** Arrays *)

Abbreviation row := (list Q).
Abbreviation ndarray := (list (list Q)).

(** [np.array(rows, dtype=np.float32)]: the rows must have one width. *)
Definition rectangular {A} (a : list (list A)) : bool :=
  match a with
  | [] => true
  | r :: t => forallb (λ r', Nat.eqb (length r') (length r)) t
  end.

Definition np_array (rows : list row) : result ndarray :=
  if rectangular rows then Ok rows else Raise ValueError.

(** [np.vstack([a, [r]])] for a 2-D array [a] and one new row [r].  A list
    without rows has no width to compare: this is NumPy's check for an
    array with at least one row. *)
Definition np_vstack (a : ndarray) (r : row) : result ndarray :=
  if forallb (λ r', Nat.eqb (length r') (length r)) a
  then Ok (a ++ [r])
  else Raise ValueError.

(** ** The store and the raw window *)

(** A store record: one feature vector per feature group, and the side
    channels every record carries. *)
Record bins := Bins {
  b_fields : gmap string row;
  b_date : Z;
  b_trade_price : Q;
  b_date_arr : list Q;
}.

(** [raw_data]: one buffer per feature group, most recent last, and the
    side channels of the latest record. *)
Record raw_data := RawData {
  rd_groups : gmap string ndarray;
  rd_date : Z;
  rd_trade_price : Q;
  rd_date_arr : list Q;
}.

Record aerospike_config := AerospikeConfig {
  namespace : string;
  set_name : string;
}.

Abbreviation store_key := (string * string * Z)%type.

(** The store client: its records, and the keys requested so far. *)
Record client := Client {
  records : gmap store_key bins;
  requests : list store_key;
}.

(** [client.get(key)]: logs the request; a miss raises. *)
Definition client_get (c : client) (key : store_key) : result bins * client :=
  (match records c !! key with
   | Some b => Ok b
   | None => Raise DataUnavailable
   end,
   {| records := records c; requests := requests c ++ [key] |}).

(** [[x for x in raw_data_shape.keys() if x != "max"]] *)
Definition feat_group_inds (raw_data_shape : gmap string Z) : list string :=
  filter (λ x, x ≠ "max") (elements (dom raw_data_shape)).

(** [for k in feat_group_inds: raw_data[k].append(bins[k])] *)
Definition append_bins (inds : list string) (b : bins)
    (raw : gmap string ndarray) : result (gmap string ndarray) :=
  for_each (λ k raw,
    l ← getitem raw k;
    f ← getitem (b_fields b) k;
    Ok (<[k := l ++ [f]]> raw)) inds raw.

(** The fetch loop of [init_raw_data] over the indices [js]; [last] is the
    loop variable [bins], unbound before the first iteration. *)
Fixpoint backfill (cfg : aerospike_config) (inds : list string) (js : list Z)
    (raw : gmap string ndarray) (last : option bins) (c : client)
  : result (gmap string ndarray * option bins) * client :=
  match js with
  | [] => (Ok (raw, last), c)
  | j :: js' =>
      let '(r, c1) := client_get c (namespace cfg, set_name cfg, j) in
      match r with
      | Raise e => (Raise e, c1)
      | Ok b =>
          match append_bins inds b raw with
          | Raise e => (Raise e, c1)
          | Ok raw' => backfill cfg inds js' raw' (Some b) c1
          end
      end
  end.

(** [for k in feat_group_inds:
       raw_data[k] = np.array(raw_data[k][-raw_data_shape[k]:], ...)] *)
Definition truncate_groups (raw_data_shape : gmap string Z)
    (inds : list string) (raw : gmap string ndarray)
  : result (gmap string ndarray) :=
  for_each (λ k raw,
    l ← getitem raw k;
    n ← getitem raw_data_shape k;
    a ← np_array (py_slice_from (- n) l);
    Ok (<[k := a]> raw)) inds raw.

Definition init_raw_data (cfg : aerospike_config) (c : client)
    (raw_data_shape : gmap string Z) (i : Z) : result raw_data * client :=
  let inds := feat_group_inds raw_data_shape in
  let raw0 : gmap string ndarray := foldr (λ k raw, <[k := []]> raw) ∅ inds in
  match getitem raw_data_shape "max" with
  | Raise e => (Raise e, c)
  | Ok mx =>
      let '(r, c1) := backfill cfg inds (seqZ (i - mx) (mx + 1)) raw0 None c in
      (rl ← r;
       b ← match rl.2 with Some b => Ok b | None => Raise NameError end;
       groups ← truncate_groups raw_data_shape inds rl.1;
       Ok {| rd_groups := groups;
             rd_date := b_date b;
             rd_trade_price := b_trade_price b;
             rd_date_arr := b_date_arr b |},
       c1)
  end.

(** [for k in feat_group_inds:
       raw_data[k] = np.vstack([raw_data[k], [bins[k]]])[1:]] *)
Definition shift_groups (inds : list string) (b : bins)
    (raw : gmap string ndarray) : result (gmap string ndarray) :=
  for_each (λ k raw,
    f ← getitem (b_fields b) k;
    a ← getitem raw k;
    a' ← np_vstack a f;
    Ok (<[k := py_slice_from 1 a']> raw)) inds raw.

Definition update_raw_data (cfg : aerospike_config) (c : client)
    (raw_data_shape : gmap string Z) (rd : raw_data) (i : Z)
  : result raw_data * client :=
  let inds := feat_group_inds raw_data_shape in
  let '(r, c1) := client_get c (namespace cfg, set_name cfg, i) in
  (b ← r;
   groups ← shift_groups inds b (rd_groups rd);
   Ok {| rd_groups := groups;
         rd_date := b_date b;
         rd_trade_price := b_trade_price b;
         rd_date_arr := b_date_arr b |},
   c1).

(** ** The observation builder *)

(** A NumPy view onto the rows [v_start], [v_start + v_step], ... of the
    group buffer [raw_data[v_base]]: what basic slicing returns.  It shares
    the buffer's memory. *)
Record view := View {
  v_base : string;
  v_start : nat;
  v_step : nat;
}.

(** An entry of the [obs] dict: a view into [raw_data], or an array of its
    own (a copy). *)
Inductive obs_entry :=
  | Viewed (v : view)
  | Owned (a : ndarray).

Record observation := Observation {
  o_groups : gmap string obs_entry;
  o_date_arr : list Q;
}.

Definition view_rows (v : view) (a : ndarray) : ndarray :=
  slice_step (v_step v) (drop (v_start v) a).

(** [a[:, j]] *)
Definition get_col {A} (j : nat) (a : list (list A)) : result (list A) :=
  mapM (M := result) (λ r, list_getitem r j) a.

(** Values written through [target[:, 0] = vals] where the target has [n]
    rows: NumPy broadcasts one value and rejects other length mismatches. *)
Definition broadcast_to {A} (n : nat) (vals : list A) : result (list A) :=
  if decide (length vals = n) then Ok vals
  else match vals with
       | [x] => Ok (replicate n x)
       | _ => Raise ValueError
       end.

(** Column 0 of the rows of [l] that [every_nth step c l] keeps is
    overwritten with [vals], in order; all other rows are untouched. *)
Fixpoint write_every_nth (step c : nat) (vals : list Q) (l : ndarray)
  : ndarray :=
  match l with
  | [] => []
  | r :: l' =>
      match c with
      | O =>
          match vals with
          | x :: vals' =>
              <[0%nat := x]> r :: write_every_nth step (step - 1) vals' l'
          | [] => l
          end
      | S c' => r :: write_every_nth step c' vals l'
      end
  end.

(** The buffer after [view[:, 0] = vals]. *)
Definition view_write_col0 (v : view) (vals : list Q) (a : ndarray)
  : ndarray :=
  take (v_start v) a ++ write_every_nth (v_step v) 0 vals (drop (v_start v) a).

(** The rows an entry shows, given the current group buffers. *)
Definition entry_rows (raw : gmap string ndarray) (e : obs_entry)
  : result ndarray :=
  match e with
  | Viewed v => a ← getitem raw (v_base v); Ok (view_rows v a)
  | Owned a => Ok a
  end.

(** [e[1:]]: again a view. *)
Definition entry_tail (e : obs_entry) : obs_entry :=
  match e with
  | Viewed v =>
      Viewed {| v_base := v_base v;
                v_start := v_start v + v_step v;
                v_step := v_step v |}
  | Owned a => Owned (py_slice_from 1 a)
  end.

(** [e[:, 0] = vals]: the write lands in the buffer a view aliases. *)
Definition entry_assign_col0 (vals : list Q) (e : obs_entry)
    (raw : gmap string ndarray) : result (obs_entry * gmap string ndarray) :=
  match e with
  | Viewed v =>
      a ← getitem raw (v_base v);
      vals' ← broadcast_to (length (view_rows v a)) vals;
      Ok (e, <[v_base v := view_write_col0 v vals' a]> raw)
  | Owned a =>
      vals' ← broadcast_to (length a) vals;
      Ok (Owned (zip_with (λ x r, <[0%nat := x]> r) vals' a), raw)
  end.

(** The parts of the agent configuration [get_obs] reads. *)
Record SymbolSpec := {
  spec_symbol : string;
  pip : Q;
  pip_val : Q;
  contract_size : Q;
  currency : string;
  commission : Q;
}.

Record SimpleFeatureConfig (TC : Type) := {
  symbol : string;
  transforms : list TC;
}.
Arguments symbol {TC} _.
Arguments transforms {TC} _.

Record FeatureGroupConfig (TC : Type) := {
  simple_features : list (SimpleFeatureConfig TC);
}.
Arguments simple_features {TC} _.

Record agent_config (TC : Type) := {
  features : list (FeatureGroupConfig TC);
  symbol_info_index : gmap string nat;
  symbol_info : list SymbolSpec;
}.
Arguments features {TC} _.
Arguments symbol_info_index {TC} _.
Arguments symbol_info {TC} _.

Section get_obs.
(** [TransformerConfig] and [apply_transform] live in
    [releat.data.transformers], outside these sources: the stage functions
    are parameters. *)
Context {TC : Type} (apply_transform : ndarray → TC → ndarray).

(** [for k in feat_group_inds: obs[k] = raw_data[k][:: obs_interval[k]]] *)
Definition downsample_groups (obs_interval : gmap string nat)
    (inds : list string) (raw : gmap string ndarray)
  : result (gmap string obs_entry) :=
  for_each (λ k obs,
    _ ← getitem raw k;
    step ← getitem obs_interval k;
    if decide (step = 0%nat) then Raise ValueError
    else Ok (<[k := Viewed {| v_base := k; v_start := 0; v_step := step |}]>
               obs)) inds ∅.

(** The body of the loop over [feat_group_ind]; the state is the [obs]
    dict and the group buffers of [raw_data]. *)
Definition treat_group (config : agent_config TC) (feat_group_ind : nat)
    (st : gmap string obs_entry * gmap string ndarray)
  : result (gmap string obs_entry * gmap string ndarray) :=
  let '(obs, raw) := st in
  let feat_ind := 0%nat in
  let key := pretty feat_group_ind in
  feat_group ← list_getitem (features config) feat_group_ind;
  fc ← list_getitem (simple_features feat_group) feat_ind;
  e ← getitem obs key;
  a ← entry_rows raw e;
  feats ← get_col 0 a;
  final ← py_last feats;
  let feats := (λ x, x - final)%Q <$> feats in
  symbol_index ← getitem (symbol_info_index config) (symbol fc);
  info ← list_getitem (symbol_info config) symbol_index;
  let feats := (λ x, x / pip info)%Q <$> py_init feats in
  let feats := (λ x, [x]) <$> feats in
  let feats := foldl apply_transform feats (transforms fc) in
  let e := entry_tail e in
  vals ← get_col 0 feats;
  '(e, raw) ← entry_assign_col0 vals e raw;
  a ← entry_rows raw e;
  Ok (<[key := Owned a]> obs, raw).

Definition get_obs (config : agent_config TC)
    (obs_interval : gmap string nat) (rd : raw_data)
  : result (observation * raw_data) :=
  let feat_group_inds := elements (dom obs_interval) in
  obs ← downsample_groups obs_interval feat_group_inds (rd_groups rd);
  '(obs, raw) ← for_each (treat_group config)
                  (seq 0 (length feat_group_inds)) (obs, rd_groups rd);
  Ok ({| o_groups := obs; o_date_arr := rd_date_arr rd |},
      {| rd_groups := raw;
         rd_date := rd_date rd;
         rd_trade_price := rd_trade_price rd;
         rd_date_arr := rd_date_arr rd |}).
End get_obs.

(** ** Numeric utilities: price sampling *)

(** Prices and pips are binary64 numbers in this part, not the idealised
    rationals of the window code: what [sample_price] returns depends on
    how the quotient [min_p * 10 / pip] is rounded before [int] truncates
    it.  The operations are the IEEE ones, taken in the order of the source
    ([fastmath] would let the compiler reorder them). *)
Abbreviation float := PrimFloat.float.

(** [float(n)] for an integer: the nearest binary64 number. *)
Definition float_of_int (n : Z) : float :=
  FloatOps.SF2Prim
    (SpecFloat.binary_normalize FloatOps.prec FloatOps.emax n 0 false).

(** The binary64 number a decimal stands for: the nearest one, as for a
    Python literal and for the [pip] of a [SymbolSpec]. *)
Definition float_of_decimal (q : Q) : float :=
  PrimFloat.div (float_of_int (Qnum q)) (float_of_int (Zpos (Qden q))).

(** [int(x)] in compiled code: [x] truncated toward zero into an int64.
    For a NaN, an infinity or a value outside int64 the compiled conversion
    has no defined result; the model stops there. *)
Definition py_int (x : float) : result Z :=
  match FloatOps.Prim2SF x with
  | SpecFloat.S754_zero _ => Ok 0
  | SpecFloat.S754_finite s m e =>
      let n := SpecFloat.cond_Zopp s (Z.shiftl (Zpos m) e) in
      if decide (- 2 ^ 63 ≤ n < 2 ^ 63) then Ok n else Raise Undefined
  | _ => Raise Undefined
  end.

(** The cast a store into a [float32] array makes: rounding to the nearest
    binary32 number (an infinity beyond its range). *)
Definition float32 (x : float) : float :=
  match FloatOps.Prim2SF x with
  | SpecFloat.S754_finite s m e =>
      FloatOps.SF2Prim
        (SpecFloat.binary_normalize 24 128
           (SpecFloat.cond_Zopp s (Zpos m)) e s)
  | _ => x
  end.

Section sampling.
(** [randint] comes from [releat.data.simple.stats], outside these
    sources; it is a parameter, threading the generator state [rng], and
    it may raise (on an empty range, say). *)
Context {rng : Type} (randint : Z → Z → rng → result (Z * rng)).

(** [randint(int(min_p * 10 / pip), int(max_p * 10 / pip) + 1) * pip / 10];
    a division by a zero [pip] raises. *)
Definition sample_price (min_p max_p pip : float) (g : rng)
  : result (float * rng) :=
  if PrimFloat.eqb pip PrimFloat.zero then Raise ZeroDivisionError
  else
    low ← py_int (PrimFloat.div (PrimFloat.mul min_p (float_of_int 10)) pip);
    high ← py_int (PrimFloat.div (PrimFloat.mul max_p (float_of_int 10)) pip);
    '(n, g') ← randint low (high + 1) g;
    Ok (PrimFloat.div (PrimFloat.mul (float_of_int n) pip) (float_of_int 10),
        g').

(** The body of the loop over the symbols; the state is the [float32]
    array [curr_price] and the generator. *)
Definition price_symbol (symbol_info : list SymbolSpec) (price : list float)
    (i : nat) (st : list (list float) * rng)
  : result (list (list float) * rng) :=
  let '(curr_price, g) := st in
  info ← list_getitem symbol_info 0;
  let pip := float_of_decimal (pip info) in
  bid_low ← list_getitem price (i * 4);
  bid_high ← list_getitem price (i * 4 + 1);
  '(bid, g) ← sample_price bid_low bid_high pip g;
  let curr_price := alter (λ r, <[0%nat := float32 bid]> r) i curr_price in
  ask_low ← list_getitem price (i * 4 + 2);
  ask_high ← list_getitem price (i * 4 + 3);
  '(ask, g) ← sample_price ask_low ask_high pip g;
  let curr_price := alter (λ r, <[1%nat := float32 ask]> r) i curr_price in
  Ok (curr_price, g).

Definition get_curr_price (symbol_info : list SymbolSpec)
    (price : list float) (g : rng) : result (list (list float) * rng) :=
  let curr_price :=
    replicate (length symbol_info) [PrimFloat.zero; PrimFloat.zero] in
  for_each (price_symbol symbol_info price)
    (seq 0 (length symbol_info)) (curr_price, g).
End sampling.

(** ** Numeric utilities: position values *)

(** A 2-D array with its shape: the column count is known even when there
    are no rows. *)
Record matrix (A : Type) := Matrix {
  m_cols : nat;
  m_rows : list (list A);
}.
Arguments Matrix {A} _ _.
Arguments m_cols {A} _.
Arguments m_rows {A} _.

Definition matrix_wf {A} (m : matrix A) : Prop :=
  Forall (λ r, length r = m_cols m) (m_rows m).

(** [m[:, start::step]] *)
Definition mat_slice_cols {A} (start step : nat) (m : matrix A) : matrix A :=
  {| m_cols := length (slice_step step (drop start (seq 0 (m_cols m))));
     m_rows := (λ r, slice_step step (drop start r)) <$> m_rows m |}.

(** [m[:, j]], with NumPy's bounds check.  [portfolio_to_model_input] is
    compiled without one: there [IndexError] only marks an access outside
    the array, and the properties are stated where every column is in
    range. *)
Definition mat_col {A} (j : nat) (m : matrix A) : result (list A) :=
  if decide (j < m_cols m)%nat then get_col j (m_rows m)
  else Raise IndexError.

(** [m[:, j] = vals] *)
Definition mat_set_col {A} (j : nat) (vals : list A) (m : matrix A)
  : result (matrix A) :=
  if decide (j < m_cols m)%nat then
    vals' ← broadcast_to (length (m_rows m)) vals;
    Ok {| m_cols := m_cols m;
          m_rows := zip_with (λ x r, <[j := x]> r) vals' (m_rows m) |}
  else Raise IndexError.

(** [np.clip(x, lo, hi)] *)
Definition np_clip (x lo hi : R) : R := Rmin (Rmax x lo) hi.

Section position_values.
(** The scalar kernel of the log-tail compression; see [log_tail_spec]. *)
Context (log_tail : R → Z → Z → R).

(** Modelled from the spec: [apply_log_tail] of
    [releat.data.simple.stats] is not among the sources.  It maps the
    array elementwise through the log-tail kernel for the given threshold
    and base. *)
Definition apply_log_tail (x : list R) (thresh log_base : Z) : list R :=
  (λ v, log_tail v thresh log_base) <$> x.

Definition scale_pos_val (pos_val : list R) : list R :=
  let thresh := 0%Z in
  let log_base := (-1)%Z in
  let scalar := (λ v, v * 0.03)%R <$> pos_val in
  let pos_val := apply_log_tail pos_val thresh log_base in
  let pos_val := zip_with (λ v s, v / 3.0 + s)%R pos_val scalar in
  (λ v, np_clip v (-2.0) 2.0) <$> pos_val.

Definition portfolio_to_model_input (portfolio : matrix R)
  : result (list R) :=
  let v := mat_slice_cols 5 7 portfolio in
  c1 ← mat_col 1 v;
  v ← mat_set_col 1 (scale_pos_val c1) v;
  c0 ← mat_col 0 v;
  p6 ← mat_col 6 portfolio;
  v ← mat_set_col 0 (zip_with (λ a b, a * b / 2.0)%R c0 p6) v;
  Ok (concat (m_rows v)).
End position_values.

(** Modelled from the spec: what the absent log-tail kernel does for a
    threshold [thresh >= 0] on the magnitude, in the spec's words "identity
    below the threshold" and "a sign-preserving logarithmic compression
    above it"; a compression keeps the order of magnitudes. *)
Record log_tail_spec (log_tail : R → Z → Z → R) : Prop := {
  log_tail_identity : ∀ x thresh log_base,
    (Rabs x < IZR thresh)%R → log_tail x thresh log_base = x;
  log_tail_sign_pos : ∀ x thresh log_base,
    0 ≤ thresh → (0 <= x)%R → (0 <= log_tail x thresh log_base)%R;
  log_tail_sign_neg : ∀ x thresh log_base,
    0 ≤ thresh → (x <= 0)%R → (log_tail x thresh log_base <= 0)%R;
  log_tail_magnitude : ∀ x y thresh log_base,
    0 ≤ thresh → (Rabs x <= Rabs y)%R →
    (Rabs (log_tail x thresh log_base) <= Rabs (log_tail y thresh log_base))%R;
}.

(** Modelled from the spec: a kernel of that kind, with the natural
    logarithm when [log_base] is not a proper base:
    [sign x * (thresh + log (1 + |x| - thresh))] beyond the threshold. *)
Definition ln_tail (x : R) (thresh log_base : Z) : R :=
  if Rlt_dec (Rabs x) (IZR thresh) then x
  else
    let scale := if Z_lt_dec 1 log_base then ln (IZR log_base) else 1%R in
    let y := (IZR thresh + ln (1 + Rabs x - IZR thresh) / scale)%R in
    if Rle_dec 0 x then y else (- y)%R.

(** ** Predicates of the specification *)

Definition key_of (cfg : aerospike_config) (j : Z) : store_key :=
  (namespace cfg, set_name cfg, j).

(** A shape map with its ["max"] entry, every group length at least one
    and at most ["max"]. *)
Definition valid_shape (raw_data_shape : gmap string Z) : Prop :=
  ∃ mx, raw_data_shape !! "max" = Some mx
        ∧ map_Forall (λ k n, k = "max" ∨ 1 ≤ n ≤ mx) raw_data_shape.

(** The window invariant: every group's buffer has length exactly
    [raw_data_shape[group]]. *)
Definition window_ok (raw_data_shape : gmap string Z) (rd : raw_data) : Prop :=
  map_Forall (λ k n, k = "max"
                     ∨ (Z.of_nat ∘ length) <$> rd_groups rd !! k = Some n)
             raw_data_shape.

(** A record carries, for each group of [widths], a feature vector of that
    many channels. *)
Definition conforms (widths : gmap string nat) (b : bins) : Prop :=
  map_Forall (λ k w, length <$> b_fields b !! k = Some w) widths.

#[global] Instance valid_shape_dec shape : Decision (valid_shape shape).
Proof.
  unfold valid_shape. destruct (shape !! "max") as [mx|].
  - destruct (decide (map_Forall (λ k n, k = "max" ∨ 1 ≤ n ≤ mx) shape))
      as [H|H]; [left; eauto | right; intros (? & [= <-] & ?); done].
  - right. intros (? & [=] & _).
Defined.

#[global] Instance window_ok_dec shape rd : Decision (window_ok shape rd).
Proof. unfold window_ok. apply _. Defined.

#[global] Instance conforms_dec widths b : Decision (conforms widths b).
Proof. unfold conforms. apply _. Defined.

(** ** The scenario of the specification *)

Module Scenario.
(** Eleven ticks 100.0, 100.1, ..., 101.0 stored under the indices 0..10,
    one feature group ["0"] with one channel, pip 0.0001, stride 1 and no
    transform stage. *)
Definition cfg : aerospike_config :=
  {| namespace := "releat"; set_name := "agent" |}.

Definition tick (n : nat) : bins :=
  {| b_fields := {[ "0" := [(1000 + Z.of_nat n) # 10] ]};
     b_date := Z.of_nat n;
     b_trade_price := (1000 + Z.of_nat n) # 10;
     b_date_arr := [0; 0; 0]%Q |}.

Definition store : client :=
  {| records := list_to_map ((λ n, (key_of cfg (Z.of_nat n), tick n))
                               <$> seq 0 11);
     requests := [] |}.

Definition raw_data_shape : gmap string Z := {[ "0" := 10; "max" := 10 ]}.
Definition obs_interval : gmap string nat := {[ "0" := 1%nat ]}.
Definition widths : gmap string nat := {[ "0" := 1%nat ]}.

Definition eurusd : SymbolSpec :=
  {| spec_symbol := "EURUSD"; pip := 0.0001; pip_val := 100;
     contract_size := 100000; currency := "USD"; commission := 4 |}.

Definition config : agent_config unit :=
  {| features :=
       [ {| simple_features :=
              [ {| symbol := "EURUSD"; transforms := [] |} ] |} ];
     symbol_info_index := {[ "EURUSD" := 0%nat ]};
     symbol_info := [ eurusd ] |}.

Definition no_transform (feats : ndarray) (tc : unit) : ndarray := feats.

(** The window [init_raw_data] builds at index 10: the ten latest ticks. *)
Definition window : raw_data :=
  {| rd_groups :=
       {[ "0" := (λ n, [(1000 + Z.of_nat n) # 10]) <$> seq 1 10 ]};
     rd_date := 10;
     rd_trade_price := 1010 # 10;
     rd_date_arr := [0; 0; 0]%Q |}.

(** A degenerate shape map: a group of length zero. *)
Definition empty_shape : gmap string Z := {[ "0" := 0; "max" := 0 ]}.

(** Two feature groups of two channels each, both on the same symbol. *)
Definition config2 : agent_config unit :=
  {| features :=
       [ {| simple_features :=
              [ {| symbol := "EURUSD"; transforms := [] |} ] |};
         {| simple_features :=
              [ {| symbol := "EURUSD"; transforms := [] |} ] |} ];
     symbol_info_index := {[ "EURUSD" := 0%nat ]};
     symbol_info := [ eurusd ] |}.

Definition obs_interval2 : gmap string nat :=
  {[ "0" := 1%nat; "1" := 2%nat ]}.

Definition window2 : raw_data :=
  {| rd_groups :=
       {[ "0" := [[100.1; 7]; [100.2; 8]; [100.3; 9]];
          "1" := [[100.0; 1]; [100.1; 2]; [100.2; 3]; [100.3; 4];
                  [100.4; 5]] ]}%Q;
     rd_date := 10;
     rd_trade_price := 100.3;
     rd_date_arr := [0; 0; 0]%Q |}.
End Scenario.

(** ** The observation pipeline in the specification's words *)

Section treated.
Context {TC : Type} (apply_transform : ndarray → TC → ndarray).

(** "Subtract its final value to produce a zero-anchored delta series,
    divide by the symbol's pip size": the series before the final point is
    dropped. *)
Definition delta_series (pip : Q) (col : list Q) (final : Q) : list Q :=
  (λ x, (x - final) / pip)%Q <$> col.

(** What the specification says the builder computes from a group's
    downsampled array [ds]: the delta series of channel 0 without its
    final point, through the transform chain in order, written into
    channel 0 of [ds] without its first row.  No aliasing here. *)
Definition treated (pip : Q) (tcs : list TC) (ds : ndarray)
  : result ndarray :=
  col ← get_col 0 ds;
  final ← py_last col;
  let feats := (λ x, [x]) <$> py_init (delta_series pip col final) in
  vals ← get_col 0 (foldl apply_transform feats tcs);
  vals' ← broadcast_to (length (drop 1 ds)) vals;
  Ok (zip_with (λ x r, <[0%nat := x]> r) vals' (drop 1 ds)).
End treated.

(** Projections used to state what a call returned. *)
Definition obs_group (r : result (observation * raw_data)) (k : string)
  : option obs_entry :=
  match r with
  | Ok (obs, _) => o_groups obs !! k
  | Raise _ => None
  end.

Definition window_after (r : result (observation * raw_data))
  : option raw_data :=
  match r with
  | Ok (_, rd) => Some rd
  | Raise _ => None
  end.

(** ** Sampling in the specification's words *)

(** What the specification asks of the absent [randint(low, high)]: on a
    range that is not empty it returns an integer of the half-open range,
    whatever the generator state. *)
Definition randint_spec {rng} (randint : Z → Z → rng → result (Z * rng))
  : Prop :=
  ∀ low high g, low < high →
    ∃ n g', randint low high g = Ok (n, g') ∧ low ≤ n < high.

(** A generator for the examples: it always draws the lowest integer, and
    raises on an empty range as NumPy's does. *)
Definition randint_low (low high : Z) (g : unit) : result (Z * unit) :=
  if decide (low < high) then Ok (low, g) else Raise ValueError.

(** The quotient [sample_price] truncates. *)
Definition pip_tenths (pip p : float) : float :=
  PrimFloat.div (PrimFloat.mul p (float_of_int 10)) pip.

(** [sample_price] can draw between [min_p] and [max_p]: the pip is not
    zero, both quotients convert to an int64, and the integer range is not
    empty. *)
Definition drawable (pip min_p max_p : float) : Prop :=
  PrimFloat.eqb pip PrimFloat.zero = false
  ∧ ∃ low high, py_int (pip_tenths pip min_p) = Ok low
                ∧ py_int (pip_tenths pip max_p) = Ok high
                ∧ low ≤ high.

(** Every pair [price[2j], price[2j+1]] of the vector is drawable: the
    pairs [get_curr_price] samples from. *)
Fixpoint drawable_pairs (pip : float) (price : list float) : Prop :=
  match price with
  | low :: high :: rest => drawable pip low high ∧ drawable_pairs pip rest
  | _ => True
  end.

Section sampled_rows.
Context {rng : Type} (randint : Z → Z → rng → result (Z * rng)).

(** The rows the specification describes for [get_curr_price]: four
    prices per symbol, bid sampled from the first pair and ask from the
    second, one after the other, all with the same [pip], each stored as a
    [float32]. *)
Fixpoint sample_rows (pip : float) (price : list float) (g : rng)
  : result (list (list float) * rng) :=
  match price with
  | bid_low :: bid_high :: ask_low :: ask_high :: rest =>
      '(bid, g) ← sample_price randint bid_low bid_high pip g;
      '(ask, g) ← sample_price randint ask_low ask_high pip g;
      '(rows, g) ← sample_rows pip rest g;
      Ok ([float32 bid; float32 ask] :: rows, g)
  | _ => Ok ([], g)
  end.
End sampled_rows.

Module Prices.
(** Two symbols with different pips, and a price vector of length 8. *)
Definition nd100 : SymbolSpec :=
  {| spec_symbol := "ND100m"; pip := 1.0; pip_val := 100;
     contract_size := 10; currency := "USD"; commission := 10 |}.

Definition symbol_info : list SymbolSpec := [nd100; Scenario.eurusd].

Definition price : list float :=
  float_of_decimal <$>
    [15000.0; 15001.0; 15000.5; 15001.5;
     1.07123; 1.07125; 1.07124; 1.07126]%Q.

(** The same prices with the symbols in the other order. *)
Definition symbol_info' : list SymbolSpec := [Scenario.eurusd; nd100].

Definition price' : list float :=
  float_of_decimal <$>
    [1.07123; 1.07125; 1.07124; 1.07126;
     15000.0; 15001.0; 15000.5; 15001.5]%Q.
End Prices.

(** ** The position encoding in the specification's words *)

Section encoded.
Context (log_tail : R → Z → Z → R).

(** The scalar [scale_pos_val] computes for one position value. *)
Definition scaled (x : R) : R :=
  np_clip (log_tail x 0 (-1) / 3.0 + x * 0.03) (-2.0) 2.0.

(** One portfolio row encoded: every 7th column from offset 5; the first
    of them times column 6 over 2.0, the second through [scale_pos_val],
    the others as they are. *)
Definition encode_row (r : list R) : list R :=
  match slice_step 7 (drop 5 r) with
  | v0 :: v1 :: rest => (v0 * nth 6 r 0 / 2.0)%R :: scaled v1 :: rest
  | short => short
  end.
End encoded.

(** The pieces of [ln_tail]. *)
Definition ln_scale (log_base : Z) : R :=
  if Z_lt_dec 1 log_base then ln (IZR log_base) else 1%R.

Definition ln_compress (x : R) (thresh log_base : Z) : R :=
  (IZR thresh + ln (1 + Rabs x - IZR thresh) / ln_scale log_base)%R.

Module Portfolio.
(** One position slot of seven columns; and one row of fourteen. *)
Definition one_slot : matrix R :=
  {| m_cols := 7; m_rows := [[0; 0; 0; 0; 0; 1; 2]%R] |}.

Definition two_slots : matrix R :=
  {| m_cols := 14;
     m_rows := [[0; 0; 0; 0; 0; 1; 2; 0; 0; 0; 0; 0; 0; 0]%R] |}.
End Portfolio.

(** ** What one group's treatment reads *)

(** The pip and the transform chain [get_obs] finds for the feature group
    [idx]: those of its first simple feature. *)
Definition group_config {TC} (config : agent_config TC) (idx : nat)
    (info : SymbolSpec) (tcs : list TC) : Prop :=
  ∃ fg fc si,
    features config !! idx = Some fg
    ∧ simple_features fg !! 0%nat = Some fc
    ∧ symbol_info_index config !! symbol fc = Some si
    ∧ symbol_info config !! si = Some info
    ∧ tcs = transforms fc.

(** [raw_data[k][::step]] and [raw_data[k][::step][1:]] as views. *)
Definition group_view (k : string) (step : nat) : obs_entry :=
  Viewed {| v_base := k; v_start := 0; v_step := step |}.

Definition tail_view (k : string) (step : nat) : view :=
  {| v_base := k; v_start := step; v_step := step |}.

(** ** The configuration builder (src/releat/utils/configs/config_builder.py)
       and its instrument table (src/releat/utils/configs/constants.py) *)

Module ConfigBuilder.
(** What [get_feat_group_shape] reads of a feature group: its timeframe and
    the [output_shape] of each of its simple features, in order. *)
Record group_shapes := {
  timeframe : string;
  output_shapes : list (nat * nat);
}.

(** The exceptions of [get_feat_group_shape]: a failed [assert], or
    [simple_features[0]] on a group without features. *)
Inductive shape_error : Set :=
  | AssertionError
  | NoFeature.

(** The loop over the simple features of one group: every [output_shape]
    must have [i0] rows, and [j0] accumulates the columns. *)
Fixpoint sum_columns (i0 : nat) (shapes : list (nat * nat)) (j0 : nat)
  : shape_error + nat :=
  match shapes with
  | [] => inr j0
  | (i1, j1) :: rest =>
      if decide (i0 = i1) then sum_columns i0 rest (j0 + j1)%nat
      else inl AssertionError
  end.

(** The loop over [feat_ind], from [feat_ind] on, with the dict
    [symbol_structure] built so far. *)
Fixpoint shape_groups (feat_ind : nat) (feature_spec : list group_shapes)
    (symbol_structure : gmap string (nat * nat))
  : shape_error + gmap string (nat * nat) :=
  match feature_spec with
  | [] => inr symbol_structure
  | fcs :: rest =>
      if decide (is_Some (symbol_structure !! timeframe fcs))
      then inl AssertionError
      else
        match output_shapes fcs with
        | [] => inl NoFeature
        | (i0, _) :: _ =>
            match sum_columns i0 (output_shapes fcs) 0 with
            | inl e => inl e
            | inr j0 =>
                shape_groups (S feat_ind) rest
                  (<[pretty feat_ind := (i0, j0)]> symbol_structure)
            end
        end
  end.

Definition get_feat_group_shape (feature_spec : list group_shapes)
  : shape_error + gmap string (nat * nat) :=
  shape_groups 0 feature_spec ∅.

(** An entry of [trading_instruments[broker]]. *)
Record instrument := {
  i_pip : Q;
  i_pip_val : Q;
  i_contract_size : Q;
  i_currency : string;
  i_commission : Q;
}.

Definition trading_instruments : gmap string (gmap string instrument) :=
  {[ "metaquotes" :=
       {[ "EURUSD" := {| i_pip := 0.0001; i_pip_val := 100;
                         i_contract_size := 100000; i_currency := "USD";
                         i_commission := 4.0 |};
          "ND100m" := {| i_pip := 1.0; i_pip_val := 100;
                         i_contract_size := 10; i_currency := "USD";
                         i_commission := 10.0 |};
          "XAUUSD" := {| i_pip := 0.1; i_pip_val := 100;
                         i_contract_size := 100; i_currency := "USD";
                         i_commission := 4.0 |} ]};
     "metaquotes2" :=
       {[ "AUDJPY" := {| i_pip := 0.01; i_pip_val := 10000;
                         i_contract_size := 100000; i_currency := "JPY";
                         i_commission := 4.0 |};
          "USDJPY" := {| i_pip := 0.01; i_pip_val := 10000;
                         i_contract_size := 100000; i_currency := "JPY";
                         i_commission := 4.0 |} ]} ]}.

(** The [SymbolSpec] built from the table entry once
    [symbol_info["symbol"] = symbol] has added the name. *)
Definition symbol_spec (symbol : string) (i : instrument) : SymbolSpec :=
  {| spec_symbol := symbol; pip := i_pip i; pip_val := i_pip_val i;
     contract_size := i_contract_size i; currency := i_currency i;
     commission := i_commission i |}.

Section ticker_info.
Context {TC : Type}.
(** The instrument table is a parameter of the loops, so that they can be
    stated for any table; [get_ticker_info] passes [trading_instruments]. *)
Context (table : gmap string (gmap string instrument)).

(** The body of the loop over [j]: the state is [agent_symbol_info] and
    [agent_symbol_info_index]. *)
Definition add_symbol (broker : string) (fc : SimpleFeatureConfig TC)
    (st : list SymbolSpec * gmap string nat)
  : result (list SymbolSpec * gmap string nat) :=
  let '(agent_symbol_info, agent_symbol_info_index) := st in
  let symbol := symbol fc in
  if decide (symbol ∈ spec_symbol <$> agent_symbol_info) then Ok st
  else
    instruments ← getitem table broker;
    symbol_info ← getitem instruments symbol;
    Ok (agent_symbol_info ++ [symbol_spec symbol symbol_info],
        <[symbol := length agent_symbol_info]> agent_symbol_info_index).

(** The body of the loop over [i]. *)
Definition add_group (broker : string) (fg : FeatureGroupConfig TC)
    (st : list SymbolSpec * gmap string nat)
  : result (list SymbolSpec * gmap string nat) :=
  for_each (add_symbol broker) (simple_features fg) st.

Definition ticker_info (feature_spec : list (FeatureGroupConfig TC))
    (broker : string) : result (list SymbolSpec * gmap string nat) :=
  for_each (add_group broker) feature_spec ([], ∅).
End ticker_info.

(** Returns the pair ["symbol_info"], ["symbol_info_index"]. *)
Definition get_ticker_info {TC} (feature_spec : list (FeatureGroupConfig TC))
    (broker : string) : result (list SymbolSpec * gmap string nat) :=
  ticker_info trading_instruments feature_spec broker.

(** The configuration [make_agent_config] hands to [get_obs]: the feature
    specification with the symbol table [get_ticker_info] built for it. *)
Definition obs_config {TC} (feature_spec : list (FeatureGroupConfig TC))
    (info : list SymbolSpec * gmap string nat) : agent_config TC :=
  {| features := feature_spec;
     symbol_info_index := info.2;
     symbol_info := info.1 |}.

(** The state the two loops of [get_ticker_info] keep for a broker: the
    symbols listed are distinct, the index maps each of them to its position
    in the list, and every entry is the table's entry for its symbol. *)
Definition indexed (table : gmap string (gmap string instrument))
    (broker : string) (st : list SymbolSpec * gmap string nat) : Prop :=
  NoDup (spec_symbol <$> st.1)
  ∧ (∀ s i, st.2 !! s = Some i ↔ (spec_symbol <$> st.1) !! i = Some s)
  ∧ Forall (λ spec, ∃ instruments ins,
              table !! broker = Some instruments
              ∧ instruments !! spec_symbol spec = Some ins
              ∧ spec = symbol_spec (spec_symbol spec) ins) st.1.

(** The symbols a feature specification names, in the order of the loops. *)
Definition feature_symbols {TC} (feature_spec : list (FeatureGroupConfig TC))
  : list string :=
  symbol <$> concat (simple_features <$> feature_spec).

(** [make_agent_config], the execution part: [symbol_index_map] maps a
    symbol to the pair of its position in [symbol_info] and its [pip]. *)
Definition symbol_index_map (symbol_info : list SymbolSpec)
  : gmap string (nat * Q) :=
  foldl (λ m iv, <[spec_symbol iv.2 := (iv.1, pip iv.2)]> m) ∅
    (zip (seq 0 (length symbol_info)) symbol_info).

(** What the loop over the portfolio adds to a position: [symbol_index]
    and [pip_val], both read from [symbol_index_map] under the position's
    symbol. *)
Record position := {
  pos_symbol : string;
  pos_symbol_index : nat;
  pos_pip_val : Q;
}.

Definition index_position (m : gmap string (nat * Q)) (symbol : string)
  : result position :=
  entry ← getitem m symbol;
  Ok {| pos_symbol := symbol; pos_symbol_index := entry.1;
        pos_pip_val := entry.2 |}.

Fixpoint index_portfolio (m : gmap string (nat * Q))
    (portfolio : list string) : result (list position) :=
  match portfolio with
  | [] => Ok []
  | symbol :: rest =>
      p ← index_position m symbol;
      ps ← index_portfolio m rest;
      Ok (p :: ps)
  end.
End ConfigBuilder.

Module Sliding.
(** A window of three rows on a history of four, for the store of
    [Scenario]: the records around index 5 are all there. *)
Definition raw_data_shape : gmap string Z := {[ "0" := 3; "max" := 4 ]}.
End Sliding.

(** * Properties *)

(** ** Tactics *)

(** Closed decidable facts, by evaluation. *)
Ltac by_computation :=
  lazymatch goal with
  | |- ?P => apply (bool_decide_unpack P); vm_compute; exact I
  end.

(** Lists of rationals equal up to [==], element by element. *)
Ltac qeq_list :=
  repeat first [ apply Forall2_nil_2
               | apply Forall2_cons_2; [vm_compute; reflexivity|] ].

(** [lra] on [Q] does not read a division: tenths become a factor. *)
Ltac q_lra :=
  unfold Qdiv in *; change (/ 10)%Q with (1 # 10)%Q in *; lra.

(** ** The result monad and the per-key loops *)

Lemma bind_Ok_inv {A B} (m : result A) (f : A → result B) b :
  m ≫= f = Ok b → ∃ a, m = Ok a ∧ f a = Ok b.
Proof. destruct m as [a|e]; simpl; [eauto | done]. Qed.

Lemma getitem_Ok {V} (d : gmap string V) k v :
  getitem d k = Ok v ↔ d !! k = Some v.
Proof. unfold getitem. destruct (d !! k); naive_solver. Qed.

Lemma getitem_Raise {V} (d : gmap string V) k e :
  getitem d k = Raise e → d !! k = None ∧ e = KeyError.
Proof. unfold getitem. destruct (d !! k); naive_solver. Qed.

Lemma np_array_Ok rows a : np_array rows = Ok a → a = rows.
Proof. unfold np_array. destruct (rectangular rows); naive_solver. Qed.

Lemma np_vstack_Ok a r a' : np_vstack a r = Ok a' → a' = a ++ [r].
Proof. unfold np_vstack. case_match; naive_solver. Qed.

Lemma length_py_slice_from_neg {A} (n : Z) (l : list A) :
  1 ≤ n ≤ Z.of_nat (length l) →
  Z.of_nat (length (py_slice_from (- n) l)) = n.
Proof.
  intros Hn. unfold py_slice_from.
  destruct (Z.ltb_spec (- n) 0); [|lia]. rewrite length_drop. lia.
Qed.

Lemma py_slice_from_1 {A} (l : list A) : py_slice_from 1 l = drop 1 l.
Proof. done. Qed.

Lemma elem_of_feat_group_inds shape k :
  k ∈ feat_group_inds shape ↔ k ≠ "max" ∧ is_Some (shape !! k).
Proof.
  unfold feat_group_inds.
  rewrite list_elem_of_filter, elem_of_elements, elem_of_dom. done.
Qed.

Lemma NoDup_feat_group_inds shape : NoDup (feat_group_inds shape).
Proof. apply NoDup_filter, NoDup_elements. Qed.

Lemma lookup_empty_buffers (inds : list string) k :
  (foldr (λ k raw, <[k := []]> raw) (∅ : gmap string ndarray) inds) !! k
  = if decide (k ∈ inds) then Some [] else None.
Proof.
  induction inds as [|k0 inds IH]; cbn [foldr].
  - rewrite lookup_empty, decide_False; [done|]. intros H. inversion H.
  - destruct (decide (k0 = k)) as [->|Hne].
    + rewrite lookup_insert_eq, decide_True by left. done.
    + rewrite lookup_insert_ne by done. etrans; [exact IH|].
      destruct (decide (k ∈ inds)) as [Hin|Hin].
      * rewrite decide_True by (by right). done.
      * rewrite decide_False; [done|].
        intros [->|?]%elem_of_cons; done.
Qed.

Section pointwise.
Context {V : Type} (F : string → V → result V).
Context (body : string → gmap string V → result (gmap string V)).
Hypothesis body_eq : ∀ k m,
  body k m = (l ← getitem m k; v ← F k l; Ok (<[k := v]> m)).

Lemma for_each_pointwise_inv inds : NoDup inds → ∀ m m',
  for_each body inds m = Ok m' →
  ∀ k, (k ∈ inds → ∃ l v, m !! k = Some l ∧ F k l = Ok v ∧ m' !! k = Some v)
     ∧ (k ∉ inds → m' !! k = m !! k).
Proof.
  induction 1 as [|k0 inds Hk0 Hnd IH]; intros m m' Hrun k; simpl in Hrun.
  - injection Hrun as <-. split; [intros Hin; inversion Hin | done].
  - rewrite body_eq in Hrun. unfold getitem in Hrun.
    destruct (m !! k0) as [l0|] eqn:Hl0; simpl in Hrun; [|done].
    destruct (F k0 l0) as [v0|] eqn:Hv0; simpl in Hrun; [|done].
    specialize (IH _ _ Hrun k) as [IHin IHout]. split.
    + intros Hin. apply elem_of_cons in Hin as [->|Hin].
      * exists l0, v0. rewrite (IHout Hk0), lookup_insert_eq. done.
      * destruct (IHin Hin) as (l & v & Hl & Hv & Hm').
        rewrite lookup_insert_ne in Hl by (intros ->; done). eauto.
    + intros Hout. apply not_elem_of_cons in Hout as [Hne Hout].
      rewrite (IHout Hout), lookup_insert_ne; done.
Qed.

Lemma for_each_pointwise_ok inds : NoDup inds → ∀ m,
  (∀ k, k ∈ inds → ∃ l v, m !! k = Some l ∧ F k l = Ok v) →
  ∃ m', for_each body inds m = Ok m'.
Proof.
  induction 1 as [|k0 inds Hk0 Hnd IH]; intros m Hall; simpl; [eauto|].
  destruct (Hall k0) as (l0 & v0 & Hl0 & Hv0); [left|].
  rewrite body_eq. unfold getitem. rewrite Hl0. simpl. rewrite Hv0. simpl.
  apply IH. intros k Hin. destruct (Hall k) as (l & v & Hl & Hv); [by right|].
  exists l, v. rewrite lookup_insert_ne; [done|]. intros ->. done.
Qed.
End pointwise.

Lemma append_bins_body b k (raw : gmap string ndarray) :
  (l ← getitem raw k; f ← getitem (b_fields b) k; Ok (<[k := l ++ [f]]> raw))
  = (l ← getitem raw k;
     v ← (f ← getitem (b_fields b) k; Ok (l ++ [f]));
     Ok (<[k := v]> raw)).
Proof.
  destruct (getitem raw k); simpl; [|done].
  destruct (getitem (b_fields b) k); done.
Qed.

Lemma truncate_groups_body shape k (raw : gmap string ndarray) :
  (l ← getitem raw k; n ← getitem shape k;
   a ← np_array (py_slice_from (- n) l); Ok (<[k := a]> raw))
  = (l ← getitem raw k;
     v ← (n ← getitem shape k; np_array (py_slice_from (- n) l));
     Ok (<[k := v]> raw)).
Proof.
  destruct (getitem raw k); simpl; [|done].
  destruct (getitem shape k); simpl; [|done].
  destruct (np_array _); done.
Qed.

Lemma shift_groups_body b k (raw : gmap string ndarray) :
  (f ← getitem (b_fields b) k; a ← getitem raw k;
   a' ← np_vstack a f; Ok (<[k := py_slice_from 1 a']> raw))
  = (a ← getitem raw k;
     v ← (f ← getitem (b_fields b) k; a' ← np_vstack a f;
          Ok (py_slice_from 1 a'));
     Ok (<[k := v]> raw)).
Proof.
  unfold getitem.
  destruct (b_fields b !! k), (raw !! k); simpl; try done.
  destruct (np_vstack _ _); done.
Qed.

Section backfill.
Context (cfg : aerospike_config) (inds : list string).
Hypothesis inds_nodup : NoDup inds.

Lemma append_bins_Ok_inv b raw raw' :
  append_bins inds b raw = Ok raw' →
  ∀ k, (k ∈ inds → ∃ l f, raw !! k = Some l ∧ b_fields b !! k = Some f
                           ∧ raw' !! k = Some (l ++ [f]))
     ∧ (k ∉ inds → raw' !! k = raw !! k).
Proof.
  intros Hrun k.
  destruct (for_each_pointwise_inv _ _ (append_bins_body b) inds
              inds_nodup _ _ Hrun k) as [Hin Hout].
  split; [|done]. intros Hk. destruct (Hin Hk) as (l & v & Hl & Hv & Hr).
  apply bind_Ok_inv in Hv as (f & Hf%getitem_Ok & [= <-]). eauto.
Qed.

Lemma append_bins_Ok b raw :
  (∀ k, k ∈ inds → is_Some (raw !! k) ∧ is_Some (b_fields b !! k)) →
  ∃ raw', append_bins inds b raw = Ok raw'.
Proof.
  intros Hall.
  apply (for_each_pointwise_ok _ _ (append_bins_body b) inds inds_nodup).
  intros k Hk. destruct (Hall k Hk) as [[l Hl] [f Hf]].
  exists l, (l ++ [f]). split; [done|].
  unfold getitem. rewrite Hf. done.
Qed.

Lemma backfill_Ok_inv js : ∀ raw last c raw' last' c',
  backfill cfg inds js raw last c = (Ok (raw', last'), c') →
  ∃ bs,
    Forall2 (λ j b, records c !! key_of cfg j = Some b) js bs
    ∧ records c' = records c
    ∧ requests c' = requests c ++ (key_of cfg <$> js)
    ∧ last' = from_option Some last (list.last bs)
    ∧ ∀ k, (k ∈ inds → ∃ fs,
              Forall2 (λ b f, b_fields b !! k = Some f) bs fs
              ∧ raw' !! k = (λ l, l ++ fs) <$> raw !! k)
         ∧ (k ∉ inds → raw' !! k = raw !! k).
Proof.
  induction js as [|j js IH]; intros raw last c raw' last' c' Hrun;
    simpl in Hrun.
  - injection Hrun as <- <- <-. exists []. split_and!; try done.
    + by rewrite app_nil_r.
    + intros k. split; [|done]. intros _. exists []. split; [done|].
      destruct (raw !! k); simpl; by rewrite ?app_nil_r.
  - fold (key_of cfg j) in Hrun.
    destruct (records c !! key_of cfg j) as [b|] eqn:Hb; [|by injection Hrun].
    destruct (append_bins inds b raw) as [raw1|] eqn:Happ;
      [|by injection Hrun].
    apply IH in Hrun as (bs & Hbs & Hrec & Hreq & Hlast & Hraw).
    simpl in Hrec, Hreq. exists (b :: bs). split_and!.
    + constructor; done.
    + done.
    + rewrite Hreq, <-app_assoc. done.
    + rewrite Hlast, last_cons. destruct (list.last bs); done.
    + intros k. destruct (append_bins_Ok_inv _ _ _ Happ k) as [Hin1 Hout1].
      destruct (Hraw k) as [Hin Hout]. split.
      * intros Hk. destruct (Hin Hk) as (fs & Hfs & Hr).
        destruct (Hin1 Hk) as (l & f & Hl & Hf & Hr1).
        exists (f :: fs). split; [by constructor|].
        rewrite Hr, Hr1, Hl. simpl. by rewrite <-app_assoc.
      * intros Hk. rewrite (Hout Hk). auto.
Qed.

(** Every record of the range present and carrying the group fields:
    the loop completes. *)
Lemma backfill_Ok js : ∀ raw last c,
  (∀ k, k ∈ inds → is_Some (raw !! k)) →
  Forall (λ j, ∃ b, records c !! key_of cfg j = Some b
                    ∧ ∀ k, k ∈ inds → is_Some (b_fields b !! k)) js →
  ∃ raw' last', (backfill cfg inds js raw last c).1 = Ok (raw', last').
Proof.
  induction js as [|j js IH]; intros raw last c Hraw Hall; simpl; [eauto|].
  apply Forall_cons in Hall as [(b & Hb & Hf) Hall].
  fold (key_of cfg j). rewrite Hb.
  destruct (append_bins_Ok b raw) as [raw1 Happ];
        [intros k Hk; split; [apply Hraw | apply Hf]; done|].
  rewrite Happ. apply IH; [|done].
  intros k Hk. destruct (append_bins_Ok_inv _ _ _ Happ k) as [Hin _].
  destruct (Hin Hk) as (l1 & f1 & _ & _ & Hr1). by exists (l1 ++ [f1]).
Qed.

(** The first missing record stops the loop with [DataUnavailable]; the
    records before it were each requested once, and nothing after it. *)
Lemma backfill_miss js : ∀ n raw last c,
  (∀ k, k ∈ inds → is_Some (raw !! k)) →
  Forall (λ j, ∃ b, records c !! key_of cfg j = Some b
                    ∧ ∀ k, k ∈ inds → is_Some (b_fields b !! k))
         (take n js) →
  (∃ j, js !! n = Some j ∧ records c !! key_of cfg j = None) →
  (backfill cfg inds js raw last c).1 = Raise DataUnavailable
  ∧ requests (backfill cfg inds js raw last c).2
    = requests c ++ (key_of cfg <$> take (S n) js).
Proof.
  induction js as [|j js IH]; intros n raw last c Hraw Hall (j' & Hj' & Hnone).
  - done.
  - simpl. fold (key_of cfg j). destruct n as [|n]; simpl in *.
    + injection Hj' as ->. rewrite Hnone. done.
    + apply Forall_cons in Hall as [(b & Hb & Hf) Hall]. rewrite Hb.
      destruct (append_bins_Ok b raw) as [raw1 Happ];
        [intros k Hk; split; [apply Hraw | apply Hf]; done|].
      rewrite Happ.
      destruct (IH n raw1 (Some b)
                  {| records := records c;
                     requests := requests c ++ [key_of cfg j] |})
        as [-> ->]; [| done | eauto |].
      * intros k Hk. destruct (append_bins_Ok_inv _ _ _ Happ k) as [Hin _].
        destruct (Hin Hk) as (l1 & f1 & _ & _ & Hr1). by exists (l1 ++ [f1]).
      * simpl. by rewrite <-app_assoc.
Qed.
End backfill.

(** ** The raw window store *)

Lemma truncate_groups_Ok_inv shape inds raw raw' :
  NoDup inds →
  truncate_groups shape inds raw = Ok raw' →
  ∀ k, k ∈ inds → ∃ l n, raw !! k = Some l ∧ shape !! k = Some n
                         ∧ raw' !! k = Some (py_slice_from (- n) l).
Proof.
  intros Hnd Hrun k Hk.
  destruct (for_each_pointwise_inv _ _ (truncate_groups_body shape) inds
              Hnd _ _ Hrun k) as [Hin _].
  destruct (Hin Hk) as (l & v & Hl & Hv & Hr).
  apply bind_Ok_inv in Hv as (n & Hn%getitem_Ok & ->%np_array_Ok). eauto.
Qed.

Lemma rectangular_same_width {A} (w : nat) (a : list (list A)) :
  Forall (λ r, length r = w) a → rectangular a = true.
Proof.
  destruct a as [|r t]; [done|]. intros [Hr Ht]%Forall_cons. simpl.
  apply forallb_forall. intros r' Hin%list_elem_of_In.
  rewrite Forall_forall in Ht. apply Nat.eqb_eq. rewrite Hr. auto.
Qed.

Lemma Forall_py_slice_from {A} (P : A → Prop) start (l : list A) :
  Forall P l → Forall P (py_slice_from start l).
Proof. intros H. unfold py_slice_from. case_match; by apply Forall_drop. Qed.

Lemma init_raw_data_Ok_inv cfg c shape i rd c' :
  init_raw_data cfg c shape i = (Ok rd, c') →
  ∃ mx bs b,
    shape !! "max" = Some mx
    ∧ Forall2 (λ j b, records c !! key_of cfg j = Some b)
              (seqZ (i - mx) (mx + 1)) bs
    ∧ requests c' = requests c ++ (key_of cfg <$> seqZ (i - mx) (mx + 1))
    ∧ last bs = Some b
    ∧ (rd_date rd, rd_trade_price rd, rd_date_arr rd)
      = (b_date b, b_trade_price b, b_date_arr b)
    ∧ ∀ k n, k ≠ "max" → shape !! k = Some n →
        ∃ fs, Forall2 (λ b f, b_fields b !! k = Some f) bs fs
              ∧ rd_groups rd !! k = Some (py_slice_from (- n) fs).
Proof.
  unfold init_raw_data. intros Hrun.
  destruct (getitem shape "max") as [mx|] eqn:Hmx; [|done].
  apply getitem_Ok in Hmx.
  destruct (backfill _ _ _ _ _ _) as [r c1] eqn:Hfill.
  injection Hrun as Hrun <-.
  apply bind_Ok_inv in Hrun as ([raw last] & -> & Hrun). simpl in Hrun.
  apply bind_Ok_inv in Hrun as (b & Hlast & Hrun).
  apply bind_Ok_inv in Hrun as (groups & Htrunc & [= <-]).
  destruct last as [b'|]; [injection Hlast as ->|done].
  apply backfill_Ok_inv in Hfill
    as (bs & Hbs & _ & Hreq & Hb & Hraw); [|apply NoDup_feat_group_inds].
  exists mx, bs, b. split_and!; try done.
  - simpl in Hb. destruct (last bs); [by injection Hb as ->|done].
  - intros k n Hk Hn. simpl.
    assert (k ∈ feat_group_inds shape) as Hin
      by (apply elem_of_feat_group_inds; eauto).
    destruct (truncate_groups_Ok_inv _ _ _ _ (NoDup_feat_group_inds shape)
                Htrunc k Hin) as (l & n' & Hl & Hn' & ->).
    destruct (Hraw k) as [Hfs _]. destruct (Hfs Hin) as (fs & Hfs' & Hr).
    pose proof (lookup_empty_buffers (feat_group_inds shape) k) as H0.
    rewrite decide_True in H0 by done.
    rewrite Hr, H0 in Hl. injection Hl as <-.
    rewrite Hn in Hn'. injection Hn' as <-. eauto.
Qed.

Lemma length_seqZ_range i mx : 0 ≤ mx →
  Z.of_nat (length (seqZ (i - mx) (mx + 1))) = mx + 1.
Proof. intros. rewrite length_seqZ. lia. Qed.

Lemma init_raw_data_window_ok cfg c shape i rd c' :
  valid_shape shape →
  init_raw_data cfg c shape i = (Ok rd, c') →
  window_ok shape rd.
Proof.
  intros (mx & Hmx & Hvalid) Hrun.
  apply init_raw_data_Ok_inv in Hrun
    as (mx' & bs & b & Hmx' & Hbs & _ & _ & _ & Hgroups).
  rewrite Hmx in Hmx'. injection Hmx' as <-.
  intros k n Hn. destruct (decide (k = "max")) as [|Hk]; [by left|right].
  destruct (Hvalid k n Hn) as [|Hrange]; [done|].
  destruct (Hgroups k n Hk Hn) as (fs & Hfs & ->). simpl. f_equal.
  apply length_py_slice_from_neg.
  rewrite <-(Forall2_length _ _ _ Hfs), <-(Forall2_length _ _ _ Hbs).
  rewrite length_seqZ_range; lia.
Qed.

Lemma shift_groups_Ok_inv inds b raw raw' :
  NoDup inds →
  shift_groups inds b raw = Ok raw' →
  ∀ k, (k ∈ inds → ∃ a f, raw !! k = Some a ∧ b_fields b !! k = Some f
                          ∧ raw' !! k = Some (drop 1 (a ++ [f])))
     ∧ (k ∉ inds → raw' !! k = raw !! k).
Proof.
  intros Hnd Hrun k.
  destruct (for_each_pointwise_inv _ _ (shift_groups_body b) inds
              Hnd _ _ Hrun k) as [Hin Hout].
  split; [|done]. intros Hk. destruct (Hin Hk) as (a & v & Ha & Hv & Hr).
  apply bind_Ok_inv in Hv as (f & Hf%getitem_Ok & Hv).
  apply bind_Ok_inv in Hv as (a' & ->%np_vstack_Ok & [= <-]). eauto.
Qed.

Lemma update_raw_data_Ok_inv cfg c shape rd i rd' c' :
  update_raw_data cfg c shape rd i = (Ok rd', c') →
  ∃ b, records c !! key_of cfg i = Some b
    ∧ (rd_date rd', rd_trade_price rd', rd_date_arr rd')
      = (b_date b, b_trade_price b, b_date_arr b)
    ∧ ∀ k n, k ≠ "max" → shape !! k = Some n →
        ∃ old f, rd_groups rd !! k = Some old ∧ b_fields b !! k = Some f
                 ∧ rd_groups rd' !! k = Some (drop 1 (old ++ [f])).
Proof.
  unfold update_raw_data, client_get. fold (key_of cfg i). intros Hrun.
  injection Hrun as Hrun _.
  apply bind_Ok_inv in Hrun as (b & Hb & Hrun).
  apply bind_Ok_inv in Hrun as (groups & Hshift & [= <-]).
  destruct (records c !! key_of cfg i) as [b'|]; [injection Hb as ->|done].
  exists b. split_and!; try done. intros k n Hk Hn. simpl.
  destruct (shift_groups_Ok_inv _ _ _ _ (NoDup_feat_group_inds shape)
              Hshift k) as [Hin _].
  apply Hin, elem_of_feat_group_inds. eauto.
Qed.

Lemma update_raw_data_requests cfg c shape rd i :
  requests (update_raw_data cfg c shape rd i).2
  = requests c ++ [key_of cfg i].
Proof. done. Qed.

Lemma update_raw_data_miss cfg c shape rd i :
  records c !! key_of cfg i = None →
  (update_raw_data cfg c shape rd i).1 = Raise DataUnavailable.
Proof.
  intros Hnone. unfold update_raw_data, client_get.
  fold (key_of cfg i). rewrite Hnone. done.
Qed.

(** C1 (as amended): for every shape map whose group lengths lie between
    one and the ["max"] entry, the window [init_raw_data] returns has, for
    every group, a buffer of length exactly [raw_data_shape[group]]; and
    from a window with that invariant [update_raw_data] returns, for every
    group, the old buffer without its oldest entry followed by the fetched
    record's field, so the invariant holds again. *)
Theorem window_length_invariant cfg c shape i
    (Hshape : valid_shape shape) :
  (∀ rd c', init_raw_data cfg c shape i = (Ok rd, c') → window_ok shape rd)
  ∧ (∀ rd rd' c',
       window_ok shape rd →
       update_raw_data cfg c shape rd i = (Ok rd', c') →
       (∃ b, records c !! key_of cfg i = Some b
             ∧ ∀ k n, k ≠ "max" → shape !! k = Some n →
                 ∃ old f, rd_groups rd !! k = Some old
                          ∧ b_fields b !! k = Some f
                          ∧ rd_groups rd' !! k = Some (drop 1 old ++ [f]))
       ∧ window_ok shape rd').
Proof.
  split; [intros rd c'; by apply init_raw_data_window_ok|].
  intros rd rd' c' Hinv Hrun. destruct Hshape as (mx & Hmx & Hvalid).
  apply update_raw_data_Ok_inv in Hrun as (b & Hb & _ & Hgroups).
  assert (∀ k n, k ≠ "max" → shape !! k = Some n →
            ∃ old f, rd_groups rd !! k = Some old
                     ∧ Z.of_nat (length old) = n
                     ∧ b_fields b !! k = Some f
                     ∧ rd_groups rd' !! k = Some (drop 1 old ++ [f]))
    as Hshift.
  { intros k n Hk Hn. destruct (Hgroups k n Hk Hn) as (old & f & Ho & Hf & Hr).
    destruct (Hinv k n Hn) as [|Hlen]; [done|].
    destruct (Hvalid k n Hn) as [|Hrange]; [done|].
    rewrite Ho in Hlen. injection Hlen as Hlen. simpl in Hlen.
    exists old, f. split_and!; try done.
    rewrite Hr, drop_app_le; [done|]. lia. }
  split.
  - exists b. split; [done|]. intros k n Hk Hn.
    destruct (Hshift k n Hk Hn) as (old & f & ? & ? & ? & ?). eauto.
  - intros k n Hn. destruct (decide (k = "max")) as [|Hk]; [by left|right].
    destruct (Hshift k n Hk Hn) as (old & f & _ & Hlen & _ & ->).
    destruct (Hvalid k n Hn) as [|Hrange]; [done|].
    simpl. f_equal. rewrite length_app, length_drop. simpl. lia.
Qed.

Lemma truncate_groups_Ok shape inds raw :
  NoDup inds →
  (∀ k, k ∈ inds → ∃ l w, raw !! k = Some l ∧ is_Some (shape !! k)
                          ∧ Forall (λ r, length r = w) l) →
  ∃ raw', truncate_groups shape inds raw = Ok raw'.
Proof.
  intros Hnd Hall.
  apply (for_each_pointwise_ok _ _ (truncate_groups_body shape) inds Hnd).
  intros k Hk. destruct (Hall k Hk) as (l & w & Hl & [n Hn] & Hw).
  exists l, (py_slice_from (- n) l). split; [done|].
  unfold getitem. rewrite Hn. simpl. unfold np_array.
  rewrite (rectangular_same_width w); [done|]. by apply Forall_py_slice_from.
Qed.

Lemma first_missing (c : client) cfg js :
  Exists (λ j, records c !! key_of cfg j = None) js →
  ∃ n j, js !! n = Some j ∧ records c !! key_of cfg j = None
         ∧ Forall (λ j, is_Some (records c !! key_of cfg j)) (take n js).
Proof.
  induction js as [|j js IH]; intros Hex; [by apply Exists_nil in Hex|].
  destruct (records c !! key_of cfg j) as [b|] eqn:Hj.
  - apply Exists_cons in Hex as [Hex|Hex]; [congruence|].
    destruct (IH Hex) as (n & j' & Hn & Hnone & Hall).
    exists (S n), j'. split_and!; try done. simpl. constructor; [|done].
    by rewrite Hj.
  - exists 0%nat, j. split_and!; done.
Qed.

Section store_conforms.
Context (cfg : aerospike_config) (c : client) (shape : gmap string Z).
Context (widths : gmap string nat).
Hypothesis Hwidths : dom (delete "max" shape) ⊆ dom widths.
Hypothesis Hstore : map_Forall (λ _ b, conforms widths b) (records c).

Lemma conforming_field key b k :
  records c !! key = Some b → k ∈ feat_group_inds shape →
  ∃ f w, widths !! k = Some w ∧ b_fields b !! k = Some f ∧ length f = w.
Proof.
  intros Hb [Hk Hs]%elem_of_feat_group_inds.
  assert (k ∈ dom widths) as [w Hw]%elem_of_dom.
  { apply Hwidths, elem_of_dom. by rewrite lookup_delete_ne. }
  pose proof (Hstore _ _ Hb k w Hw) as Hf. simpl in Hf.
  apply fmap_Some in Hf as (f & Hf & ->). eauto.
Qed.

Lemma present_conforming js :
  Forall (λ j, is_Some (records c !! key_of cfg j)) js →
  Forall (λ j, ∃ b, records c !! key_of cfg j = Some b
                    ∧ ∀ k, k ∈ feat_group_inds shape
                           → is_Some (b_fields b !! k)) js.
Proof.
  intros Hall. eapply Forall_impl; [exact Hall|].
  intros j [b Hb]. exists b. split; [done|].
  intros k Hk. destruct (conforming_field _ _ _ Hb Hk) as (f & ? & ? & Hf & ?).
  by exists f.
Qed.

Lemma init_raw_data_Ok mx i :
  shape !! "max" = Some mx → 0 ≤ mx →
  Forall (λ j, is_Some (records c !! key_of cfg j))
         (seqZ (i - mx) (mx + 1)) →
  ∃ rd, (init_raw_data cfg c shape i).1 = Ok rd.
Proof.
  intros Hmx Hpos Hall. unfold init_raw_data, getitem. rewrite Hmx.
  set (inds := feat_group_inds shape).
  set (raw0 := foldr _ _ _).
  assert (∀ k, k ∈ inds → raw0 !! k = Some []) as Hraw0.
  { intros k Hk. unfold raw0. etrans; [apply lookup_empty_buffers|].
    by rewrite decide_True. }
  destruct (backfill_Ok cfg inds (NoDup_feat_group_inds shape)
              (seqZ (i - mx) (mx + 1)) raw0 None c)
    as (raw & last & Hfill).
  { intros k Hk. exists []. by apply Hraw0. }
  { by apply present_conforming. }
  destruct (backfill _ _ _ _ _ _) as [r c1] eqn:Hrun. simpl in Hfill.
  subst r. simpl.
  apply backfill_Ok_inv in Hrun
    as (bs & Hbs & _ & _ & Hlast & Hraw); [|apply NoDup_feat_group_inds].
  destruct bs as [|b0 bs'] using rev_ind.
  { apply Forall2_length in Hbs. rewrite length_seqZ in Hbs. simpl in Hbs.
    lia. }
  clear IHbs'. rewrite last_snoc in Hlast. simpl in Hlast. subst last.
  simpl.
  destruct (truncate_groups_Ok shape inds raw (NoDup_feat_group_inds shape))
    as [groups ->]; [|simpl; eauto].
  intros k Hk. destruct (Hraw k) as [Hin _].
  destruct (Hin Hk) as (fs & Hfs & Hr). rewrite Hraw0 in Hr by done.
  assert (k ∈ dom widths) as [w Hw]%elem_of_dom.
  { apply elem_of_feat_group_inds in Hk as [Hk Hs].
    apply Hwidths, elem_of_dom. by rewrite lookup_delete_ne. }
  exists fs, w. split_and!; [done | by apply elem_of_feat_group_inds in Hk as [_ ?] |].
  apply Forall_forall. intros f Hf.
  apply list_elem_of_lookup in Hf as [n Hf].
  destruct (Forall2_lookup_r _ _ _ _ _ Hfs Hf) as (b & Hb & Hbf).
  destruct (Forall2_lookup_r _ _ _ _ _ Hbs Hb) as (j & Hj & Hjb).
  destruct (conforming_field _ _ _ Hjb Hk) as (f' & w' & Hw' & Hf' & Hlen).
  simpl in *. congruence.
Qed.

Lemma init_raw_data_miss mx i n j :
  shape !! "max" = Some mx →
  seqZ (i - mx) (mx + 1) !! n = Some j →
  records c !! key_of cfg j = None →
  Forall (λ j, is_Some (records c !! key_of cfg j))
         (take n (seqZ (i - mx) (mx + 1))) →
  (init_raw_data cfg c shape i).1 = Raise DataUnavailable
  ∧ requests (init_raw_data cfg c shape i).2
    = requests c ++ (key_of cfg <$> take (S n) (seqZ (i - mx) (mx + 1))).
Proof.
  intros Hmx Hj Hnone Hall. unfold init_raw_data, getitem. rewrite Hmx.
  set (inds := feat_group_inds shape).
  set (raw0 := foldr _ _ _).
  destruct (backfill_miss cfg inds (NoDup_feat_group_inds shape)
              (seqZ (i - mx) (mx + 1)) n raw0 None c) as [Hr Hreq].
  { intros k Hk. exists []. unfold raw0.
    etrans; [apply lookup_empty_buffers|]. by rewrite decide_True. }
  { by apply present_conforming. }
  { eauto. }
  destruct (backfill _ _ _ _ _ _) as [r c1]. simpl in *. by subst r.
Qed.
End store_conforms.

(** C9: [init_raw_data] requests the [raw_data_shape["max"] + 1]
    consecutive indices ending at [i], each once; it returns a window only
    when every one of them is in the store, and with a conforming store it
    then does return one, while a missing record makes it raise
    [DataUnavailable] at the first miss without any further request.
    [update_raw_data] requests the one index [i] and raises
    [DataUnavailable] when it is missing. *)
Theorem fetch_protocol cfg c shape mx i
    (Hmax : shape !! "max" = Some mx) (Hmx : 0 ≤ mx) :
  let js := seqZ (i - mx) (mx + 1) in
  let out := init_raw_data cfg c shape i in
  (Z.of_nat (length js) = mx + 1
   ∧ ∀ n, (Z.of_nat n ≤ mx) → js !! n = Some (i - mx + Z.of_nat n))
  ∧ (∀ rd, out.1 = Ok rd →
       Forall (λ j, is_Some (records c !! key_of cfg j)) js
       ∧ requests out.2 = requests c ++ (key_of cfg <$> js))
  ∧ (∀ widths,
       dom (delete "max" shape) ⊆ dom widths →
       map_Forall (λ _ b, conforms widths b) (records c) →
       (Forall (λ j, is_Some (records c !! key_of cfg j)) js →
          ∃ rd, out.1 = Ok rd)
       ∧ (Exists (λ j, records c !! key_of cfg j = None) js →
            out.1 = Raise DataUnavailable
            ∧ ∃ n j, js !! n = Some j
                     ∧ records c !! key_of cfg j = None
                     ∧ requests out.2
                       = requests c ++ (key_of cfg <$> take (S n) js)))
  ∧ (∀ rd,
       let out' := update_raw_data cfg c shape rd i in
       requests out'.2 = requests c ++ [key_of cfg i]
       ∧ (records c !! key_of cfg i = None → out'.1 = Raise DataUnavailable)
       ∧ (∀ rd', out'.1 = Ok rd' → is_Some (records c !! key_of cfg i))).
Proof.
  intros js out. split_and!.
  - by apply length_seqZ_range.
  - intros n Hn. apply lookup_seqZ. lia.
  - intros rd Hout. subst out.
    destruct (init_raw_data cfg c shape i) as [r c'] eqn:Hrun.
    simpl in Hout. subst r.
    apply init_raw_data_Ok_inv in Hrun
      as (mx' & bs & b & Hmx' & Hbs & Hreq & _).
    rewrite Hmax in Hmx'. injection Hmx' as <-. split; [|done].
    apply Forall_forall. intros j Hj.
    apply list_elem_of_lookup in Hj as [n Hj].
    destruct (Forall2_lookup_l _ _ _ _ _ Hbs Hj) as (b' & _ & Hb'). eauto.
  - intros widths Hwidths Hstore. split.
    + by apply (init_raw_data_Ok cfg c shape widths).
    + intros Hex.
      destruct (first_missing c cfg js Hex) as (n & j & Hj & Hnone & Hall).
      destruct (init_raw_data_miss cfg c shape widths Hwidths Hstore
                  mx i n j) as [Hr Hreq]; try done.
      split; [done|]. eauto.
  - intros rd out'. split_and!.
    + apply update_raw_data_requests.
    + apply update_raw_data_miss.
    + intros rd' Hout. subst out'.
      destruct (update_raw_data cfg c shape rd i) as [r c'] eqn:Hrun.
      simpl in Hout. subst r.
      apply update_raw_data_Ok_inv in Hrun as (b & Hb & _). eauto.
Qed.

Lemma window_length_invariant_witness :
  window_ok Scenario.raw_data_shape Scenario.window
  ∧ ∃ rd', (update_raw_data Scenario.cfg Scenario.store
             Scenario.raw_data_shape Scenario.window 10).1 = Ok rd'
           ∧ window_ok Scenario.raw_data_shape rd'.
Proof.
  assert (valid_shape Scenario.raw_data_shape) as Hshape by by_computation.
  destruct (window_length_invariant Scenario.cfg Scenario.store
              Scenario.raw_data_shape 10 Hshape) as [Hinit Hupdate].
  assert (window_ok Scenario.raw_data_shape Scenario.window) as Hwin.
  { apply (Hinit Scenario.window
             (init_raw_data Scenario.cfg Scenario.store
                Scenario.raw_data_shape 10).2).
    vm_compute. reflexivity. }
  split; [exact Hwin|].
  destruct (update_raw_data Scenario.cfg Scenario.store
              Scenario.raw_data_shape Scenario.window 10) as [[rd'|e] c']
    eqn:Hrun; [|vm_compute in Hrun; discriminate].
  exists rd'. split; [reflexivity|].
  exact (proj2 (Hupdate Scenario.window rd' c' Hwin Hrun)).
Defined.

Lemma init_zero_length_group :
  ∃ rd c',
    init_raw_data Scenario.cfg Scenario.store Scenario.empty_shape 10
    = (Ok rd, c')
    ∧ map_Forall (λ k n, k = "max" ∨ 0 ≤ n ≤ 0) Scenario.empty_shape
    ∧ Scenario.empty_shape !! "0" = Some 0
    ∧ length <$> rd_groups rd !! "0" = Some 1%nat
    ∧ ¬ window_ok Scenario.empty_shape rd.
Proof.
  eexists _, _. split; [vm_compute; reflexivity|].
  split_and!; by_computation.
Qed.

Lemma fetch_protocol_witness :
  (∃ rd, (init_raw_data Scenario.cfg Scenario.store
            Scenario.raw_data_shape 10).1 = Ok rd)
  ∧ (init_raw_data Scenario.cfg Scenario.store
       Scenario.raw_data_shape 11).1 = Raise DataUnavailable
  ∧ (update_raw_data Scenario.cfg Scenario.store
       Scenario.raw_data_shape Scenario.window 11).1 = Raise DataUnavailable.
Proof.
  assert (Scenario.raw_data_shape !! "max" = Some 10) as Hmax by reflexivity.
  assert (0 ≤ 10) as Hmx by lia.
  assert (dom (delete "max" Scenario.raw_data_shape) ⊆ dom Scenario.widths)
    as Hwidths by by_computation.
  assert (map_Forall (λ _ b, conforms Scenario.widths b)
            (records Scenario.store)) as Hstore by by_computation.
  split_and!.
  - destruct (fetch_protocol Scenario.cfg Scenario.store
                Scenario.raw_data_shape 10 10 Hmax Hmx)
      as (_ & _ & Hinit & _).
    apply (Hinit Scenario.widths Hwidths Hstore). by_computation.
  - destruct (fetch_protocol Scenario.cfg Scenario.store
                Scenario.raw_data_shape 10 11 Hmax Hmx)
      as (_ & _ & Hinit & _).
    apply (Hinit Scenario.widths Hwidths Hstore). by_computation.
  - destruct (fetch_protocol Scenario.cfg Scenario.store
                Scenario.raw_data_shape 10 11 Hmax Hmx)
      as (_ & _ & _ & Hupdate).
    apply (Hupdate Scenario.window). reflexivity.
Defined.

(** ** Views and strided slices *)

Lemma every_nth_drop {A} step c (l : list A) :
  every_nth step c l = slice_step step (drop c l).
Proof.
  revert c. induction l as [|x l IH]; intros [|c]; simpl; done.
Qed.

Lemma slice_step_tail {A} step (l : list A) : (step ≠ 0)%nat →
  slice_step step (drop step l) = drop 1 (slice_step step l).
Proof.
  intros Hstep. destruct l as [|x l]; [by rewrite drop_nil|].
  unfold slice_step at 2. simpl. rewrite every_nth_drop.
  destruct step as [|step]; [done|]. simpl. by rewrite Nat.sub_0_r.
Qed.

Lemma every_nth_write step c vals (l : list (list Q)) :
  length vals = length (every_nth step c l) →
  every_nth step c (write_every_nth step c vals l)
  = zip_with (λ x r, <[0%nat := x]> r) vals (every_nth step c l).
Proof.
  revert c vals. induction l as [|r l IH]; intros c vals Hlen; simpl in *.
  - by destruct vals.
  - destruct c as [|c]; [|by apply IH].
    destruct vals as [|x vals]; [done|]. simpl. f_equal. apply IH.
    simpl in Hlen. lia.
Qed.

Lemma view_rows_write v vals a :
  length vals = length (view_rows v a) →
  view_rows v (view_write_col0 v vals a)
  = zip_with (λ x r, <[0%nat := x]> r) vals (view_rows v a).
Proof.
  unfold view_rows, view_write_col0, slice_step. intros Hlen.
  destruct (decide (v_start v ≤ length a)%nat) as [Hle|Hgt].
  - rewrite drop_app_length'; [by apply every_nth_write|].
    rewrite length_take. lia.
  - rewrite (drop_ge a) in * by lia. simpl in *.
    destruct vals; [|done]. rewrite app_nil_r, drop_ge; [done|].
    rewrite length_take. lia.
Qed.

Lemma broadcast_to_length {A} n (vals vals' : list A) :
  broadcast_to n vals = Ok vals' → length vals' = n.
Proof.
  unfold broadcast_to. case_decide; [by intros [= <-]|].
  destruct vals as [|x [|??]]; try done. intros [= <-].
  apply length_replicate.
Qed.

Lemma py_init_fmap {A B} (f : A → B) (l : list A) :
  py_init (f <$> l) = f <$> py_init l.
Proof. unfold py_init. by rewrite length_fmap, fmap_take. Qed.

Lemma delta_series_code pip (col : list Q) final :
  (λ x, x / pip)%Q <$> py_init ((λ x, x - final)%Q <$> col)
  = py_init (delta_series pip col final).
Proof.
  unfold delta_series. rewrite !py_init_fmap, <-list_fmap_compose. done.
Qed.

Lemma list_getitem_Ok {V} (l : list V) i v :
  list_getitem l i = Ok v ↔ l !! i = Some v.
Proof. unfold list_getitem. destruct (l !! i); naive_solver. Qed.

(** ** The observation builder *)

Section get_obs_correct.
Context {TC : Type} (apply_transform : ndarray → TC → ndarray).
Context (config : agent_config TC).

Lemma treat_group_inv idx obs raw obs' raw' :
  treat_group apply_transform config idx (obs, raw) = Ok (obs', raw') →
  (∀ e, obs !! pretty idx = Some e →
        ∃ step, e = group_view (pretty idx) step ∧ step ≠ 0%nat) →
  ∃ step buf info tcs out vals,
    obs !! pretty idx = Some (group_view (pretty idx) step)
    ∧ step ≠ 0%nat
    ∧ raw !! pretty idx = Some buf
    ∧ group_config config idx info tcs
    ∧ treated apply_transform (pip info) tcs (slice_step step buf) = Ok out
    ∧ out = zip_with (λ x r, <[0%nat := x]> r) vals
              (drop 1 (slice_step step buf))
    ∧ length vals = length (drop 1 (slice_step step buf))
    ∧ obs' = <[pretty idx := Owned out]> obs
    ∧ raw' = <[pretty idx :=
                 view_write_col0 (tail_view (pretty idx) step) vals buf]> raw.
Proof.
  intros Hrun Hview. unfold treat_group in Hrun.
  apply bind_Ok_inv in Hrun as (fg & Hfg%list_getitem_Ok & Hrun).
  apply bind_Ok_inv in Hrun as (fc & Hfc%list_getitem_Ok & Hrun).
  apply bind_Ok_inv in Hrun as (e & He%getitem_Ok & Hrun).
  destruct (Hview e He) as (step & -> & Hstep).
  apply bind_Ok_inv in Hrun as (ds & Hds & Hrun).
  simpl in Hds. apply bind_Ok_inv in Hds as (buf & Hbuf & [= <-]).
  pose proof Hbuf as Hbuf'%getitem_Ok.
  apply bind_Ok_inv in Hrun as (col & Hcol & Hrun).
  apply bind_Ok_inv in Hrun as (final & Hfinal & Hrun).
  apply bind_Ok_inv in Hrun as (si & Hsi%getitem_Ok & Hrun).
  apply bind_Ok_inv in Hrun as (info & Hinfo%list_getitem_Ok & Hrun).
  apply bind_Ok_inv in Hrun as (vals & Hvals & Hrun).
  apply bind_Ok_inv in Hrun as ([e1 raw1] & Hassign & Hrun).
  apply bind_Ok_inv in Hrun as (out & Hout & [= <- <-]).
  simpl in Hassign. rewrite Hbuf in Hassign. simpl in Hassign.
  apply bind_Ok_inv in Hassign as (vals' & Hbc & [= <- <-]).
  simpl in Hout. unfold getitem in Hout. rewrite lookup_insert_eq in Hout.
  simpl in Hout. injection Hout as <-.
  unfold view_rows in Hcol, Hbc. simpl in Hcol, Hbc.
  rewrite drop_0 in Hcol.
  rewrite slice_step_tail in Hbc by done.
  pose proof (broadcast_to_length _ _ _ Hbc) as Hlen.
  assert (view_rows (tail_view (pretty idx) step) buf
          = drop 1 (slice_step step buf)) as Hrows.
  { unfold view_rows. simpl. by apply slice_step_tail. }
  exists step, buf, info, (transforms fc),
    (zip_with (λ x r, <[0%nat := x]> r) vals'
       (drop 1 (slice_step step buf))), vals'.
  split_and!; try done.
  - exists fg, fc, si. done.
  - unfold treated. rewrite Hcol. simpl. rewrite Hfinal. simpl.
    rewrite delta_series_code in Hvals. rewrite Hvals. simpl.
    rewrite Hbc. done.
  - simpl. do 2 f_equal.
    fold (tail_view (pretty idx) step).
    rewrite view_rows_write; rewrite Hrows; done.
Qed.

Lemma treat_loop_inv idxs : NoDup idxs → ∀ obs raw obs' raw',
  for_each (treat_group apply_transform config) idxs (obs, raw)
  = Ok (obs', raw') →
  (∀ idx e, idx ∈ idxs → obs !! pretty idx = Some e →
            ∃ step, e = group_view (pretty idx) step ∧ step ≠ 0%nat) →
  (∀ idx, idx ∈ idxs →
     ∃ step buf info tcs out vals,
       obs !! pretty idx = Some (group_view (pretty idx) step)
       ∧ step ≠ 0%nat
       ∧ raw !! pretty idx = Some buf
       ∧ group_config config idx info tcs
       ∧ treated apply_transform (pip info) tcs (slice_step step buf)
         = Ok out
       ∧ out = zip_with (λ x r, <[0%nat := x]> r) vals
                 (drop 1 (slice_step step buf))
       ∧ length vals = length (drop 1 (slice_step step buf))
       ∧ obs' !! pretty idx = Some (Owned out)
       ∧ raw' !! pretty idx
         = Some (view_write_col0 (tail_view (pretty idx) step) vals buf))
  ∧ (∀ k, (∀ idx, idx ∈ idxs → k ≠ pretty idx) →
          obs' !! k = obs !! k ∧ raw' !! k = raw !! k).
Proof.
  induction 1 as [|idx0 idxs Hnotin Hnd IH];
    intros obs raw obs' raw' Hrun Hviews.
  - injection Hrun as <- <-. split; [|done]. intros idx Hin. inversion Hin.
  - simpl in Hrun.
    apply bind_Ok_inv in Hrun as ([obs1 raw1] & Hstep & Hrun).
    destruct (treat_group_inv _ _ _ _ _ Hstep)
      as (step & buf & info & tcs & out & vals & Hobs & Hstep0 & Hbuf
          & Hcfg & Htreated & Hout & Hlen & -> & ->).
    { intros e He. apply (Hviews idx0 e); [left|done]. }
    assert (∀ idx, idx ∈ idxs → pretty idx ≠ (pretty idx0 : string))
      as Hfresh.
    { intros idx Hin Heq%(inj pretty). by subst. }
    destruct (IH _ _ _ _ Hrun) as [IHin IHout].
    { intros idx e Hin He. rewrite lookup_insert_ne in He
        by (symmetry; auto). apply (Hviews idx e); [by right|done]. }
    split.
    + intros idx [->|Hin]%elem_of_cons.
      * destruct (IHout (pretty idx0)) as [Ho Hr];
          [intros idx Hin; symmetry; auto|].
        exists step, buf, info, tcs, out, vals.
        rewrite Ho, Hr, !lookup_insert_eq. done.
      * destruct (IHin idx Hin)
          as (step' & buf' & info' & tcs' & out' & vals' & Ho' & ? & Hb'
              & ? & ? & ? & ? & ? & ?).
        rewrite lookup_insert_ne in Ho' by (symmetry; auto).
        rewrite lookup_insert_ne in Hb' by (symmetry; auto).
        exists step', buf', info', tcs', out', vals'. done.
    + intros k Hk. destruct (IHout k) as [-> ->].
      { intros idx Hin. apply Hk. by right. }
      rewrite !lookup_insert_ne; [done | |];
        symmetry; apply Hk; left.
Qed.

Lemma downsample_loop_inv (obs_interval : gmap string nat) inds
    (raw : gmap string ndarray) : ∀ acc obs : gmap string obs_entry,
  for_each (λ k obs,
    _ ← getitem raw k;
    step ← getitem obs_interval k;
    if decide (step = 0%nat) then Raise ValueError
    else Ok (<[k := group_view k step]> obs)) inds acc = Ok obs →
  ∀ k e, obs !! k = Some e →
    acc !! k = Some e
    ∨ ∃ step, e = group_view k step ∧ step ≠ 0%nat
              ∧ obs_interval !! k = Some step ∧ is_Some (raw !! k).
Proof.
  induction inds as [|k0 inds IH]; intros acc obs Hrun k e He;
    simpl in Hrun.
  - injection Hrun as <-. by left.
  - apply bind_Ok_inv in Hrun as (acc1 & Hbody & Hrun).
    apply bind_Ok_inv in Hbody as (buf & Hbuf%getitem_Ok & Hbody).
    apply bind_Ok_inv in Hbody as (step & Hs%getitem_Ok & Hbody).
    case_decide as Hz; [done|]. injection Hbody as <-.
    destruct (IH _ _ Hrun k e He) as [Hacc|?]; [|by right].
    destruct (decide (k0 = k)) as [->|Hne].
    + rewrite lookup_insert_eq in Hacc. injection Hacc as <-.
      right. exists step. eauto.
    + rewrite lookup_insert_ne in Hacc by done. by left.
Qed.

Lemma get_obs_group obs_interval rd obs rd' idx :
  get_obs apply_transform config obs_interval rd = Ok (obs, rd') →
  (idx < size obs_interval)%nat →
  ∃ step buf info tcs out vals,
    obs_interval !! pretty idx = Some step
    ∧ step ≠ 0%nat
    ∧ rd_groups rd !! pretty idx = Some buf
    ∧ group_config config idx info tcs
    ∧ treated apply_transform (pip info) tcs (slice_step step buf) = Ok out
    ∧ out = zip_with (λ x r, <[0%nat := x]> r) vals
              (drop 1 (slice_step step buf))
    ∧ length vals = length (drop 1 (slice_step step buf))
    ∧ o_groups obs !! pretty idx = Some (Owned out)
    ∧ rd_groups rd' !! pretty idx
      = Some (view_write_col0 (tail_view (pretty idx) step) vals buf).
Proof.
  unfold get_obs. intros Hrun Hidx.
  apply bind_Ok_inv in Hrun as (obs0 & Hdown & Hrun).
  apply bind_Ok_inv in Hrun as ([obs1 raw1] & Hloop & [= <- <-]).
  assert (∀ k e, obs0 !! k = Some e →
            ∃ step, e = group_view k step ∧ step ≠ 0%nat
                    ∧ obs_interval !! k = Some step
                    ∧ is_Some (rd_groups rd !! k)) as Hviews.
  { intros k e He.
    destruct (downsample_loop_inv _ _ _ _ _ Hdown k e He) as [Hacc|?];
      [|done]. by rewrite lookup_empty in Hacc. }
  destruct (treat_loop_inv _ (NoDup_seq 0 _) _ _ _ _ Hloop) as [Hin _].
  { intros i e _ He. destruct (Hviews _ _ He) as (step & ? & ? & _). eauto. }
  destruct (Hin idx)
    as (step & buf & info & tcs & out & vals & Ho & ? & ? & ? & ? & ? & ?
        & ? & ?).
  { apply elem_of_seq. split; [lia|]. simpl.
    rewrite <-size_dom in Hidx. exact Hidx. }
  destruct (Hviews _ _ Ho) as (step' & [= <-] & _ & Hstep & _).
  exists step, buf, info, tcs, out, vals. done.
Qed.

Lemma get_obs_side_channels obs_interval rd obs rd' :
  get_obs apply_transform config obs_interval rd = Ok (obs, rd') →
  o_date_arr obs = rd_date_arr rd
  ∧ (rd_date rd', rd_trade_price rd', rd_date_arr rd')
    = (rd_date rd, rd_trade_price rd, rd_date_arr rd).
Proof.
  unfold get_obs. intros Hrun.
  apply bind_Ok_inv in Hrun as (obs0 & _ & Hrun).
  apply bind_Ok_inv in Hrun as ([obs1 raw1] & _ & [= <- <-]). done.
Qed.
End get_obs_correct.

Lemma treated_other_channels {TC} (apply_transform : ndarray → TC → ndarray)
    pip tcs ds out :
  treated apply_transform pip tcs ds = Ok out →
  drop 1 <$> out = drop 1 <$> drop 1 ds.
Proof.
  unfold treated. intros Hrun.
  apply bind_Ok_inv in Hrun as (col & _ & Hrun).
  apply bind_Ok_inv in Hrun as (final & _ & Hrun).
  apply bind_Ok_inv in Hrun as (vals & _ & Hrun).
  apply bind_Ok_inv in Hrun as (vals' & Hlen%broadcast_to_length & [= <-]).
  revert vals' Hlen. generalize (drop 1 ds). intros rows.
  induction rows as [|r rows IH]; intros [|x vals'] Hlen; simpl in *;
    try done.
  f_equal; [by destruct r | apply IH; lia].
Qed.

Lemma pretty_nat_0 : pretty 0%nat = "0".
Proof. reflexivity. Qed.

(** C2 (as amended): for group 0, channel 0, [get_obs] downsamples by the
    stride, subtracts the final downsampled value, divides by the symbol's
    pip, drops the final point, applies the transform chain in order and
    writes the result into channel 0 of the downsampled array without its
    first row.  In the scenario (shape 10, stride 1, ticks 100.0 to 101.0,
    pip 0.0001, no transform stage) the downsampled length is 10, the delta
    series is zero at the last pre-drop point, it is
    (100.1 - 101.0) / 0.0001 = -9000 at the first retained point and
    (100.9 - 101.0) / 0.0001 = -1000 at the last retained point. *)
Theorem get_obs_primary_feature :
  (∀ TC (apply_transform : ndarray → TC → ndarray) config obs_interval
     rd obs rd',
     get_obs apply_transform config obs_interval rd = Ok (obs, rd') →
     (0 < size obs_interval)%nat →
     ∃ step buf info tcs out,
       obs_interval !! "0" = Some step
       ∧ rd_groups rd !! "0" = Some buf
       ∧ group_config config 0 info tcs
       ∧ treated apply_transform (pip info) tcs (slice_step step buf) = Ok out
       ∧ o_groups obs !! "0" = Some (Owned out))
  ∧ (let ds := slice_step 1 ((λ n, [(1000 + Z.of_nat n) # 10]) <$> seq 1 10) in
     let col := (λ n, (1000 + Z.of_nat n) # 10) <$> seq 1 10 in
     let deltas := delta_series 0.0001 col 101.0 in
     (init_raw_data Scenario.cfg Scenario.store Scenario.raw_data_shape 10).1
     = Ok Scenario.window
     ∧ rd_groups Scenario.window !! "0" = Some ds
     ∧ get_col 0 ds = Ok col
     ∧ length ds = 10%nat
     ∧ py_last col = Ok 101.0%Q
     ∧ Forall2 Qeq (drop 9 deltas) [0%Q]
     ∧ Forall2 Qeq (take 1 deltas) [((100.1 - 101.0) / 0.0001)%Q]
     ∧ Forall2 Qeq (py_init deltas)
         [-9000; -8000; -7000; -6000; -5000; -4000; -3000; -2000; -1000]%Q
     ∧ ∃ out,
         obs_group (get_obs Scenario.no_transform Scenario.config
                      Scenario.obs_interval Scenario.window) "0"
         = Some (Owned out)
         ∧ out = (λ x, [x]) <$> py_init deltas).
Proof.
  split.
  - intros TC apply_transform config obs_interval rd obs rd' Hrun Hsize.
    destruct (get_obs_group _ _ _ _ _ _ 0%nat Hrun Hsize)
      as (step & buf & info & tcs & out & vals & ? & _ & ? & ? & ? & _ & _
          & ? & _).
    exists step, buf, info, tcs, out. done.
  - cbv zeta. split_and!; try (vm_compute; reflexivity); try qeq_list.
    eexists. split; vm_compute; reflexivity.
Qed.

Lemma get_obs_primary_feature_witness :
  ∃ out,
    treated Scenario.no_transform 0.0001 []
      (slice_step 1 ((λ n, [(1000 + Z.of_nat n) # 10]) <$> seq 1 10))
    = Ok out
    ∧ obs_group (get_obs Scenario.no_transform Scenario.config
                   Scenario.obs_interval Scenario.window) "0"
      = Some (Owned out).
Proof.
  destruct (get_obs Scenario.no_transform Scenario.config
              Scenario.obs_interval Scenario.window) as [[obs rd']|e]
    eqn:Hrun; [|vm_compute in Hrun; discriminate].
  destruct (proj1 get_obs_primary_feature unit Scenario.no_transform
              Scenario.config Scenario.obs_interval Scenario.window obs rd'
              Hrun)
    as (step & buf & info & tcs & out & Hstep & Hbuf & Hcfg & Htreated
        & Hobs).
  { vm_compute. lia. }
  injection Hstep as <-. injection Hbuf as <-.
  destruct Hcfg as (fg & fc & si & Hfg & Hfc & Hsi & Hinfo & ->).
  injection Hfg as <-. injection Hfc as <-. injection Hsi as <-.
  injection Hinfo as <-.
  exists out. split; [exact Htreated | exact Hobs].
Defined.

(** The value at the first retained point in the scenario is not the one
    the claim C2 gives. *)
Lemma first_retained_point_value :
  ∃ x rest,
    obs_group (get_obs Scenario.no_transform Scenario.config
                 Scenario.obs_interval Scenario.window) "0"
    = Some (Owned ([x] :: rest))
    ∧ (x == -9000)%Q
    ∧ ¬ (x == - (100.9 - 101.0) / 0.0001)%Q.
Proof.
  eexists _, _. split; [vm_compute; reflexivity|].
  split; [vm_compute; reflexivity|]. vm_compute. discriminate.
Qed.

(** C3: evaluated on the scenario's window, [get_obs] leaves the side
    channels alone but overwrites channel 0 of the group buffer from its
    second row on with the delta series: the window is not what it was. *)
Theorem get_obs_mutates_window :
  ∃ rd' buf',
    window_after (get_obs Scenario.no_transform Scenario.config
                    Scenario.obs_interval Scenario.window) = Some rd'
    ∧ rd_groups Scenario.window !! "0"
      = Some ((λ n, [(1000 + Z.of_nat n) # 10]) <$> seq 1 10)
    ∧ rd_groups rd' !! "0" = Some buf'
    ∧ Forall2 (Forall2 Qeq) buf'
        [[100.1]; [-9000]; [-8000]; [-7000]; [-6000]; [-5000]; [-4000];
         [-3000]; [-2000]; [-1000]]%Q
    ∧ rd_groups rd' ≠ rd_groups Scenario.window.
Proof.
  eexists _, _. split_and!; try (vm_compute; reflexivity).
  - repeat first [ apply Forall2_nil_2 | apply Forall2_cons_2; [qeq_list|] ].
  - intros Heq. apply (f_equal (λ m, m !! "0")) in Heq.
    vm_compute in Heq. discriminate.
Qed.

(** C4 (as amended): the delta, pip and transform treatment is applied to
    the first channel of every feature group, each with its own stride,
    pip and transform chain; the channels after the first pass through
    downsampling only, without the first downsampled row. *)
Theorem get_obs_every_group {TC} (apply_transform : ndarray → TC → ndarray)
    config obs_interval rd obs rd' idx :
  get_obs apply_transform config obs_interval rd = Ok (obs, rd') →
  (idx < size obs_interval)%nat →
  ∃ step buf info tcs out,
    obs_interval !! pretty idx = Some step
    ∧ rd_groups rd !! pretty idx = Some buf
    ∧ group_config config idx info tcs
    ∧ treated apply_transform (pip info) tcs (slice_step step buf) = Ok out
    ∧ o_groups obs !! pretty idx = Some (Owned out)
    ∧ drop 1 <$> out = drop 1 <$> drop 1 (slice_step step buf).
Proof.
  intros Hrun Hidx.
  destruct (get_obs_group _ _ _ _ _ _ idx Hrun Hidx)
    as (step & buf & info & tcs & out & vals & ? & _ & ? & ? & Htreated & _
        & _ & ? & _).
  exists step, buf, info, tcs, out. split_and!; try done.
  by apply treated_other_channels in Htreated.
Qed.

Lemma get_obs_every_group_witness :
  ∃ out,
    obs_group (get_obs Scenario.no_transform Scenario.config2
                 Scenario.obs_interval2 Scenario.window2) "1"
    = Some (Owned out)
    ∧ drop 1 <$> out = [[3]; [5]]%Q.
Proof.
  destruct (get_obs Scenario.no_transform Scenario.config2
              Scenario.obs_interval2 Scenario.window2) as [[obs rd']|e]
    eqn:Hrun; [|vm_compute in Hrun; discriminate].
  destruct (get_obs_every_group Scenario.no_transform Scenario.config2
              Scenario.obs_interval2 Scenario.window2 obs rd' 1 Hrun)
    as (step & buf & info & tcs & out & Hstep & Hbuf & _ & _ & Hobs & Hrest).
  { vm_compute. lia. }
  injection Hstep as <-. injection Hbuf as <-.
  exists out. split; [exact Hobs | exact Hrest].
Defined.

(** Group 1 of a two-group window does not come out as its downsampled
    buffer: its first row is gone and its channel 0 holds pip deltas. *)
Lemma second_group_is_treated :
  ∃ buf out,
    rd_groups Scenario.window2 !! "1" = Some buf
    ∧ slice_step 2 buf = [[100.0; 1]; [100.2; 3]; [100.4; 5]]%Q
    ∧ obs_group (get_obs Scenario.no_transform Scenario.config2
                   Scenario.obs_interval2 Scenario.window2) "1"
      = Some (Owned out)
    ∧ Forall2 (Forall2 Qeq) out [[-4000; 3]; [-2000; 5]]%Q
    ∧ out ≠ slice_step 2 buf.
Proof.
  eexists _, _. split_and!; try (vm_compute; reflexivity).
  - repeat first [ apply Forall2_nil_2 | apply Forall2_cons_2; [qeq_list|] ].
  - intros Heq. apply (f_equal length) in Heq. vm_compute in Heq.
    discriminate.
Qed.

(** ** Price sampling *)

(** A concrete pair is drawable, by evaluation. *)
Ltac drawable_now :=
  split;
  [ vm_compute; reflexivity
  | eexists _, _; split_and!;
    [ vm_compute; reflexivity .. | vm_compute; discriminate ] ].

Lemma randint_low_spec : randint_spec randint_low.
Proof.
  intros low high g Hlt. exists low, g. unfold randint_low.
  rewrite decide_True by done. split; [done|lia].
Qed.

Lemma drawable_pairs_cons pip low high rest :
  drawable_pairs pip (low :: high :: rest)
  ↔ drawable pip low high ∧ drawable_pairs pip rest.
Proof. done. Qed.

Lemma drawable_pairs_drop pip k : ∀ price,
  drawable_pairs pip price → drawable_pairs pip (drop (k * 2) price).
Proof.
  induction k as [|k IH]; intros price Hall; [done|].
  destruct price as [|low [|high rest]]; try done.
  apply (IH rest). by destruct Hall.
Qed.

Section sampling_correct.
Context {rng : Type} (randint : Z → Z → rng → result (Z * rng)).

Lemma sample_price_zero_pip min_p max_p pip g :
  PrimFloat.eqb pip PrimFloat.zero = true →
  sample_price randint min_p max_p pip g = Raise ZeroDivisionError.
Proof. intros Hpip. unfold sample_price. by rewrite Hpip. Qed.

Lemma sample_price_Ok min_p max_p pip g :
  randint_spec randint → drawable pip min_p max_p →
  ∃ x g', sample_price randint min_p max_p pip g = Ok (x, g').
Proof.
  intros Hrand (Hpip & lo & hi & Hlo & Hhi & Hle).
  unfold sample_price. unfold pip_tenths in Hlo, Hhi.
  rewrite Hpip, Hlo, Hhi. simpl.
  destruct (Hrand lo (hi + 1) g ltac:(lia)) as (n & g' & -> & _).
  simpl. eauto.
Qed.

(** The degenerate range: whatever the generator, the draw is the
    truncated quotient. *)
Lemma sample_price_degenerate p pip g k :
  randint_spec randint →
  PrimFloat.eqb pip PrimFloat.zero = false →
  py_int (pip_tenths pip p) = Ok k →
  ∃ g', sample_price randint p p pip g
        = Ok (PrimFloat.div (PrimFloat.mul (float_of_int k) pip)
                (float_of_int 10), g').
Proof.
  intros Hrand Hpip Hk. unfold sample_price. unfold pip_tenths in Hk.
  rewrite Hpip, Hk. simpl.
  destruct (Hrand k (k + 1) g ltac:(lia)) as (n & g' & -> & Hn).
  simpl. assert (n = k) as -> by lia. eauto.
Qed.
End sampling_correct.

(** C5: the code does not keep the sample between [min_p] and [max_p].
    With [min_p = max_p = p], whatever [randint] draws from its one-point
    range, the result is below [p]: for [p = 15000.25] and a pip of 1.0,
    where the price lies between two points of the pip/10 grid and the
    truncation by [int] drops it to the point below; and for [p = 1.07123]
    and a pip of 0.0001, where the price is on the grid but the binary64
    quotient [p * 10 / pip] falls just under 107123. *)
Theorem sample_price_below_min {rng}
    (randint : Z → Z → rng → result (Z * rng)) (g : rng) :
  randint_spec randint →
  (∃ x g',
     sample_price randint (float_of_decimal 15000.25)
       (float_of_decimal 15000.25) (float_of_decimal 1.0) g = Ok (x, g')
     ∧ x = PrimFloat.div (float_of_int 150002) (float_of_int 10)
     ∧ PrimFloat.ltb x (float_of_decimal 15000.25) = true)
  ∧ (∃ x g',
       sample_price randint (float_of_decimal 1.07123)
         (float_of_decimal 1.07123) (float_of_decimal 0.0001) g = Ok (x, g')
       ∧ py_int (pip_tenths (float_of_decimal 0.0001)
                   (float_of_decimal 1.07123)) = Ok 107122
       ∧ PrimFloat.ltb x (float_of_decimal 1.07123) = true).
Proof.
  intros Hrand. split.
  - destruct (sample_price_degenerate randint (float_of_decimal 15000.25)
                (float_of_decimal 1.0) g 150002 Hrand) as [g' Hrun];
      [vm_compute; reflexivity..|].
    eexists _, g'. split; [exact Hrun|]. split; vm_compute; reflexivity.
  - destruct (sample_price_degenerate randint (float_of_decimal 1.07123)
                (float_of_decimal 0.0001) g 107122 Hrand) as [g' Hrun];
      [vm_compute; reflexivity..|].
    eexists _, g'. split; [exact Hrun|]. split; vm_compute; reflexivity.
Qed.

Lemma sample_price_below_min_witness :
  ∃ x g',
    sample_price randint_low (float_of_decimal 15000.25)
      (float_of_decimal 15000.25) (float_of_decimal 1.0) tt = Ok (x, g')
    ∧ PrimFloat.ltb x (float_of_decimal 15000.25) = true.
Proof.
  destruct (proj1 (sample_price_below_min randint_low tt randint_low_spec))
    as (x & g' & Hrun & _ & Hlt).
  exists x, g'. split; [exact Hrun|exact Hlt].
Defined.

Section get_curr_price_correct.
Context {rng : Type} (randint : Z → Z → rng → result (Z * rng)).
Context (symbol_info : list SymbolSpec) (info0 : SymbolSpec).
Hypothesis Hinfo0 : symbol_info !! 0%nat = Some info0.

Lemma price_symbol_step price a done rest_rows g
    bid_low bid_high ask_low ask_high rest :
  length done = a →
  drop (a * 4) price = bid_low :: bid_high :: ask_low :: ask_high :: rest →
  price_symbol randint symbol_info price a
    (done ++ [PrimFloat.zero; PrimFloat.zero] :: rest_rows, g)
  = '(bid, g) ← sample_price randint bid_low bid_high
                  (float_of_decimal (pip info0)) g;
    '(ask, g) ← sample_price randint ask_low ask_high
                  (float_of_decimal (pip info0)) g;
    Ok (done ++ [float32 bid; float32 ask] :: rest_rows, g).
Proof.
  intros Hlen Hdrop. unfold price_symbol, list_getitem.
  rewrite Hinfo0. simpl.
  assert (∀ i, price !! (a * 4 + i)%nat
               = (bid_low :: bid_high :: ask_low :: ask_high :: rest) !! i)
    as Hlookup by (intros i; by rewrite <-Hdrop, lookup_drop).
  pose proof (Hlookup 0%nat) as H0. rewrite Nat.add_0_r in H0.
  rewrite H0, (Hlookup 1%nat), (Hlookup 2%nat), (Hlookup 3%nat). simpl.
  destruct (sample_price randint bid_low bid_high _ g)
    as [[bid g1]|e]; simpl; [|done].
  destruct (sample_price randint ask_low ask_high _ g1)
    as [[ask g2]|e]; simpl; [|done].
  rewrite <-Hlen.
  rewrite !alter_app_r_alt by lia. rewrite Nat.sub_diag. simpl. done.
Qed.

Lemma price_symbol_short price a rows g :
  (a * 4 ≤ length price < a * 4 + 4)%nat →
  ∃ e, price_symbol randint symbol_info price a (rows, g) = Raise e
       ∧ (randint_spec randint →
          drawable_pairs (float_of_decimal (pip info0)) price →
          e = IndexError).
Proof.
  intros Hlen. unfold price_symbol, list_getitem. rewrite Hinfo0. simpl.
  assert (∀ i, price !! (a * 4 + i)%nat = drop (a * 4) price !! i)
    as Hlookup by (intros i; by rewrite lookup_drop).
  pose proof (Hlookup 0%nat) as H0. rewrite Nat.add_0_r in H0.
  rewrite H0, (Hlookup 1%nat), (Hlookup 2%nat), (Hlookup 3%nat).
  assert (length (drop (a * 4) price) < 4)%nat as Hshort
    by (rewrite length_drop; lia).
  assert (drawable_pairs (float_of_decimal (pip info0)) price →
          drawable_pairs (float_of_decimal (pip info0))
            (drop (a * 4) price)) as Hdrop.
  { replace (a * 4)%nat with ((a * 2) * 2)%nat by lia.
    apply drawable_pairs_drop. }
  destruct (drop (a * 4) price) as [|bl [|bh [|al [|ah rest]]]];
    simpl in *; try lia; try (by eexists).
  - destruct (sample_price randint bl bh _ g) as [[bid g1]|e] eqn:Hbid;
      simpl; [by eexists|].
    exists e. split; [done|]. intros Hrand [Hpair _]%Hdrop.
    destruct (sample_price_Ok randint bl bh _ g Hrand Hpair)
      as (x & g' & Hok). congruence.
  - destruct (sample_price randint bl bh _ g) as [[bid g1]|e] eqn:Hbid;
      simpl; [by eexists|].
    exists e. split; [done|]. intros Hrand [Hpair _]%Hdrop.
    destruct (sample_price_Ok randint bl bh _ g Hrand Hpair)
      as (x & g' & Hok). congruence.
Qed.

Lemma price_loop k : ∀ price a done g,
  length done = a →
  (a * 4 + k * 4 ≤ length price)%nat →
  for_each (price_symbol randint symbol_info price) (seq a k)
    (done ++ replicate k [PrimFloat.zero; PrimFloat.zero], g)
  = '(rows, g) ← sample_rows randint (float_of_decimal (pip info0))
                   (take (k * 4) (drop (a * 4) price)) g;
    Ok (done ++ rows, g).
Proof.
  induction k as [|k IH]; intros price a done g Hlen Hprice.
  - simpl. by rewrite app_nil_r.
  - destruct (drop (a * 4) price)
      as [|bid_low [|bid_high [|ask_low [|ask_high rest]]]] eqn:Hdrop;
      try (apply (f_equal length) in Hdrop; rewrite length_drop in Hdrop;
           simpl in Hdrop; lia).
    cbn [seq replicate for_each].
    rewrite (price_symbol_step price a done _ g _ _ _ _ _ Hlen Hdrop).
    change (S k * 4)%nat with (4 + k * 4)%nat. cbn [take sample_rows Nat.add].
    destruct (sample_price randint bid_low bid_high _ g)
      as [[bid g1]|e]; simpl; [|done].
    destruct (sample_price randint ask_low ask_high _ g1)
      as [[ask g2]|e]; simpl; [|done].
    rewrite (cons_middle [float32 bid; float32 ask] done), app_assoc.
    rewrite IH; [| rewrite length_app; simpl; lia | lia].
    assert (drop (S a * 4) price = rest) as ->.
    { change (S a * 4)%nat with (4 + a * 4)%nat.
      rewrite Nat.add_comm, <-drop_drop, Hdrop. done. }
    destruct (sample_rows randint _ (take (k * 4) rest) g2)
      as [[rows g3]|e]; simpl; [|done]. by rewrite <-app_assoc.
Qed.

Lemma price_loop_short price k : ∀ a done g,
  length done = a →
  (a * 4 ≤ length price < (a + k) * 4)%nat →
  ∃ e, for_each (price_symbol randint symbol_info price) (seq a k)
         (done ++ replicate k [PrimFloat.zero; PrimFloat.zero], g) = Raise e
       ∧ (randint_spec randint →
          drawable_pairs (float_of_decimal (pip info0)) price →
          e = IndexError).
Proof.
  induction k as [|k IH]; intros a done g Hdone Hlen; [lia|].
  cbn [seq replicate for_each].
  destruct (decide (a * 4 + 4 ≤ length price)%nat) as [Hfull|Hshort].
  - destruct (drop (a * 4) price)
      as [|bl [|bh [|al [|ah rest]]]] eqn:Hdrop;
      try (apply (f_equal length) in Hdrop; rewrite length_drop in Hdrop;
           simpl in Hdrop; lia).
    rewrite (price_symbol_step price a done _ g _ _ _ _ _ Hdone Hdrop).
    assert (drawable_pairs (float_of_decimal (pip info0)) price →
            drawable (float_of_decimal (pip info0)) bl bh
            ∧ drawable (float_of_decimal (pip info0)) al ah) as Hsub.
    { intros Hall.
      apply (drawable_pairs_drop _ (a * 2)) in Hall.
      replace (a * 2 * 2)%nat with (a * 4)%nat in Hall by lia.
      rewrite Hdrop in Hall. simpl in Hall. tauto. }
    destruct (sample_price randint bl bh _ g) as [[bid g1]|e] eqn:Hbid;
      simpl.
    + destruct (sample_price randint al ah _ g1) as [[ask g2]|e] eqn:Hask;
        simpl.
      * rewrite (cons_middle _ done), app_assoc.
        apply IH; [rewrite length_app; simpl; lia | lia].
      * exists e. split; [done|]. intros Hrand [_ Hpair]%Hsub.
        destruct (sample_price_Ok randint al ah _ g1 Hrand Hpair)
          as (x & g' & Hok). congruence.
    + exists e. split; [done|]. intros Hrand [Hpair _]%Hsub.
      destruct (sample_price_Ok randint bl bh _ g Hrand Hpair)
        as (x & g' & Hok). congruence.
  - destruct (price_symbol_short price a
                (done ++ [PrimFloat.zero; PrimFloat.zero]
                      :: replicate k [PrimFloat.zero; PrimFloat.zero]) g)
      as (e & -> & He); [lia|].
    exists e. done.
Qed.

Lemma get_curr_price_rows_eq price g :
  (length symbol_info * 4 ≤ length price)%nat →
  get_curr_price randint symbol_info price g
  = sample_rows randint (float_of_decimal (pip info0))
      (take (length symbol_info * 4) price) g.
Proof.
  intros Hlen. unfold get_curr_price.
  pose proof (price_loop (length symbol_info) price 0%nat [] g) as Hloop.
  simpl in Hloop. rewrite Hloop by done. rewrite drop_0.
  by destruct (sample_rows _ _ _ _) as [[rows g']|e].
Qed.
End get_curr_price_correct.

Lemma sample_rows_lookup {rng} (randint : Z → Z → rng → result (Z * rng))
    pip i :
  ∀ price g rows g' r,
    sample_rows randint pip price g = Ok (rows, g') →
    rows !! i = Some r →
    ∃ bid_low bid_high ask_low ask_high g1 bid g2 ask g3,
      price !! (i * 4)%nat = Some bid_low
      ∧ price !! (i * 4 + 1)%nat = Some bid_high
      ∧ price !! (i * 4 + 2)%nat = Some ask_low
      ∧ price !! (i * 4 + 3)%nat = Some ask_high
      ∧ sample_price randint bid_low bid_high pip g1 = Ok (bid, g2)
      ∧ sample_price randint ask_low ask_high pip g2 = Ok (ask, g3)
      ∧ r = [float32 bid; float32 ask].
Proof.
  induction i as [|i IH]; intros price g rows g' r Hrun Hr;
    destruct price as [|bid_low [|bid_high [|ask_low [|ask_high rest]]]];
    try (injection Hrun as <- <-; done); cbn [sample_rows] in Hrun;
    apply bind_Ok_inv in Hrun as ([bid g1] & Hbid & Hrun);
    apply bind_Ok_inv in Hrun as ([ask g2] & Hask & Hrun);
    apply bind_Ok_inv in Hrun as ([rows' g3] & Hrows & [= <- <-]);
    simpl in Hr.
  - injection Hr as <-.
    by exists bid_low, bid_high, ask_low, ask_high, g, bid, g1, ask, g2.
  - destruct (IH rest g2 rows' g3 r Hrows Hr)
      as (bl & bh & al & ah & ga & b & gb & a & gc & ? & ? & ? & ? & ?).
    by exists bl, bh, al, ah, ga, b, gb, a, gc.
Qed.

Lemma length_sample_rows {rng} (randint : Z → Z → rng → result (Z * rng))
    pip n :
  ∀ price g rows g',
    length price = (n * 4)%nat →
    sample_rows randint pip price g = Ok (rows, g') →
    length rows = n.
Proof.
  induction n as [|n IH]; intros price g rows g' Hlen Hrun;
    destruct price as [|bid_low [|bid_high [|ask_low [|ask_high rest]]]];
    try done; cbn [sample_rows] in Hrun.
  - by injection Hrun as <- <-.
  - apply bind_Ok_inv in Hrun as ([bid g1] & Hbid & Hrun).
    apply bind_Ok_inv in Hrun as ([ask g2] & Hask & Hrun).
    apply bind_Ok_inv in Hrun as ([rows' g3] & Hrows & [= <- <-]).
    simpl. f_equal. apply (IH rest g2 rows' g3); [simpl in Hlen; lia|done].
Qed.

Lemma sample_rows_Ok {rng} (randint : Z → Z → rng → result (Z * rng)) pip :
  randint_spec randint →
  ∀ price g, drawable_pairs pip price →
             ∃ rows g', sample_rows randint pip price g = Ok (rows, g').
Proof.
  intros Hrand price. remember (length price) as n eqn:Hn. revert price Hn.
  induction n as [n IH] using lt_wf_ind. intros price -> g Hall.
  destruct price as [|bl [|bh [|al [|ah rest]]]]; try (by eexists _, _).
  cbn [sample_rows].
  destruct Hall as (Hbid & Hask & Hrest).
  destruct (sample_price_Ok randint bl bh pip g Hrand Hbid)
    as (bid & g1 & ->). simpl.
  destruct (sample_price_Ok randint al ah pip g1 Hrand Hask)
    as (ask & g2 & ->). simpl.
  destruct (IH (length rest) ltac:(simpl; lia) rest eq_refl g2 Hrest)
    as (rows & g3 & ->).
  simpl. eauto.
Qed.

(** C7 (as amended): on [n >= 1] symbols and a price vector of length
    [4 * n] whose pairs [sample_price] can draw from with the pip of
    [symbol_info[0]], [get_curr_price] returns an [n] by 2 matrix whose row
    [i] is the bid sampled from [price[4i], price[4i+1]] and then the ask
    sampled from [price[4i+2], price[4i+3]], each stored as a [float32];
    both are drawn by [sample_price] with the pip of [symbol_info[0]]
    whatever [i] is. *)
Theorem get_curr_price_rows {rng}
    (randint : Z → Z → rng → result (Z * rng))
    (symbol_info : list SymbolSpec) (info0 : SymbolSpec)
    (price : list float) (g : rng) :
  randint_spec randint →
  symbol_info !! 0%nat = Some info0 →
  length price = (length symbol_info * 4)%nat →
  drawable_pairs (float_of_decimal (pip info0)) price →
  ∃ m g',
    get_curr_price randint symbol_info price g = Ok (m, g')
    ∧ length m = length symbol_info
    ∧ ∀ i r, m !! i = Some r →
        ∃ bid_low bid_high ask_low ask_high g1 bid g2 ask g3,
          price !! (i * 4)%nat = Some bid_low
          ∧ price !! (i * 4 + 1)%nat = Some bid_high
          ∧ price !! (i * 4 + 2)%nat = Some ask_low
          ∧ price !! (i * 4 + 3)%nat = Some ask_high
          ∧ sample_price randint bid_low bid_high
              (float_of_decimal (pip info0)) g1 = Ok (bid, g2)
          ∧ sample_price randint ask_low ask_high
              (float_of_decimal (pip info0)) g2 = Ok (ask, g3)
          ∧ r = [float32 bid; float32 ask].
Proof.
  intros Hrand Hinfo0 Hlen Hall.
  rewrite (get_curr_price_rows_eq randint symbol_info info0 Hinfo0 price g)
    by lia.
  rewrite take_ge by lia.
  destruct (sample_rows_Ok randint _ Hrand price g Hall) as (m & g' & Hrows).
  exists m, g'. split_and!; [done| |].
  - by eapply length_sample_rows.
  - intros i r Hr. by eapply sample_rows_lookup.
Qed.

Lemma get_curr_price_rows_witness :
  ∃ m g', get_curr_price randint_low Prices.symbol_info' Prices.price' tt
          = Ok (m, g')
          ∧ length m = 2%nat.
Proof.
  destruct (get_curr_price_rows randint_low Prices.symbol_info'
              Scenario.eurusd Prices.price' tt randint_low_spec eq_refl
              eq_refl)
    as (m & g' & Hrun & Hlen & _).
  { unfold Prices.price'. cbn [fmap list_fmap drawable_pairs].
    split_and!; [drawable_now..|exact I]. }
  exists m, g'. split; [exact Hrun | exact Hlen].
Defined.

(** With the pip of symbol 0 (1.0) applied to symbol 1 (prices near 1.07),
    the sampled bid and ask are 1.0, below their low prices. *)
Lemma second_symbol_out_of_range :
  randint_spec randint_low
  ∧ length Prices.price = (length Prices.symbol_info * 4)%nat
  ∧ ∃ m bid ask,
      get_curr_price randint_low Prices.symbol_info Prices.price tt
      = Ok (m, tt)
      ∧ m !! 1%nat = Some [bid; ask]
      ∧ Prices.price !! 4%nat = Some (float_of_decimal 1.07123)
      ∧ Prices.price !! 5%nat = Some (float_of_decimal 1.07125)
      ∧ Prices.price !! 6%nat = Some (float_of_decimal 1.07124)
      ∧ Prices.price !! 7%nat = Some (float_of_decimal 1.07126)
      ∧ bid = float_of_int 1 ∧ ask = float_of_int 1
      ∧ PrimFloat.ltb bid (float_of_decimal 1.07123) = true
      ∧ PrimFloat.ltb ask (float_of_decimal 1.07124) = true.
Proof.
  split; [exact randint_low_spec|]. split; [reflexivity|].
  eexists _, _, _. split; [vm_compute; reflexivity|].
  split_and!; vm_compute; reflexivity.
Qed.

(** ** Position values *)

Lemma np_clip_range x : (-2 <= np_clip x (-2.0) 2.0 <= 2)%R.
Proof.
  unfold np_clip, Rmin, Rmax. repeat destruct (Rle_dec _ _); lra.
Qed.

Lemma np_clip_abs x : Rabs (np_clip x (-2.0) 2.0) = Rmin (Rabs x) 2.
Proof.
  unfold np_clip, Rmin, Rmax, Rabs.
  repeat first [destruct (Rle_dec _ _) | destruct (Rcase_abs _)]; lra.
Qed.

Section scale_pos_val_correct.
Context (log_tail : R → Z → Z → R).

Lemma scale_pos_val_elementwise xs :
  scale_pos_val log_tail xs = scaled log_tail <$> xs.
Proof.
  unfold scale_pos_val, apply_log_tail. cbv zeta.
  induction xs as [|x xs IH]; [done|].
  cbn [fmap list_fmap zip_with]. f_equal. exact IH.
Qed.

Hypothesis Hspec : log_tail_spec log_tail.

Lemma scaled_abs x :
  Rabs (log_tail x 0 (-1) / 3.0 + x * 0.03)
  = (Rabs (log_tail x 0 (-1)) / 3 + Rabs x * 0.03)%R.
Proof.
  destruct (Rle_dec 0 x) as [Hx|Hx].
  - pose proof (log_tail_sign_pos _ Hspec x 0 (-1) ltac:(done) Hx).
    rewrite !Rabs_pos_eq; lra.
  - pose proof (log_tail_sign_neg _ Hspec x 0 (-1) ltac:(done)
                  ltac:(lra)).
    rewrite !Rabs_left1; lra.
Qed.

Lemma scaled_zero : scaled log_tail 0 = 0%R.
Proof.
  pose proof (log_tail_sign_pos _ Hspec 0 0 (-1) ltac:(done) ltac:(lra)).
  pose proof (log_tail_sign_neg _ Hspec 0 0 (-1) ltac:(done) ltac:(lra)).
  assert (log_tail 0 0 (-1) = 0%R) as Hz by lra.
  unfold scaled. rewrite Hz. unfold np_clip, Rmin, Rmax.
  repeat destruct (Rle_dec _ _); lra.
Qed.

Lemma scaled_monotone x y :
  (Rabs x <= Rabs y)%R → (Rabs (scaled log_tail x) <= Rabs (scaled log_tail y))%R.
Proof.
  intros Hxy. unfold scaled. rewrite !np_clip_abs, !scaled_abs.
  pose proof (log_tail_magnitude _ Hspec x y 0 (-1) ltac:(done) Hxy).
  apply Rle_min_compat_r. lra.
Qed.
End scale_pos_val_correct.

(** C8: with a log-tail kernel as the specification describes it,
    [scale_pos_val] computes [log_tail(x, 0, -1) / 3.0 + x * 0.03] clipped
    to [[-2, 2]] for every element; it maps 0 to 0, its output magnitude
    is non-decreasing in the magnitude of the input, and every output
    lies within [[-2, 2]]. *)
Theorem scale_pos_val_properties (log_tail : R → Z → Z → R)
    (Hspec : log_tail_spec log_tail) :
  (∀ xs, scale_pos_val log_tail xs
         = (λ x, np_clip (log_tail x 0 (-1) / 3.0 + x * 0.03) (-2.0) 2.0)
             <$> xs)
  ∧ scale_pos_val log_tail [0%R] = [0%R]
  ∧ (∀ x y sx sy,
       (Rabs x <= Rabs y)%R →
       scale_pos_val log_tail [x] = [sx] →
       scale_pos_val log_tail [y] = [sy] →
       (Rabs sx <= Rabs sy)%R)
  ∧ (∀ xs, Forall (λ s, (-2 <= s <= 2)%R) (scale_pos_val log_tail xs)).
Proof.
  split_and!.
  - apply scale_pos_val_elementwise.
  - rewrite scale_pos_val_elementwise. simpl. by rewrite scaled_zero.
  - intros x y sx sy Hxy. rewrite !scale_pos_val_elementwise. simpl.
    intros [= <-] [= <-]. by apply scaled_monotone.
  - intros xs. rewrite scale_pos_val_elementwise.
    apply Forall_fmap, Forall_forall. intros x _. apply np_clip_range.
Qed.

(** The kernel [ln_tail] is of the kind the specification describes. *)
Lemma ln_le_mono x y : (0 < x)%R → (x <= y)%R → (ln x <= ln y)%R.
Proof.
  intros Hx [Hlt| ->]; [|apply Rle_refl].
  by apply Rlt_le, ln_increasing.
Qed.

Lemma ln_scale_pos log_base : (0 < ln_scale log_base)%R.
Proof.
  unfold ln_scale. destruct (Z_lt_dec 1 log_base) as [Hb|_]; [|lra].
  rewrite <-ln_1. apply ln_increasing; [lra|]. by apply IZR_lt.
Qed.

Lemma ln_compress_ge x thresh log_base :
  (IZR thresh <= Rabs x)%R → (IZR thresh <= ln_compress x thresh log_base)%R.
Proof.
  intros Hx. unfold ln_compress.
  assert (0 <= ln (1 + Rabs x - IZR thresh))%R as Hln
    by (rewrite <-ln_1; apply ln_le_mono; lra).
  pose proof (ln_scale_pos log_base) as Hs.
  assert (0 <= ln (1 + Rabs x - IZR thresh) / ln_scale log_base)%R
    by (apply Rmult_le_pos; [done | by apply Rlt_le, Rinv_0_lt_compat]).
  lra.
Qed.

Lemma ln_compress_mono x y thresh log_base :
  (IZR thresh <= Rabs x)%R → (Rabs x <= Rabs y)%R →
  (ln_compress x thresh log_base <= ln_compress y thresh log_base)%R.
Proof.
  intros Hx Hxy. unfold ln_compress.
  pose proof (ln_scale_pos log_base) as Hs.
  assert (ln (1 + Rabs x - IZR thresh) <= ln (1 + Rabs y - IZR thresh))%R
    as Hln by (apply ln_le_mono; lra).
  apply Rplus_le_compat_l. unfold Rdiv.
  apply Rmult_le_compat_r; [|done].
  by apply Rlt_le, Rinv_0_lt_compat.
Qed.

Lemma ln_tail_unfold x thresh log_base :
  ln_tail x thresh log_base
  = if Rlt_dec (Rabs x) (IZR thresh) then x
    else if Rle_dec 0 x then ln_compress x thresh log_base
         else (- ln_compress x thresh log_base)%R.
Proof. done. Qed.

Lemma ln_tail_abs x thresh log_base :
  0 ≤ thresh →
  Rabs (ln_tail x thresh log_base)
  = if Rlt_dec (Rabs x) (IZR thresh) then Rabs x
    else ln_compress x thresh log_base.
Proof.
  intros Ht%IZR_le. rewrite ln_tail_unfold.
  destruct (Rlt_dec _ _) as [|Hge]; [done|].
  pose proof (ln_compress_ge x thresh log_base ltac:(lra)).
  destruct (Rle_dec 0 x).
  - apply Rabs_pos_eq. lra.
  - rewrite Rabs_Ropp. apply Rabs_pos_eq. lra.
Qed.

Lemma ln_tail_spec : log_tail_spec ln_tail.
Proof.
  split.
  - intros x thresh log_base Hx. rewrite ln_tail_unfold.
    by destruct (Rlt_dec _ _).
  - intros x thresh log_base Ht Hx. rewrite ln_tail_unfold.
    apply IZR_le in Ht.
    destruct (Rlt_dec _ _) as [|Hge]; [done|].
    pose proof (ln_compress_ge x thresh log_base ltac:(lra)).
    destruct (Rle_dec 0 x); lra.
  - intros x thresh log_base Ht Hx. rewrite ln_tail_unfold.
    apply IZR_le in Ht.
    destruct (Rlt_dec _ _) as [|Hge]; [done|].
    pose proof (ln_compress_ge x thresh log_base ltac:(lra)).
    destruct (Rle_dec 0 x) as [Hpos|]; [|lra].
    assert (x = 0%R) as -> by lra. rewrite Rabs_R0 in Hge.
    assert (IZR thresh = 0%R) as Hz by lra.
    unfold ln_compress. rewrite Rabs_R0, Hz.
    replace (1 + 0 - 0)%R with 1%R by lra. rewrite ln_1. lra.
  - intros x y thresh log_base Ht Hxy. rewrite !ln_tail_abs by done.
    apply IZR_le in Ht.
    destruct (Rlt_dec (Rabs x) _) as [Hx|Hx],
             (Rlt_dec (Rabs y) _) as [Hy|Hy]; try lra.
    + pose proof (ln_compress_ge y thresh log_base ltac:(lra)). lra.
    + apply ln_compress_mono; lra.
Qed.

Lemma scale_pos_val_properties_witness :
  scale_pos_val ln_tail [0%R] = [0%R]
  ∧ Forall (λ s, (-2 <= s <= 2)%R) (scale_pos_val ln_tail [1000; -1000]%R).
Proof.
  destruct (scale_pos_val_properties ln_tail ln_tail_spec)
    as (_ & Hzero & _ & Hrange).
  split; [exact Hzero | exact (Hrange _)].
Defined.

(** ** The portfolio encoding *)

Lemma length_slice_step {A} step (l : list A) : (step ≠ 0)%nat →
  length (slice_step step l) = ((length l + (step - 1)) / step)%nat.
Proof.
  intros Hstep. remember (length l) as n eqn:Hn. revert l Hn.
  induction n as [n IH] using lt_wf_ind. intros [|x l] ->; simpl.
  - symmetry. apply Nat.div_small. lia.
  - rewrite every_nth_drop. f_equal.
    destruct (decide (step - 1 ≤ length l)%nat) as [Hle|Hgt].
    + rewrite (IH (length (drop (step - 1) l))); [| simpl; rewrite length_drop; lia | done].
      rewrite length_drop.
      replace (S (length l + (step - 1)))%nat
        with ((length l - (step - 1) + (step - 1)) + 1 * step)%nat by lia.
      rewrite Nat.div_add by done. lia.
    + rewrite drop_ge by lia. simpl.
      assert (S (length l + (step - 1)) = (length l + 1 * step))%nat as ->
        by lia.
      rewrite Nat.div_add, Nat.div_small by lia. done.
Qed.

Lemma selected_columns (w : nat) :
  length (slice_step 7 (drop 5 (seq 0 w))) = ((w - 5 + 6) / 7)%nat.
Proof. by rewrite length_slice_step, length_drop, length_seq. Qed.

Lemma selected_columns_lt_2 (w : nat) :
  (length (slice_step 7 (drop 5 (seq 0 w))) < 2)%nat ↔ (w < 13)%nat.
Proof.
  rewrite selected_columns. split; intros H.
  - destruct (decide (w < 13)%nat); [done|]. exfalso.
    assert (2 ≤ (w - 5 + 6) / 7)%nat; [|lia].
    apply Nat.div_le_lower_bound; lia.
  - apply Nat.Div0.div_lt_upper_bound. lia.
Qed.

Lemma get_col_fmap {A B} j (g : B → list A) (d : A) (bs : list B) :
  Forall (λ b, j < length (g b))%nat bs →
  get_col j (g <$> bs) = Ok ((λ b, nth j (g b) d) <$> bs).
Proof.
  unfold get_col. induction 1 as [|b bs Hb _ IH]; [done|].
  cbn [fmap list_fmap mapM].
  destruct (lookup_lt_is_Some_2 (g b) j Hb) as [x Hx].
  rewrite (proj2 (list_getitem_Ok (g b) j x) Hx), (nth_lookup_Some _ _ d x Hx).
  cbn [mbind result_bind]. fold (@fmap list _ B (list A) g bs).
  rewrite IH. done.
Qed.

Lemma zip_with_fmap_same {A B C D} (f : B → C → D) (g : A → B) (h : A → C)
    (l : list A) :
  zip_with f (g <$> l) (h <$> l) = (λ x, f (g x) (h x)) <$> l.
Proof.
  induction l as [|x l IH]; [done|].
  cbn [fmap list_fmap zip_with]. f_equal. exact IH.
Qed.

Lemma broadcast_to_same {A} (vals : list A) n :
  length vals = n → broadcast_to n vals = Ok vals.
Proof. intros H. unfold broadcast_to. by rewrite decide_True. Qed.

Lemma mat_col_fmap {A B} j (g : B → list A) (d : A) cols (bs : list B) :
  (j < cols)%nat →
  Forall (λ b, j < length (g b))%nat bs →
  mat_col j (Matrix cols (g <$> bs)) = Ok ((λ b, nth j (g b) d) <$> bs).
Proof.
  intros Hj Hall. unfold mat_col. simpl. rewrite decide_True by done.
  by apply get_col_fmap.
Qed.

Lemma mat_col_rows {A} j (d : A) cols (rows : list (list A)) :
  (j < cols)%nat →
  Forall (λ r, j < length r)%nat rows →
  mat_col j (Matrix cols rows) = Ok ((λ r, nth j r d) <$> rows).
Proof.
  intros Hj Hall. rewrite <-(list_fmap_id rows) at 1.
  by apply (mat_col_fmap j (@Datatypes.id (list A)) d).
Qed.

Lemma mat_set_col_fmap {A B} j (f : B → A) (g : B → list A) cols
    (bs : list B) :
  (j < cols)%nat →
  mat_set_col j (f <$> bs) (Matrix cols (g <$> bs))
  = Ok (Matrix cols ((λ b, <[j := f b]> (g b)) <$> bs)).
Proof.
  intros Hj. unfold mat_set_col. simpl. rewrite decide_True by done.
  rewrite broadcast_to_same by (by rewrite !length_fmap).
  simpl. by rewrite zip_with_fmap_same.
Qed.

Section portfolio_correct.
Context (log_tail : R → Z → Z → R).

Lemma portfolio_too_narrow (p : matrix R) :
  (m_cols p < 13)%nat →
  mat_col 1 (mat_slice_cols 5 7 p) = Raise IndexError
  ∧ portfolio_to_model_input log_tail p = Raise IndexError.
Proof.
  intros Hw%selected_columns_lt_2.
  assert (mat_col 1 (mat_slice_cols 5 7 p) = Raise IndexError) as Hcol.
  { unfold mat_col. simpl. rewrite decide_False; [done|lia]. }
  split; [done|]. unfold portfolio_to_model_input. by rewrite Hcol.
Qed.

Lemma portfolio_rows (p : matrix R) :
  matrix_wf p → (13 ≤ m_cols p)%nat →
  portfolio_to_model_input log_tail p
  = Ok (concat (encode_row log_tail <$> m_rows p)).
Proof.
  destruct p as [w rows]. unfold matrix_wf. simpl. intros Hwf Hw.
  unfold portfolio_to_model_input, mat_slice_cols. simpl.
  set (S7 := λ r : list R, slice_step 7 (drop 5 r)).
  set (n := length (slice_step 7 (drop 5 (seq 0 w)))).
  assert (2 ≤ n)%nat as Hn
    by (pose proof (selected_columns_lt_2 w); unfold n; lia).
  assert (Forall (λ r, 2 ≤ length (S7 r) ∧ 6 < length r)%nat rows)
    as Hrows.
  { eapply Forall_impl; [exact Hwf|]. intros r Hr. simpl in Hr.
    unfold S7. rewrite length_slice_step, length_drop, Hr by done.
    split; [|lia]. apply Nat.div_le_lower_bound; lia. }
  rewrite (mat_col_fmap 1 S7 0%R); [|lia|].
  2:{ eapply Forall_impl; [exact Hrows|]. simpl. lia. }
  cbn [mbind result_bind].
  rewrite scale_pos_val_elementwise, <-list_fmap_compose.
  rewrite mat_set_col_fmap by lia. cbn [mbind result_bind].
  rewrite (mat_col_fmap 0 _ 0%R); [|lia|].
  2:{ eapply Forall_impl; [exact Hrows|]. intros r [Hr _]. simpl.
      rewrite length_insert. lia. }
  cbn [mbind result_bind].
  rewrite (mat_col_rows 6 0%R); [|lia|].
  2:{ eapply Forall_impl; [exact Hrows|]. simpl. lia. }
  cbn [mbind result_bind]. rewrite zip_with_fmap_same.
  rewrite mat_set_col_fmap by lia. cbn [mbind result_bind m_rows].
  do 2 f_equal. apply Forall_fmap_ext.
  eapply Forall_impl; [exact Hrows|]. intros r [Hr _]. simpl.
  unfold encode_row. fold (S7 r).
  destruct (S7 r) as [|v0 [|v1 rest]]; simpl in Hr; try lia. done.
Qed.

Lemma length_encode_row (r : list R) :
  length (encode_row log_tail r) = length (slice_step 7 (drop 5 r)).
Proof.
  unfold encode_row. by destruct (slice_step 7 (drop 5 r)) as [|? [|? ?]].
Qed.
End portfolio_correct.

(** C6 (as amended): on a portfolio matrix of shape [(K, 7 * M)] with
    [M >= 2], [portfolio_to_model_input] returns a vector of length
    [K * M]: row by row, every 7th column from offset 5, the first of them
    multiplied by column 6 over 2.0, the second through [scale_pos_val],
    the others unchanged. *)
Theorem portfolio_to_model_input_shape (log_tail : R → Z → Z → R)
    (p : matrix R) (K M : nat) :
  matrix_wf p →
  length (m_rows p) = K →
  m_cols p = (7 * M)%nat →
  (2 ≤ M)%nat →
  ∃ out,
    portfolio_to_model_input log_tail p = Ok out
    ∧ out = concat (encode_row log_tail <$> m_rows p)
    ∧ length out = (K * M)%nat.
Proof.
  intros Hwf HK Hcols HM. eexists. split_and!; [|done|].
  - apply portfolio_rows; [done|lia].
  - rewrite <-HK. clear HK. induction Hwf as [|r rows Hr _ IH]; [done|].
    cbn [fmap list_fmap concat length]. rewrite length_app, IH.
    rewrite length_encode_row, length_slice_step, length_drop, Hr, Hcols
      by done.
    replace (7 * M - 5 + (7 - 1))%nat with (1 + M * 7)%nat by lia.
    rewrite Nat.div_add, Nat.div_small by lia. lia.
Qed.

Lemma portfolio_to_model_input_shape_witness :
  ∃ out, portfolio_to_model_input ln_tail Portfolio.two_slots = Ok out
         ∧ length out = 2%nat.
Proof.
  destruct (portfolio_to_model_input_shape ln_tail Portfolio.two_slots 1 2)
    as (out & Hrun & _ & Hlen).
  - repeat constructor.
  - reflexivity.
  - reflexivity.
  - lia.
  - exists out. split; [exact Hrun | exact Hlen].
Defined.

(** A matrix of shape [(1, 7 * 2)] gives a vector of length 2, not 2 * 2;
    and one of shape [(1, 7 * 1)] gives no vector at all. *)
Lemma portfolio_length_is_rows_times_slots :
  matrix_wf Portfolio.two_slots
  ∧ length (m_rows Portfolio.two_slots) = 1%nat
  ∧ m_cols Portfolio.two_slots = (7 * 2)%nat
  ∧ (∃ out, portfolio_to_model_input ln_tail Portfolio.two_slots = Ok out
            ∧ length out = 2%nat ∧ length out ≠ (2 * 2)%nat)
  ∧ matrix_wf Portfolio.one_slot
  ∧ m_cols Portfolio.one_slot = (7 * 1)%nat
  ∧ portfolio_to_model_input ln_tail Portfolio.one_slot = Raise IndexError.
Proof.
  split_and!.
  - repeat constructor.
  - reflexivity.
  - reflexivity.
  - eexists. split; [apply portfolio_rows; [repeat constructor | simpl; lia]|].
    split; [reflexivity | simpl; lia].
  - repeat constructor.
  - reflexivity.
  - apply portfolio_too_narrow. simpl. lia.
Qed.

(** * Further properties *)

(** ** The raw window store: contents, sliding, failures *)

Lemma truncate_groups_frame shape inds raw raw' k :
  NoDup inds → truncate_groups shape inds raw = Ok raw' →
  k ∉ inds → raw' !! k = raw !! k.
Proof.
  intros Hnd Hrun.
  by destruct (for_each_pointwise_inv _ _ (truncate_groups_body shape) inds
                 Hnd _ _ Hrun k).
Qed.

Lemma init_raw_data_dom cfg c shape i rd c' k :
  init_raw_data cfg c shape i = (Ok rd, c') →
  k ∉ feat_group_inds shape → rd_groups rd !! k = None.
Proof.
  unfold init_raw_data. intros Hrun Hk.
  destruct (getitem shape "max") as [mx|]; [|done].
  destruct (backfill _ _ _ _ _ _) as [r c1] eqn:Hfill.
  injection Hrun as Hrun <-.
  apply bind_Ok_inv in Hrun as ([raw last] & -> & Hrun). simpl in Hrun.
  apply bind_Ok_inv in Hrun as (b & _ & Hrun).
  apply bind_Ok_inv in Hrun as (groups & Htrunc & [= <-]). simpl.
  rewrite (truncate_groups_frame _ _ _ _ k (NoDup_feat_group_inds shape)
             Htrunc Hk).
  apply backfill_Ok_inv in Hfill
    as (bs & _ & _ & _ & _ & Hraw); [|apply NoDup_feat_group_inds].
  destruct (Hraw k) as [_ Hout]. rewrite (Hout Hk).
  etrans; [apply lookup_empty_buffers|]. by rewrite decide_False.
Qed.

Lemma py_slice_from_neg_drop {A} (n : Z) (l : list A) :
  1 ≤ n ≤ Z.of_nat (length l) →
  py_slice_from (- n) l = drop (length l - Z.to_nat n) l.
Proof.
  intros Hn. unfold py_slice_from.
  destruct (Z.ltb_spec (- n) 0); [|lia]. f_equal. lia.
Qed.

(** X1: the window [init_raw_data] returns at index [i] holds, for every
    group of length [n], the group's field of the records [i - n + 1 .. i]
    in that order, the side channels of record [i], and no other key. *)
Theorem init_raw_data_window cfg c shape i rd c' :
  valid_shape shape →
  init_raw_data cfg c shape i = (Ok rd, c') →
  (∃ b, records c !! key_of cfg i = Some b
        ∧ rd_date rd = b_date b
        ∧ rd_trade_price rd = b_trade_price b
        ∧ rd_date_arr rd = b_date_arr b)
  ∧ (∀ k n, k ≠ "max" → shape !! k = Some n →
       ∃ buf, rd_groups rd !! k = Some buf
         ∧ Z.of_nat (length buf) = n
         ∧ ∀ j : nat, Z.of_nat j < n →
             ∃ b f, records c !! key_of cfg (i - n + 1 + Z.of_nat j) = Some b
                    ∧ b_fields b !! k = Some f
                    ∧ buf !! j = Some f)
  ∧ (∀ k, k = "max" ∨ shape !! k = None → rd_groups rd !! k = None).
Proof.
  intros (mx & Hmx & Hvalid) Hrun.
  pose proof (λ k, init_raw_data_dom _ _ _ _ _ _ k Hrun) as Hdom.
  apply init_raw_data_Ok_inv in Hrun
    as (mx' & bs & b & Hmx' & Hbs & _ & Hlast & Hside & Hgroups).
  rewrite Hmx in Hmx'. injection Hmx' as <-.
  assert (0 ≤ mx + 1 → Z.of_nat (length bs) = mx + 1) as Hlen.
  { intros. rewrite <-(Forall2_length _ _ _ Hbs), length_seqZ. lia. }
  split_and!.
  - exists b. injection Hside as -> -> ->. split_and!; try done.
    apply last_Some in Hlast as [bs' ->].
    assert (0 ≤ mx + 1) as Hpos by (destruct (Z.le_gt_cases 0 (mx + 1));
      [done|]; apply Forall2_length in Hbs; rewrite length_seqZ in Hbs;
      rewrite length_app in Hbs; simpl in Hbs; lia).
    specialize (Hlen Hpos). rewrite length_app in Hlen. simpl in Hlen.
    destruct (Forall2_lookup_r _ _ _ (length bs') b Hbs) as (j & Hj & Hb).
    { by rewrite lookup_app_r, Nat.sub_diag. }
    apply lookup_seqZ in Hj as [-> _].
    replace (i - mx + Z.of_nat (length bs')) with i in Hb by lia. done.
  - intros k n Hk Hn. destruct (Hgroups k n Hk Hn) as (fs & Hfs & ->).
    destruct (Hvalid k n Hn) as [|Hrange]; [done|].
    specialize (Hlen ltac:(lia)).
    pose proof (Forall2_length _ _ _ Hfs) as Hlenfs.
    eexists. split; [done|]. split.
    + apply length_py_slice_from_neg. lia.
    + intros j Hj. rewrite py_slice_from_neg_drop by lia.
      rewrite lookup_drop.
      set (p := (length fs - Z.to_nat n + j)%nat).
      destruct (lookup_lt_is_Some_2 fs p) as [f Hf]; [unfold p; lia|].
      destruct (Forall2_lookup_r _ _ _ _ _ Hfs Hf) as (b' & Hb' & Hbf).
      destruct (Forall2_lookup_r _ _ _ _ _ Hbs Hb') as (z & Hz & Hzb).
      apply lookup_seqZ in Hz as [-> _].
      exists b', f. split_and!; try done.
      replace (i - n + 1 + Z.of_nat j) with (i - mx + Z.of_nat p)
        by (unfold p; lia). done.
  - intros k Hk. apply Hdom. rewrite elem_of_feat_group_inds.
    intros [Hne Hs]. destruct Hk as [->|Hnone]; [done|].
    rewrite Hnone in Hs. by destruct Hs.
Qed.

Lemma init_raw_data_window_witness :
  ∃ rd buf,
    (init_raw_data Scenario.cfg Scenario.store Scenario.raw_data_shape 10).1
    = Ok rd
    ∧ rd_groups rd !! "0" = Some buf
    ∧ Z.of_nat (length buf) = 10.
Proof.
  assert (valid_shape Scenario.raw_data_shape) as Hshape by by_computation.
  destruct (init_raw_data Scenario.cfg Scenario.store
              Scenario.raw_data_shape 10) as [[rd|e] c'] eqn:Hrun;
    [|vm_compute in Hrun; discriminate].
  destruct (init_raw_data_window Scenario.cfg Scenario.store
              Scenario.raw_data_shape 10 rd c' Hshape Hrun)
    as (_ & Hgroups & _).
  destruct (Hgroups "0" 10 ltac:(discriminate) eq_refl)
    as (buf & Hbuf & Hlen & _).
  exists rd, buf. split_and!; [reflexivity|exact Hbuf|exact Hlen].
Defined.

Lemma np_vstack_same_width (a : ndarray) (r : row) :
  np_vstack a r = Ok (a ++ [r]) ↔ Forall (λ r', length r' = length r) a.
Proof.
  unfold np_vstack.
  destruct (forallb _ a) eqn:Hall.
  - split; [|done]. intros _. apply Forall_forall. intros r' Hin.
    rewrite forallb_forall in Hall. apply Nat.eqb_eq, Hall.
    by apply list_elem_of_In.
  - split; [done|]. intros HF. exfalso.
    assert (forallb (λ r', length r' =? length r)%nat a = true) as Ht;
      [|congruence].
    apply forallb_forall. intros r' Hin%list_elem_of_In.
    rewrite Forall_forall in HF. apply Nat.eqb_eq. auto.
Qed.

Lemma np_vstack_Raise (a : ndarray) (r : row) e :
  np_vstack a r = Raise e → e = ValueError.
Proof. unfold np_vstack. case_match; naive_solver. Qed.

Lemma shift_groups_Ok inds b (raw : gmap string ndarray) :
  NoDup inds →
  (∀ k, k ∈ inds → ∃ a f, raw !! k = Some a ∧ b_fields b !! k = Some f
                          ∧ Forall (λ r, length r = length f) a) →
  ∃ raw', shift_groups inds b raw = Ok raw'.
Proof.
  intros Hnd Hall.
  apply (for_each_pointwise_ok _ _ (shift_groups_body b) inds Hnd).
  intros k Hk. destruct (Hall k Hk) as (a & f & Ha & Hf & Hw).
  exists a, (py_slice_from 1 (a ++ [f])). split; [done|].
  unfold getitem. rewrite Hf. simpl.
  apply np_vstack_same_width in Hw. by rewrite Hw.
Qed.

Lemma update_raw_data_frame cfg c shape rd i rd' c' k :
  update_raw_data cfg c shape rd i = (Ok rd', c') →
  k = "max" ∨ shape !! k = None →
  rd_groups rd' !! k = rd_groups rd !! k.
Proof.
  unfold update_raw_data, client_get. intros Hrun Hk.
  injection Hrun as Hrun _.
  apply bind_Ok_inv in Hrun as (b & _ & Hrun).
  apply bind_Ok_inv in Hrun as (groups & Hshift & [= <-]). simpl.
  destruct (shift_groups_Ok_inv _ _ _ _ (NoDup_feat_group_inds shape)
              Hshift k) as [_ Hout].
  apply Hout. rewrite elem_of_feat_group_inds. intros [Hne Hs].
  destruct Hk as [->|Hnone]; [done|]. rewrite Hnone in Hs. by destruct Hs.
Qed.

(** X2: on a window whose group buffers are not empty,
    [update_raw_data] returns a window exactly when the record is in the
    store and, for every group of the shape map, the record has the
    group's field, the old window has the group's buffer, and the field is
    as wide as every row of that buffer; a width mismatch is never
    repaired.  Buffers of keys outside the shape map are left as they
    are. *)
Theorem update_raw_data_succeeds_iff cfg c shape rd i :
  (∀ k n a, k ≠ "max" → shape !! k = Some n →
            rd_groups rd !! k = Some a → a ≠ []) →
  ((∃ rd', (update_raw_data cfg c shape rd i).1 = Ok rd')
   ↔ ∃ b, records c !! key_of cfg i = Some b
          ∧ ∀ k n, k ≠ "max" → shape !! k = Some n →
              ∃ a f, rd_groups rd !! k = Some a
                     ∧ b_fields b !! k = Some f
                     ∧ Forall (λ r, length r = length f) a)
  ∧ (∀ rd' k, (update_raw_data cfg c shape rd i).1 = Ok rd' →
       k = "max" ∨ shape !! k = None →
       rd_groups rd' !! k = rd_groups rd !! k).
Proof.
  intros _.
  split; [|intros rd' k Hrun;
           apply (update_raw_data_frame cfg c shape rd i rd'
                    (update_raw_data cfg c shape rd i).2);
           by rewrite <-Hrun, <-surjective_pairing].
  split.
  - intros [rd' Hrun]. unfold update_raw_data, client_get in Hrun.
    fold (key_of cfg i) in Hrun. simpl in Hrun.
    destruct (records c !! key_of cfg i) as [b|]; [|done].
    exists b. split; [done|]. intros k n Hk Hn. simpl in Hrun.
    apply bind_Ok_inv in Hrun as (groups & Hshift & _).
    destruct (for_each_pointwise_inv _ _ (shift_groups_body b) _
                (NoDup_feat_group_inds shape) _ _ Hshift k) as [Hin _].
    destruct Hin as (a & v & Ha & Hv & _);
      [apply elem_of_feat_group_inds; eauto|].
    apply bind_Ok_inv in Hv as (f & Hf%getitem_Ok & Hv).
    apply bind_Ok_inv in Hv as (a' & Hstack & _).
    exists a, f. split_and!; try done.
    pose proof (np_vstack_Ok _ _ _ Hstack) as ->.
    by apply np_vstack_same_width.
  - intros (b & Hb & Hall). unfold update_raw_data, client_get.
    fold (key_of cfg i). rewrite Hb. simpl.
    destruct (shift_groups_Ok (feat_group_inds shape) b (rd_groups rd)
                (NoDup_feat_group_inds shape)) as [groups ->].
    + intros k [Hk [n Hn]]%elem_of_feat_group_inds. eauto.
    + simpl. eauto.
Qed.

Lemma update_raw_data_succeeds_iff_witness :
  ∃ b, records Scenario.store !! key_of Scenario.cfg 10 = Some b.
Proof.
  assert (∀ k n a, k ≠ "max" → Scenario.raw_data_shape !! k = Some n →
                   rd_groups Scenario.window !! k = Some a → a ≠ [])
    as Hne.
  { intros k n a _ _ Ha ->. destruct (decide (k = "0")) as [->|Hk].
    - vm_compute in Ha. discriminate.
    - unfold Scenario.window in Ha. simpl in Ha.
      rewrite lookup_singleton_ne in Ha by done. discriminate. }
  destruct (proj1 (proj1 (update_raw_data_succeeds_iff Scenario.cfg
                            Scenario.store Scenario.raw_data_shape
                            Scenario.window 10 Hne)))
    as (b & Hb & _).
  - destruct (update_raw_data Scenario.cfg Scenario.store
                Scenario.raw_data_shape Scenario.window 10) as [[rd'|e] c']
      eqn:Hrun; [|vm_compute in Hrun; discriminate].
    exists rd'. reflexivity.
  - exists b. exact Hb.
Defined.

Lemma fmap_Some_inj {A} (l1 l2 : list A) :
  Some <$> l1 = Some <$> l2 → l1 = l2.
Proof.
  revert l2. induction l1 as [|x l1 IH]; intros [|y l2] Heq; try done.
  injection Heq as -> Heq. f_equal. by apply IH.
Qed.

(** The field of group [k] in the record stored under index [j]. *)
Lemma stored_fields cfg (c : client) k js bs fs :
  Forall2 (λ j b, records c !! key_of cfg j = Some b) js bs →
  Forall2 (λ b f, b_fields b !! k = Some f) bs fs →
  (λ j, records c !! key_of cfg j ≫= λ b, b_fields b !! k) <$> js
  = Some <$> fs.
Proof.
  intros Hbs. revert fs.
  induction Hbs as [|j b js bs Hb _ IH]; intros fs Hfs.
  - by apply Forall2_nil_inv_l in Hfs as ->.
  - apply Forall2_cons_inv_l in Hfs as (f & fs' & Hf & Hfs & ->).
    cbn [fmap list_fmap]. rewrite Hb. simpl. rewrite Hf. f_equal.
    by apply IH.
Qed.

Lemma slide_suffix {A} (n : Z) (fs : list A) (f : A) :
  1 ≤ n ≤ Z.of_nat (length fs) →
  py_slice_from (- n) (drop 1 fs ++ [f])
  = drop 1 (py_slice_from (- n) fs ++ [f]).
Proof.
  intros Hn.
  rewrite (py_slice_from_neg_drop n fs) by lia.
  rewrite (py_slice_from_neg_drop n (drop 1 fs ++ [f]))
    by (rewrite length_app, length_drop; simpl; lia).
  rewrite length_app, length_drop. simpl.
  set (m := Z.to_nat n). assert (1 ≤ m ≤ length fs)%nat as Hm by lia.
  clearbody m.
  rewrite (drop_app_le (drop 1 fs)) by (rewrite length_drop; lia).
  rewrite (drop_app_le (drop (length fs - m) fs))
    by (rewrite length_drop; lia).
  rewrite !drop_drop. do 2 f_equal. lia.
Qed.

(** X3: sliding the window agrees with rebuilding it.  With a valid shape
    map and a conforming store holding the records [i - max .. i + 1], the
    window [init_raw_data] builds at [i], advanced by [update_raw_data] at
    [i + 1], is the window [init_raw_data] builds at [i + 1]. *)
Theorem update_after_init cfg c shape widths mx i :
  valid_shape shape →
  shape !! "max" = Some mx → 0 ≤ mx →
  dom (delete "max" shape) ⊆ dom widths →
  map_Forall (λ _ b, conforms widths b) (records c) →
  Forall (λ j, is_Some (records c !! key_of cfg j)) (seqZ (i - mx) (mx + 2)) →
  ∃ rd rd2,
    (init_raw_data cfg c shape i).1 = Ok rd
    ∧ (init_raw_data cfg c shape (i + 1)).1 = Ok rd2
    ∧ ∀ c1, records c1 = records c →
        (update_raw_data cfg c1 shape rd (i + 1)).1 = Ok rd2.
Proof.
  intros (mx' & Hmx' & Hvalid) Hmx Hpos Hwidths Hstore Hall.
  rewrite Hmx in Hmx'. injection Hmx' as <-.
  assert (seqZ (i - mx) (mx + 2) = seqZ (i - mx) (mx + 1) ++ [i + 1]) as Hsnoc.
  { replace (mx + 2) with ((mx + 1) + 1) by lia.
    rewrite seqZ_app by lia. f_equal.
    rewrite seqZ_cons by lia. f_equal. lia. }
  assert (seqZ (i - mx) (mx + 2)
          = (i - mx) :: seqZ (i + 1 - mx) (mx + 1)) as Hcons.
  { rewrite seqZ_cons by lia. f_equal. f_equal; lia. }
  assert (seqZ (i + 1 - mx) (mx + 1)
          = drop 1 (seqZ (i - mx) (mx + 1)) ++ [i + 1]) as Hjs2.
  { pose proof (eq_trans (eq_sym Hcons) Hsnoc) as Heq.
    apply (f_equal (drop 1)) in Heq.
    rewrite drop_app_le in Heq by (rewrite length_seqZ; lia). exact Heq. }
  destruct (init_raw_data_Ok cfg c shape widths Hwidths Hstore mx i Hmx Hpos)
    as [rd Hrd].
  { rewrite Hsnoc in Hall. by apply Forall_app in Hall as [? _]. }
  destruct (init_raw_data_Ok cfg c shape widths Hwidths Hstore mx (i + 1)
              Hmx Hpos) as [rd2 Hrd2].
  { rewrite Hcons in Hall. by apply Forall_cons in Hall as [_ ?]. }
  exists rd, rd2. split_and!; try done. intros c1 Hc1.
  destruct (init_raw_data cfg c shape i) as [r c'] eqn:Hrun.
  simpl in Hrd. subst r.
  destruct (init_raw_data cfg c shape (i + 1)) as [r c2'] eqn:Hrun2.
  simpl in Hrd2. subst r.
  pose proof (λ k, init_raw_data_dom _ _ _ _ _ _ k Hrun) as Hdom.
  pose proof (λ k, init_raw_data_dom _ _ _ _ _ _ k Hrun2) as Hdom2.
  apply init_raw_data_Ok_inv in Hrun
    as (mx1 & bs & b & Hmx1 & Hbs & _ & _ & _ & Hgroups).
  rewrite Hmx in Hmx1. injection Hmx1 as <-.
  apply init_raw_data_Ok_inv in Hrun2
    as (mx2 & bs2 & b2 & Hmx2 & Hbs2 & _ & Hlast2 & Hside2 & Hgroups2).
  rewrite Hmx in Hmx2. injection Hmx2 as <-.
  (* the record fetched by the update is the last one of the rebuild *)
  assert (records c !! key_of cfg (i + 1) = Some b2) as Hb2.
  { apply last_Some in Hlast2 as [bs2' ->].
    rewrite Hjs2 in Hbs2.
    apply Forall2_app_inv_r in Hbs2 as (js1 & js2 & _ & Hlastj & Heq).
    apply Forall2_cons_inv_r in Hlastj as (j & js2' & Hj & Hnil & ->).
    apply Forall2_nil_inv_r in Hnil as ->.
    apply app_inj_tail in Heq as [_ <-]. done. }
  (* group by group *)
  assert (∀ k n, k ≠ "max" → shape !! k = Some n →
            ∃ a f, rd_groups rd !! k = Some a
                   ∧ b_fields b2 !! k = Some f
                   ∧ Forall (λ r, length r = length f) a
                   ∧ rd_groups rd2 !! k = Some (drop 1 (a ++ [f])))
    as Hstep.
  { intros k n Hk Hn.
    destruct (Hvalid k n Hn) as [|Hrange]; [done|].
    destruct (Hgroups k n Hk Hn) as (fs & Hfs & Ha).
    destruct (Hgroups2 k n Hk Hn) as (fs2 & Hfs2 & Ha2).
    assert (k ∈ feat_group_inds shape) as Hin
      by (apply elem_of_feat_group_inds; eauto).
    destruct (conforming_field c shape widths Hwidths Hstore _ _ k
                Hb2 Hin) as (f & w & Hw & Hf & Hlenf).
    pose proof (stored_fields cfg c k _ _ _ Hbs Hfs) as HF.
    pose proof (stored_fields cfg c k _ _ _ Hbs2 Hfs2) as HF2.
    assert (fs2 = drop 1 fs ++ [f]) as ->.
    { apply fmap_Some_inj. rewrite <-HF2, Hjs2, fmap_app, fmap_drop, HF.
      rewrite fmap_app, fmap_drop. f_equal. simpl. rewrite Hb2. simpl.
      by rewrite Hf. }
    assert (Z.of_nat (length fs) = mx + 1) as Hlen.
    { rewrite <-(Forall2_length _ _ _ Hfs), <-(Forall2_length _ _ _ Hbs).
      rewrite length_seqZ. lia. }
    exists (py_slice_from (- n) fs), f. split_and!; try done.
    - apply Forall_py_slice_from, Forall_forall. intros f' Hf'.
      apply list_elem_of_lookup in Hf' as [p Hf'].
      destruct (Forall2_lookup_r _ _ _ _ _ Hfs Hf') as (b' & Hb' & Hbf).
      destruct (Forall2_lookup_r _ _ _ _ _ Hbs Hb') as (j & _ & Hjb).
      destruct (conforming_field c shape widths Hwidths Hstore _ _ k
                  Hjb Hin) as (f'' & w' & Hw' & Hf'' & Hlen').
      simpl in Hbf. congruence.
    - rewrite Ha2. f_equal. apply slide_suffix. lia. }
  unfold update_raw_data, client_get. fold (key_of cfg (i + 1)).
  rewrite Hc1, Hb2. simpl.
  destruct (shift_groups_Ok (feat_group_inds shape) b2 (rd_groups rd)
              (NoDup_feat_group_inds shape)) as [groups Hshift].
  { intros k [Hk [n Hn]]%elem_of_feat_group_inds.
    destruct (Hstep k n Hk Hn) as (a & f & ? & ? & ? & _). eauto. }
  rewrite Hshift. simpl. f_equal.
  injection Hside2 as Hd Ht Hda.
  destruct rd2 as [groups2 d2 t2 da2]. simpl in *. subst d2 t2 da2.
  f_equal. apply map_eq. intros k.
  destruct (shift_groups_Ok_inv _ _ _ _ (NoDup_feat_group_inds shape)
              Hshift k) as [Hin Hout].
  destruct (decide (k ∈ feat_group_inds shape)) as [Hk|Hk].
  - destruct (Hin Hk) as (a & f & Ha & Hf & ->).
    apply elem_of_feat_group_inds in Hk as [Hk [n Hn]].
    destruct (Hstep k n Hk Hn) as (a' & f' & Ha' & Hf' & _ & ->).
    congruence.
  - rewrite (Hout Hk), Hdom, Hdom2; done.
Qed.

Lemma update_after_init_witness :
  ∃ rd rd2,
    (init_raw_data Scenario.cfg Scenario.store Sliding.raw_data_shape 5).1
    = Ok rd
    ∧ (init_raw_data Scenario.cfg Scenario.store Sliding.raw_data_shape 6).1
      = Ok rd2
    ∧ (update_raw_data Scenario.cfg Scenario.store Sliding.raw_data_shape
         rd 6).1 = Ok rd2.
Proof.
  assert (valid_shape Sliding.raw_data_shape) as Hshape by by_computation.
  assert (Sliding.raw_data_shape !! "max" = Some 4) as Hmax by reflexivity.
  assert (dom (delete "max" Sliding.raw_data_shape) ⊆ dom Scenario.widths)
    as Hwidths by by_computation.
  assert (map_Forall (λ _ b, conforms Scenario.widths b)
            (records Scenario.store)) as Hstore by by_computation.
  destruct (update_after_init Scenario.cfg Scenario.store
              Sliding.raw_data_shape Scenario.widths 4 5 Hshape Hmax
              ltac:(lia) Hwidths Hstore)
    as (rd & rd2 & Hrd & Hrd2 & Hslide).
  { by_computation. }
  exists rd, rd2. split_and!; [exact Hrd|exact Hrd2|].
  apply Hslide. reflexivity.
Defined.

(** ** The observation builder: shapes, requirements, what it touches *)

Lemma zip_with_insert_lengths (vals : list Q) (rows : list (list Q)) :
  length vals = length rows →
  Forall2 (λ r r', length r' = length r ∧ drop 1 r' = drop 1 r) rows
    (zip_with (λ x r, <[0%nat := x]> r) vals rows).
Proof.
  revert vals. induction rows as [|r rows IH]; intros [|x vals] Hlen;
    try done; simpl in *.
  constructor; [|apply IH; lia].
  split; [apply length_insert | by destruct r].
Qed.

Lemma treated_nonempty {TC} (apply_transform : ndarray → TC → ndarray)
    pip tcs ds out :
  treated apply_transform pip tcs ds = Ok out →
  ds ≠ [] ∧ Forall (λ r, r ≠ []) ds.
Proof.
  unfold treated. intros Hrun.
  apply bind_Ok_inv in Hrun as (col & Hcol & Hrun).
  apply bind_Ok_inv in Hrun as (final & Hfinal & _).
  assert (Forall (λ r : list Q, r ≠ []) ds ∧ length col = length ds)
    as [Hrows Hlen].
  { clear Hfinal. revert col Hcol. unfold get_col.
    induction ds as [|r ds IH]; intros col Hcol; simpl in Hcol.
    - by injection Hcol as <-.
    - apply bind_Ok_inv in Hcol as (x & Hx%list_getitem_Ok & Hcol).
      apply bind_Ok_inv in Hcol as (col' & Hcol' & [= <-]).
      destruct (IH _ Hcol') as [? ?]. split; [|simpl; lia].
      constructor; [|done]. by intros ->. }
  split; [|done]. intros ->. destruct col; [|done].
  unfold py_last in Hfinal. done.
Qed.

Section get_obs_more.
Context {TC : Type} (apply_transform : ndarray → TC → ndarray).
Context (config : agent_config TC).

Lemma get_obs_frame obs_interval rd obs rd' k :
  get_obs apply_transform config obs_interval rd = Ok (obs, rd') →
  (∀ idx, (idx < size obs_interval)%nat → k ≠ pretty idx) →
  rd_groups rd' !! k = rd_groups rd !! k.
Proof.
  unfold get_obs. intros Hrun Hk.
  apply bind_Ok_inv in Hrun as (obs0 & Hdown & Hrun).
  apply bind_Ok_inv in Hrun as ([obs1 raw1] & Hloop & [= <- <-]). simpl.
  destruct (treat_loop_inv apply_transform config _ (NoDup_seq 0 _) _ _ _ _
              Hloop) as [_ Hout].
  - intros i e _ He.
    destruct (downsample_loop_inv _ _ _ _ _ Hdown _ e He)
      as [Hacc|(step & ? & ? & _)].
    + by rewrite lookup_empty in Hacc.
    + eauto.
  - apply Hout. intros idx [_ Hidx]%elem_of_seq. apply Hk.
    rewrite <-size_dom. exact Hidx.
Qed.
End get_obs_more.

(** X4: the shape of an observation.  For every group index below the
    number of groups, the array [get_obs] returns has one row less than the
    downsampled buffer, that is [ceil(len / stride) - 1] rows, each as wide
    as the buffer row it comes from; the buffer is not empty and every
    downsampled row has a channel 0.  [date_arr] is the window's. *)
Theorem get_obs_shape {TC} (apply_transform : ndarray → TC → ndarray)
    config obs_interval rd obs rd' idx :
  get_obs apply_transform config obs_interval rd = Ok (obs, rd') →
  (idx < size obs_interval)%nat →
  o_date_arr obs = rd_date_arr rd
  ∧ ∃ step buf out,
      obs_interval !! pretty idx = Some step
      ∧ step ≠ 0%nat
      ∧ rd_groups rd !! pretty idx = Some buf
      ∧ buf ≠ []
      ∧ Forall (λ r, r ≠ []) (slice_step step buf)
      ∧ o_groups obs !! pretty idx = Some (Owned out)
      ∧ length out = ((length buf + (step - 1)) / step - 1)%nat
      ∧ Forall2 (λ r r', length r' = length r)
          (drop 1 (slice_step step buf)) out.
Proof.
  intros Hrun Hidx.
  split; [by destruct (get_obs_side_channels _ _ _ _ _ _ Hrun)|].
  destruct (get_obs_group _ _ _ _ _ _ idx Hrun Hidx)
    as (step & buf & info & tcs & out & vals & Hstep & Hnz & Hbuf & _
        & Htreated & -> & Hlen & Hobs & _).
  destruct (treated_nonempty _ _ _ _ _ Htreated) as [Hne Hrows].
  exists step, buf. eexists. split_and!; try done.
  - intros ->. by apply Hne.
  - rewrite length_zip_with, Hlen, Nat.min_id, length_drop.
    by rewrite length_slice_step.
  - eapply Forall2_impl; [by apply zip_with_insert_lengths|].
    by intros r r' [? _].
Qed.

Lemma get_obs_shape_witness :
  ∃ out,
    obs_group (get_obs Scenario.no_transform Scenario.config
                 Scenario.obs_interval Scenario.window) "0"
    = Some (Owned out)
    ∧ length out = 9%nat.
Proof.
  destruct (get_obs Scenario.no_transform Scenario.config
              Scenario.obs_interval Scenario.window) as [[obs rd']|e]
    eqn:Hrun; [|vm_compute in Hrun; discriminate].
  destruct (get_obs_shape Scenario.no_transform Scenario.config
              Scenario.obs_interval Scenario.window obs rd' 0 Hrun)
    as (_ & step & buf & out & Hstep & _ & Hbuf & _ & _ & Hobs & Hlen & _).
  { vm_compute. lia. }
  injection Hstep as <-. injection Hbuf as <-.
  exists out. split; [exact Hobs|exact Hlen].
Defined.

Lemma get_obs_keys {TC} (apply_transform : ndarray → TC → ndarray)
    config obs_interval rd obs rd' :
  get_obs apply_transform config obs_interval rd = Ok (obs, rd') →
  dom obs_interval
  = list_to_set (pretty <$> seq 0 (size obs_interval))
  ∧ ∀ k step, obs_interval !! k = Some step →
      step ≠ 0%nat ∧ is_Some (rd_groups rd !! k)
      ∧ ∃ idx, (idx < size obs_interval)%nat ∧ k = pretty idx.
Proof.
  intros Hrun.
  assert (dom obs_interval
          = list_to_set (pretty <$> seq 0 (size obs_interval))) as Hdom.
  { symmetry. apply set_subseteq_size_eq.
    - intros k [idx [-> [_ Hidx]%elem_of_seq]]%elem_of_list_to_set
                                              %list_elem_of_fmap.
      destruct (get_obs_group _ _ _ _ _ _ idx Hrun Hidx)
        as (step & _ & _ & _ & _ & _ & Hstep & _).
      apply elem_of_dom. eauto.
    - rewrite size_list_to_set, length_fmap, length_seq, size_dom; [done|].
      apply NoDup_fmap_2, NoDup_seq. apply _. }
  split; [done|]. intros k step Hk.
  assert (k ∈ dom obs_interval) as Hin by (apply elem_of_dom; eauto).
  rewrite Hdom in Hin.
  apply elem_of_list_to_set, list_elem_of_fmap in Hin
    as [idx [-> [_ Hidx]%elem_of_seq]].
  destruct (get_obs_group _ _ _ _ _ _ idx Hrun Hidx)
    as (step' & buf & _ & _ & _ & _ & Hstep & Hnz & Hbuf & _).
  rewrite Hk in Hstep. injection Hstep as <-.
  split_and!; eauto.
Qed.

(** X5: what [get_obs] requires.  When it returns, the keys of
    [obs_interval] are exactly ["0"], ..., ["N-1"] for [N] its size, every
    stride is nonzero, and every key has a buffer in the window. *)
Theorem get_obs_requires {TC} (apply_transform : ndarray → TC → ndarray)
    config obs_interval rd obs rd' :
  get_obs apply_transform config obs_interval rd = Ok (obs, rd') →
  dom obs_interval
  = list_to_set (pretty <$> seq 0 (size obs_interval))
  ∧ ∀ k step, obs_interval !! k = Some step →
      step ≠ 0%nat ∧ is_Some (rd_groups rd !! k)
      ∧ ∃ idx, (idx < size obs_interval)%nat ∧ k = pretty idx.
Proof. apply get_obs_keys. Qed.

Lemma get_obs_requires_witness :
  dom Scenario.obs_interval
  = list_to_set (pretty <$> seq 0 (size Scenario.obs_interval)).
Proof.
  destruct (get_obs Scenario.no_transform Scenario.config
              Scenario.obs_interval Scenario.window) as [[obs rd']|e]
    eqn:Hrun; [|vm_compute in Hrun; discriminate].
  exact (proj1 (get_obs_requires Scenario.no_transform Scenario.config
                  Scenario.obs_interval Scenario.window obs rd' Hrun)).
Defined.

Lemma write_every_nth_rows step c vals (l : list (list Q)) :
  Forall2 (λ r r', length r' = length r ∧ drop 1 r' = drop 1 r) l
    (write_every_nth step c vals l).
Proof.
  revert c vals. induction l as [|r l IH]; intros c vals; simpl; [done|].
  destruct c as [|c].
  - destruct vals as [|x vals].
    + apply Forall2_same_length_lookup_2; [done|]. by intros i ? ? -> [= ->].
    + constructor; [|apply IH].
      split; [apply length_insert | by destruct r].
  - constructor; [done|apply IH].
Qed.

Lemma view_write_col0_rows v vals (a : list (list Q)) :
  Forall2 (λ r r', length r' = length r ∧ drop 1 r' = drop 1 r) a
    (view_write_col0 v vals a).
Proof.
  unfold view_write_col0. rewrite <-(take_drop (v_start v) a) at 1.
  apply Forall2_app; [|apply write_every_nth_rows].
  apply Forall2_same_length_lookup_2; [done|]. by intros i ? ? -> [= ->].
Qed.

Lemma view_write_col0_first v vals (a : list (list Q)) :
  (v_start v ≠ 0)%nat → view_write_col0 v vals a !! 0%nat = a !! 0%nat.
Proof.
  intros Hstart. unfold view_write_col0.
  destruct a as [|r a]; [by rewrite take_nil, drop_nil|].
  destruct (v_start v) as [|n]; done.
Qed.

(** X6: what [get_obs] does to the window it reads.  The side channels and
    every buffer whose key is not in [obs_interval] are untouched; in the
    other buffers it may overwrite channel 0 of rows after the first, and
    nothing else: the numbers of rows and of channels, the first row and
    the channels after channel 0 stay as they were, so the window keeps its
    length invariant. *)
Theorem get_obs_footprint {TC} (apply_transform : ndarray → TC → ndarray)
    config obs_interval rd obs rd' :
  get_obs apply_transform config obs_interval rd = Ok (obs, rd') →
  (rd_date rd', rd_trade_price rd', rd_date_arr rd')
  = (rd_date rd, rd_trade_price rd, rd_date_arr rd)
  ∧ (∀ k, obs_interval !! k = None →
          rd_groups rd' !! k = rd_groups rd !! k)
  ∧ (∀ k, option_Forall2
            (λ buf buf',
               buf' !! 0%nat = buf !! 0%nat
               ∧ Forall2 (λ r r', length r' = length r
                                  ∧ drop 1 r' = drop 1 r) buf buf')
            (rd_groups rd !! k) (rd_groups rd' !! k))
  ∧ (∀ shape, window_ok shape rd → window_ok shape rd').
Proof.
  intros Hrun.
  destruct (get_obs_keys _ _ _ _ _ _ Hrun) as [Hdom Hkeys].
  assert (∀ k, (∀ idx, (idx < size obs_interval)%nat → k ≠ pretty idx) →
               rd_groups rd' !! k = rd_groups rd !! k) as Hframe
    by (intros k; by apply (get_obs_frame apply_transform config _ _ obs)).
  assert (∀ k, option_Forall2
            (λ buf buf',
               buf' !! 0%nat = buf !! 0%nat
               ∧ Forall2 (λ r r', length r' = length r
                                  ∧ drop 1 r' = drop 1 r) buf buf')
            (rd_groups rd !! k) (rd_groups rd' !! k)) as Hrel.
  { intros k.
    destruct (decide (k ∈ pretty <$> seq 0 (size obs_interval)))
      as [[idx [-> [_ Hidx]%elem_of_seq]]%list_elem_of_fmap|Hout].
    - destruct (get_obs_group _ _ _ _ _ _ idx Hrun Hidx)
        as (step & buf & _ & _ & _ & vals & _ & Hnz & -> & _ & _ & _ & _ & _
            & ->).
      constructor. split.
      + by apply view_write_col0_first.
      + apply view_write_col0_rows.
    - rewrite Hframe.
      + destruct (rd_groups rd !! k) as [buf|]; constructor.
        split; [done|]. apply Forall2_same_length_lookup_2; [done|].
        by intros i ? ? -> [= ->].
      + intros idx Hidx ->. apply Hout, list_elem_of_fmap.
        exists idx. split; [done|]. apply elem_of_seq. lia. }
  split_and!; try done.
  - by destruct (get_obs_side_channels _ _ _ _ _ _ Hrun).
  - intros k Hnone. apply Hframe. intros idx Hidx ->.
    destruct (get_obs_group _ _ _ _ _ _ idx Hrun Hidx)
      as (step & _ & _ & _ & _ & _ & Hstep & _). congruence.
  - intros shape Hok k n Hn. destruct (Hok k n Hn) as [|Hlen]; [by left|].
    right. specialize (Hrel k).
    destruct Hrel as [buf buf' [_ Hrows]|]; [|done].
    simpl in *. by rewrite <-(Forall2_length _ _ _ Hrows).
Qed.

Lemma get_obs_footprint_witness :
  ∃ obs rd',
    get_obs Scenario.no_transform Scenario.config Scenario.obs_interval
      Scenario.window = Ok (obs, rd')
    ∧ rd_date rd' = 10
    ∧ window_ok Scenario.raw_data_shape rd'.
Proof.
  destruct (get_obs Scenario.no_transform Scenario.config
              Scenario.obs_interval Scenario.window) as [[obs rd']|e]
    eqn:Hrun; [|vm_compute in Hrun; discriminate].
  destruct (get_obs_footprint Scenario.no_transform Scenario.config
              Scenario.obs_interval Scenario.window obs rd' Hrun)
    as (Hside & _ & _ & Hwin).
  exists obs, rd'. split_and!; [reflexivity| |].
  - by injection Hside as -> _ _.
  - apply Hwin.
    assert (valid_shape Scenario.raw_data_shape) as Hshape by by_computation.
    apply (init_raw_data_window_ok Scenario.cfg Scenario.store
             Scenario.raw_data_shape 10 Scenario.window
             (init_raw_data Scenario.cfg Scenario.store
                Scenario.raw_data_shape 10).2 Hshape).
    vm_compute. reflexivity.
Defined.

(** ** Price sampling: the length of the price vector *)

(** X7: [get_curr_price] reads exactly the first [4 * n] prices.  With
    fewer it never returns a matrix: it raises, and what it raises is
    [IndexError] when [sample_price] can draw from every pair there is.
    With at least [4 * n], the prices beyond the first [4 * n] change
    nothing (neither the matrix, nor the generator state, nor an
    exception), and a matrix it returns has [n] rows. *)
Theorem get_curr_price_reads {rng}
    (randint : Z → Z → rng → result (Z * rng))
    (symbol_info : list SymbolSpec) (info0 : SymbolSpec)
    (price : list float) (g : rng) :
  symbol_info !! 0%nat = Some info0 →
  ((length price < length symbol_info * 4)%nat →
     ∃ e, get_curr_price randint symbol_info price g = Raise e
          ∧ (randint_spec randint →
             drawable_pairs (float_of_decimal (pip info0)) price →
             e = IndexError))
  ∧ ((length symbol_info * 4 ≤ length price)%nat →
       get_curr_price randint symbol_info price g
       = get_curr_price randint symbol_info
           (take (length symbol_info * 4) price) g
       ∧ ∀ m g', get_curr_price randint symbol_info price g = Ok (m, g') →
                 length m = length symbol_info).
Proof.
  intros Hinfo0. split.
  - intros Hshort. unfold get_curr_price.
    apply (price_loop_short randint symbol_info info0 Hinfo0 price
             (length symbol_info) 0%nat []); [done|]. lia.
  - intros Hlong.
    pose proof (get_curr_price_rows_eq randint symbol_info info0 Hinfo0)
      as Hrows.
    split.
    + rewrite (Hrows price g Hlong).
      rewrite (Hrows (take (length symbol_info * 4) price) g)
        by (rewrite length_take; lia).
      by rewrite take_take, Nat.min_id.
    + intros m g'. rewrite (Hrows price g Hlong). intros Hrun.
      eapply length_sample_rows; [|exact Hrun].
      rewrite length_take. lia.
Qed.

Lemma get_curr_price_reads_witness :
  get_curr_price randint_low Prices.symbol_info (take 7 Prices.price) tt
  = Raise IndexError.
Proof.
  destruct (proj1 (get_curr_price_reads randint_low Prices.symbol_info
                     Prices.nd100 (take 7 Prices.price) tt eq_refl))
    as (e & Hrun & He).
  { simpl. lia. }
  rewrite Hrun. f_equal. apply He; [exact randint_low_spec|].
  unfold Prices.price. cbn [fmap list_fmap take drawable_pairs].
  split_and!; [drawable_now..|exact I].
Defined.

(** ** Position values: saturation *)

(** X8: whatever the log-tail kernel, as long as it preserves signs,
    [scale_pos_val] saturates: a position value of at least 200/3 pips is
    mapped to exactly 2, one of at most -200/3 pips to exactly -2. *)
Theorem scale_pos_val_saturates (log_tail : R → Z → Z → R) (x : R) :
  log_tail_spec log_tail →
  ((200 / 3 <= x)%R → scale_pos_val log_tail [x] = [2%R])
  ∧ ((x <= - (200 / 3))%R → scale_pos_val log_tail [x] = [(-2)%R]).
Proof.
  intros Hspec. rewrite scale_pos_val_elementwise. simpl.
  unfold scaled, np_clip, Rmin, Rmax. split; intros Hx.
  - pose proof (log_tail_sign_pos _ Hspec x 0 (-1) ltac:(done) ltac:(lra)).
    f_equal. repeat destruct (Rle_dec _ _); lra.
  - pose proof (log_tail_sign_neg _ Hspec x 0 (-1) ltac:(done) ltac:(lra)).
    f_equal. repeat destruct (Rle_dec _ _); lra.
Qed.

Lemma scale_pos_val_saturates_witness :
  scale_pos_val ln_tail [100%R] = [2%R].
Proof.
  apply (proj1 (scale_pos_val_saturates ln_tail 100 ln_tail_spec)). lra.
Defined.

(** ** Portfolio encoding: the layout of the flat vector *)

Lemma lookup_slice_step {A} step (l : list A) c : (step ≠ 0)%nat →
  slice_step step l !! c = l !! (c * step)%nat.
Proof.
  intros Hstep. revert l. induction c as [|c IH]; intros l.
  - by destruct l.
  - transitivity (drop 1 (slice_step step l) !! c);
      [by rewrite lookup_drop|].
    rewrite <-slice_step_tail by done. rewrite IH, lookup_drop.
    f_equal.
Qed.

Lemma lookup_concat_uniform {A} (n : nat) (ls : list (list A)) :
  Forall (λ l, length l = n) ls →
  ∀ i c l, ls !! i = Some l → (c < n)%nat →
           concat ls !! (i * n + c)%nat = l !! c.
Proof.
  induction 1 as [|l0 ls Hl0 _ IH]; intros i c l Hi Hc; [done|].
  destruct i as [|i]; simpl in *.
  - simplify_eq. rewrite lookup_app_l by lia. done.
  - rewrite lookup_app_r by lia. rewrite <-(IH i c l Hi Hc).
    f_equal. lia.
Qed.

Lemma length_concat_uniform {A} (n : nat) (ls : list (list A)) :
  Forall (λ l, length l = n) ls → length (concat ls) = (length ls * n)%nat.
Proof.
  induction 1 as [|l0 ls Hl0 _ IH]; [done|].
  simpl. rewrite length_app, IH, Hl0. done.
Qed.

(** X9: on a well-formed portfolio of [K] rows and [W >= 13] columns,
    [portfolio_to_model_input] returns [K * n] numbers, [n = (W + 1) / 7],
    laid out row by row.  Entry [c] of row [i] comes from column [5 + 7c]:
    the first is that column times column 6 over 2.0, the second is column
    12 scaled, and every later one is the column as it is. *)
Theorem portfolio_layout (log_tail : R → Z → Z → R) (p : matrix R)
    (i c : nat) (r : list R) :
  matrix_wf p →
  (13 ≤ m_cols p)%nat →
  m_rows p !! i = Some r →
  (5 + 7 * c < m_cols p)%nat →
  let n := ((m_cols p + 1) / 7)%nat in
  ∃ out,
    portfolio_to_model_input log_tail p = Ok out
    ∧ length out = (length (m_rows p) * n)%nat
    ∧ (c < n)%nat
    ∧ out !! (i * n + c)%nat
      = Some (match c with
              | 0%nat => (nth 5 r 0 * nth 6 r 0 / 2.0)%R
              | 1%nat => scaled log_tail (nth 12 r 0%R)
              | _ => nth (5 + 7 * c) r 0%R
              end).
Proof.
  intros Hwf Hw Hi Hc. cbv zeta.
  set (n := ((m_cols p + 1) / 7)%nat).
  exists (concat (encode_row log_tail <$> m_rows p)).
  assert (Forall (λ l, length l = n) (encode_row log_tail <$> m_rows p))
    as Huniform.
  { apply Forall_fmap. eapply Forall_impl; [exact Hwf|].
    intros r' Hr'. simpl in *.
    rewrite length_encode_row, length_slice_step, length_drop, Hr' by done.
    unfold n. by replace (m_cols p - 5 + (7 - 1))%nat with (m_cols p + 1)%nat
      by lia. }
  assert (c < n)%nat as Hcn.
  { unfold n. apply Nat.div_le_lower_bound; lia. }
  assert (length r = m_cols p) as Hr.
  { by eapply (proj1 (Forall_lookup _ _) Hwf). }
  split_and!.
  - by apply portfolio_rows.
  - by rewrite (length_concat_uniform n), length_fmap.
  - done.
  - rewrite (lookup_concat_uniform n _ Huniform i c (encode_row log_tail r));
      [|by rewrite list_lookup_fmap, Hi|done].
    assert (∀ d, slice_step 7 (drop 5 r) !! d = r !! (5 + 7 * d)%nat)
      as Hsel.
    { intros d. rewrite lookup_slice_step, lookup_drop by done.
      f_equal. lia. }
    assert (∀ j, (j < length r)%nat → r !! j = Some (nth j r 0%R)) as Hnth.
    { intros j Hj. destruct (lookup_lt_is_Some_2 r j Hj) as [x Hx].
      rewrite Hx. f_equal. symmetry. by apply nth_lookup_Some. }
    pose proof (Hsel 0%nat) as H0. pose proof (Hsel 1%nat) as H1.
    pose proof (Hsel c) as Hc'.
    rewrite Hnth in H0 by lia. rewrite Hnth in H1 by lia.
    rewrite Hnth in Hc' by lia.
    unfold encode_row.
    destruct (slice_step 7 (drop 5 r)) as [|v0 [|v1 rest]]; [done..|].
    simpl in H0, H1. simplify_eq.
    destruct c as [|[|c]]; [done..|]. exact Hc'.
Qed.

Lemma portfolio_layout_witness :
  ∃ out,
    portfolio_to_model_input ln_tail Portfolio.two_slots = Ok out
    ∧ length out = 2%nat
    ∧ out !! 0%nat = Some (1 * 2 / 2.0)%R.
Proof.
  assert (matrix_wf Portfolio.two_slots) as Hwf
    by (repeat constructor).
  destruct (portfolio_layout ln_tail Portfolio.two_slots 0 0
              [0; 0; 0; 0; 0; 1; 2; 0; 0; 0; 0; 0; 0; 0]%R Hwf
              ltac:(simpl; lia) eq_refl ltac:(simpl; lia))
    as (out & Hout & Hlen & _ & Hfirst).
  exists out. split_and!; [exact Hout|exact Hlen|exact Hfirst].
Defined.

(** ** The configuration builder: the symbol table *)

Import ConfigBuilder.

Section ticker_info_correct.
Context {TC : Type}.
Context (table : gmap string (gmap string instrument)) (broker : string).

Lemma add_symbol_Ok_inv (fc : SimpleFeatureConfig TC) st st' :
  indexed table broker st →
  add_symbol table broker fc st = Ok st' →
  indexed table broker st'
  ∧ (∀ s, s ∈ spec_symbol <$> st'.1
          ↔ s ∈ spec_symbol <$> st.1 ∨ s = symbol fc).
Proof.
  destruct st as [info index]. intros (Hnd & Hidx & Htab) Hrun.
  unfold add_symbol in Hrun. simpl in Hnd, Hidx, Htab.
  destruct (decide (symbol fc ∈ spec_symbol <$> info)) as [Hin|Hnin].
  - injection Hrun as <-. split; [done|]. intros s. simpl.
    split; [by left|]. by intros [?| ->].
  - apply bind_Ok_inv in Hrun as (instruments & Hbroker%getitem_Ok & Hrun).
    apply bind_Ok_inv in Hrun as (ins & Hins%getitem_Ok & Hrun).
    injection Hrun as <-. split.
    + unfold indexed. simpl. rewrite fmap_app. simpl. split_and!.
      * apply NoDup_app. split_and!; [done| |apply NoDup_singleton].
        by intros s Hs ->%list_elem_of_singleton.
      * intros s i. destruct (decide (s = symbol fc)) as [->|Hne].
        -- rewrite lookup_insert_eq. split.
           ++ intros [= <-].
              rewrite lookup_app_r by (by rewrite length_fmap).
              by rewrite length_fmap, Nat.sub_diag.
           ++ intros Hi. f_equal.
              apply lookup_app_Some in Hi as [Hi|[Hlen Hi]].
              ** exfalso. apply Hnin. by eapply list_elem_of_lookup_2.
              ** apply list_lookup_singleton_Some in Hi as [Hi _].
                 rewrite length_fmap in Hlen, Hi. lia.
        -- rewrite lookup_insert_ne by done. rewrite Hidx. split.
           ++ intros Hi. rewrite lookup_app_l; [done|].
              by eapply lookup_lt_Some.
           ++ intros Hi. apply lookup_app_Some in Hi as [Hi|[_ Hi]]; [done|].
              apply list_lookup_singleton_Some in Hi as [_ ?]. congruence.
      * apply Forall_app. split; [done|]. constructor; [|done].
        by exists instruments, ins.
    + intros s. simpl. rewrite fmap_app, elem_of_app. simpl.
      by rewrite list_elem_of_singleton.
Qed.

Lemma add_symbol_Raise (fc : SimpleFeatureConfig TC) st e :
  add_symbol table broker fc st = Raise e →
  e = KeyError ∧ table !! broker ≫= (.!! symbol fc) = None.
Proof.
  destruct st as [info index]. unfold add_symbol. intros Hrun.
  destruct (decide (symbol fc ∈ spec_symbol <$> info)); [done|].
  unfold getitem in Hrun.
  destruct (table !! broker) as [instruments|]; simpl in *;
    [|by injection Hrun as <-].
  destruct (instruments !! symbol fc); simpl in *; [done|].
  by injection Hrun as <-.
Qed.

Lemma add_symbol_Ok (fc : SimpleFeatureConfig TC) st :
  is_Some (table !! broker ≫= (.!! symbol fc)) →
  ∃ st', add_symbol table broker fc st = Ok st'.
Proof.
  intros [ins Hins]. destruct st as [info index]. unfold add_symbol.
  destruct (decide (symbol fc ∈ spec_symbol <$> info)); [eauto|].
  unfold getitem.
  destruct (table !! broker) as [instruments|]; simpl in *; [|done].
  rewrite Hins. simpl. eauto.
Qed.

Lemma add_group_Ok_inv (fcs : list (SimpleFeatureConfig TC)) : ∀ st st',
  indexed table broker st →
  for_each (add_symbol table broker) fcs st = Ok st' →
  indexed table broker st'
  ∧ (∀ s, s ∈ spec_symbol <$> st'.1
          ↔ s ∈ spec_symbol <$> st.1 ∨ s ∈ symbol <$> fcs).
Proof.
  induction fcs as [|fc fcs IH]; intros st st' Hst Hrun; simpl in Hrun.
  - injection Hrun as <-. split; [done|]. intros s. split; [by left|].
    intros [?|Hin]; [done|]. inversion Hin.
  - apply bind_Ok_inv in Hrun as (st1 & Hfc & Hrun).
    destruct (add_symbol_Ok_inv fc st st1 Hst Hfc) as [Hst1 Hsym1].
    destruct (IH st1 st' Hst1 Hrun) as [Hst' Hsym']. split; [done|].
    intros s. rewrite Hsym', Hsym1. cbn [fmap list_fmap].
    rewrite elem_of_cons. tauto.
Qed.

Lemma ticker_loop_Ok_inv (feature_spec : list (FeatureGroupConfig TC)) :
  ∀ st st',
    indexed table broker st →
    for_each (add_group table broker) feature_spec st = Ok st' →
    indexed table broker st'
    ∧ (∀ s, s ∈ spec_symbol <$> st'.1
            ↔ s ∈ spec_symbol <$> st.1 ∨ s ∈ feature_symbols feature_spec).
Proof.
  induction feature_spec as [|fg rest IH]; intros st st' Hst Hrun;
    simpl in Hrun.
  - injection Hrun as <-. split; [done|]. intros s. split; [by left|].
    intros [?|Hin]; [done|]. inversion Hin.
  - apply bind_Ok_inv in Hrun as (st1 & Hfg & Hrun).
    destruct (add_group_Ok_inv _ st st1 Hst Hfg) as [Hst1 Hsym1].
    destruct (IH st1 st' Hst1 Hrun) as [Hst' Hsym']. split; [done|].
    intros s. rewrite Hsym', Hsym1. unfold feature_symbols.
    cbn [fmap list_fmap concat]. rewrite fmap_app, elem_of_app. tauto.
Qed.

Lemma ticker_loop_Raise (feature_spec : list (FeatureGroupConfig TC)) :
  ∀ st e,
    for_each (add_group table broker) feature_spec st = Raise e →
    e = KeyError
    ∧ ∃ s, s ∈ feature_symbols feature_spec
           ∧ table !! broker ≫= (.!! s) = None.
Proof.
  assert (∀ (fcs : list (SimpleFeatureConfig TC)) st e,
            for_each (add_symbol table broker) fcs st = Raise e →
            e = KeyError
            ∧ ∃ s, s ∈ symbol <$> fcs ∧ table !! broker ≫= (.!! s) = None)
    as Hgroup.
  { induction fcs as [|fc fcs IH]; intros st e Hrun; simpl in Hrun; [done|].
    destruct (add_symbol table broker fc st) as [st1|e1] eqn:Hfc;
      simpl in Hrun.
    - destruct (IH _ _ Hrun) as (-> & s & Hs & Hnone). split; [done|].
      exists s. split; [|done]. cbn [fmap list_fmap]. by right.
    - injection Hrun as <-.
      destruct (add_symbol_Raise _ _ _ Hfc) as [-> Hnone]. split; [done|].
      exists (symbol fc). split; [|done]. cbn [fmap list_fmap]. by left. }
  induction feature_spec as [|fg rest IH]; intros st e Hrun; simpl in Hrun;
    [done|].
  destruct (add_group table broker fg st) as [st1|e1] eqn:Hfg; simpl in Hrun.
  - destruct (IH _ _ Hrun) as (-> & s & Hs & Hnone). split; [done|].
    exists s. split; [|done]. unfold feature_symbols in *.
    cbn [fmap list_fmap concat]. rewrite fmap_app, elem_of_app. by right.
  - injection Hrun as <-.
    destruct (Hgroup _ _ _ Hfg) as (-> & s & Hs & Hnone). split; [done|].
    exists s. split; [|done]. unfold feature_symbols.
    cbn [fmap list_fmap concat]. rewrite fmap_app, elem_of_app. by left.
Qed.

Lemma indexed_empty : indexed table broker ([], ∅).
Proof.
  split_and!; simpl.
  - constructor.
  - intros s i. by rewrite lookup_empty, lookup_nil.
  - constructor.
Qed.

Lemma ticker_info_Ok_inv (feature_spec : list (FeatureGroupConfig TC)) st :
  ticker_info table feature_spec broker = Ok st →
  indexed table broker st
  ∧ (∀ s, s ∈ spec_symbol <$> st.1 ↔ s ∈ feature_symbols feature_spec).
Proof.
  intros Hrun.
  destruct (ticker_loop_Ok_inv feature_spec _ _ indexed_empty Hrun)
    as [Hst Hsym].
  split; [done|]. intros s. rewrite Hsym. simpl. split; [|by right].
  intros [Hin|?]; [inversion Hin|done].
Qed.
End ticker_info_correct.

Lemma elem_of_concat {A} (x : A) (ls : list (list A)) :
  x ∈ concat ls ↔ ∃ l, x ∈ l ∧ l ∈ ls.
Proof.
  induction ls as [|l0 ls IH]; simpl.
  - split; [intros Hin; inversion Hin|]. intros (l & _ & Hin). inversion Hin.
  - rewrite elem_of_app, IH. split.
    + intros [Hin|(l & Hx & Hl)]; [exists l0|exists l]; split; try done.
      * by left.
      * by right.
    + intros (l & Hx & [->|Hl]%elem_of_cons); [by left|right; eauto].
Qed.

Lemma elem_of_feature_symbols {TC} (feature_spec : list (FeatureGroupConfig TC))
    s :
  s ∈ feature_symbols feature_spec
  ↔ ∃ fg fc, fg ∈ feature_spec ∧ fc ∈ simple_features fg ∧ symbol fc = s.
Proof.
  unfold feature_symbols. rewrite list_elem_of_fmap. split.
  - intros (fc & -> & Hfc). apply elem_of_concat in Hfc as (l & Hfc & Hl).
    apply list_elem_of_fmap in Hl as (fg & -> & Hfg). by exists fg, fc.
  - intros (fg & fc & Hfg & Hfc & <-). exists fc. split; [done|].
    apply elem_of_concat. exists (simple_features fg). split; [done|].
    apply list_elem_of_fmap. by exists fg.
Qed.

(** X10: the table [get_ticker_info] returns.  The symbols listed are
    distinct and are exactly the symbols the feature specification names;
    the index maps a symbol to [i] exactly when entry [i] of the list is
    that symbol's; every entry carries the fields of
    [trading_instruments[broker][symbol]]. *)
Theorem get_ticker_info_table {TC}
    (feature_spec : list (FeatureGroupConfig TC)) (broker : string)
    (info : list SymbolSpec) (index : gmap string nat) :
  get_ticker_info feature_spec broker = Ok (info, index) →
  NoDup (spec_symbol <$> info)
  ∧ (∀ s i, index !! s = Some i ↔ (spec_symbol <$> info) !! i = Some s)
  ∧ (∀ s, is_Some (index !! s)
          ↔ ∃ fg fc, fg ∈ feature_spec ∧ fc ∈ simple_features fg
                     ∧ symbol fc = s)
  ∧ (∀ i spec, info !! i = Some spec →
       ∃ instruments ins,
         trading_instruments !! broker = Some instruments
         ∧ instruments !! spec_symbol spec = Some ins
         ∧ spec = symbol_spec (spec_symbol spec) ins).
Proof.
  intros Hrun. unfold get_ticker_info in Hrun.
  apply ticker_info_Ok_inv in Hrun as [(Hnd & Hidx & Htab) Hsym].
  simpl in *. split_and!; [done|done| |].
  - intros s. rewrite <-elem_of_feature_symbols, <-Hsym. split.
    + intros [i Hi%Hidx]. by eapply list_elem_of_lookup_2.
    + intros (i & Hi)%list_elem_of_lookup_1. exists i. by apply Hidx.
  - intros i spec Hi. by apply (proj1 (Forall_lookup _ _) Htab i).
Qed.

Lemma get_ticker_info_table_witness :
  ∃ info index,
    get_ticker_info (features Scenario.config2) "metaquotes"
    = Ok (info, index)
    ∧ NoDup (spec_symbol <$> info)
    ∧ index !! "EURUSD" = Some 0%nat.
Proof.
  destruct (get_ticker_info (features Scenario.config2) "metaquotes")
    as [[info index]|e] eqn:Hrun; [|vm_compute in Hrun; discriminate].
  destruct (get_ticker_info_table _ _ _ _ Hrun) as (Hnd & Hidx & _).
  exists info, index. split_and!; [done|exact Hnd|].
  apply Hidx. vm_compute in Hrun. injection Hrun as <- _. reflexivity.
Defined.

(** X11: [get_ticker_info] fails only with [KeyError], and exactly when the
    feature specification names a symbol that
    [trading_instruments[broker]] does not have (an unknown broker has
    none). *)
Theorem get_ticker_info_succeeds_iff {TC}
    (feature_spec : list (FeatureGroupConfig TC)) (broker : string) :
  ((∃ r, get_ticker_info feature_spec broker = Ok r)
   ↔ ∀ fg fc, fg ∈ feature_spec → fc ∈ simple_features fg →
       ∃ instruments,
         trading_instruments !! broker = Some instruments
         ∧ is_Some (instruments !! symbol fc))
  ∧ (∀ e, get_ticker_info feature_spec broker = Raise e → e = KeyError).
Proof.
  unfold get_ticker_info. split; [split|].
  - intros [st Hrun] fg fc Hfg Hfc.
    apply ticker_info_Ok_inv in Hrun as [(_ & _ & Htab) Hsym].
    assert (symbol fc ∈ spec_symbol <$> st.1) as Hin.
    { apply Hsym, elem_of_feature_symbols. by exists fg, fc. }
    apply list_elem_of_fmap in Hin as (spec & Hspec & Hin).
    destruct (proj1 (Forall_forall _ _) Htab spec Hin)
      as (instruments & ins & Hbroker & Hins & _).
    exists instruments. split; [done|]. rewrite Hspec. by exists ins.
  - intros Hall.
    destruct (ticker_info trading_instruments feature_spec broker)
      as [st|e] eqn:Hrun; [eauto|].
    apply ticker_loop_Raise in Hrun as (_ & s & Hs & Hnone).
    apply elem_of_feature_symbols in Hs as (fg & fc & Hfg & Hfc & <-).
    destruct (Hall fg fc Hfg Hfc) as (instruments & Hbroker & [ins Hins]).
    rewrite Hbroker in Hnone. simpl in Hnone. congruence.
  - intros e Hrun. by apply ticker_loop_Raise in Hrun as [-> _].
Qed.

Lemma get_ticker_info_succeeds_iff_witness :
  ∃ r, get_ticker_info (features Scenario.config2) "metaquotes" = Ok r.
Proof.
  apply (proj2 (proj1 (get_ticker_info_succeeds_iff
                         (features Scenario.config2) "metaquotes"))).
  intros fg fc Hfg Hfc. eexists. split; [reflexivity|].
  assert (symbol fc = "EURUSD") as ->.
  { simpl in Hfg. repeat (apply elem_of_cons in Hfg as [->|Hfg]);
      [| |inversion Hfg]; simpl in Hfc;
      (apply elem_of_cons in Hfc as [->|Hfc]; [done|inversion Hfc]). }
  eexists. reflexivity.
Defined.

(** X12: the builder's table feeds the observation builder.  When
    [get_obs] runs on the feature specification with the table
    [get_ticker_info] built for it, group [idx] of the observation is the
    treatment of that group's downsampled buffer with the pip
    [trading_instruments] gives for the symbol of the group's first
    feature, and with that feature's transform chain. *)
Theorem built_config_pip {TC} (apply_transform : ndarray → TC → ndarray)
    (feature_spec : list (FeatureGroupConfig TC)) (broker : string)
    (table : list SymbolSpec * gmap string nat)
    (obs_interval : gmap string nat) (rd rd' : raw_data) (obs : observation)
    (idx : nat) :
  get_ticker_info feature_spec broker = Ok table →
  get_obs apply_transform (obs_config feature_spec table) obs_interval rd
  = Ok (obs, rd') →
  (idx < size obs_interval)%nat →
  ∃ fg fc instruments ins step buf out,
    feature_spec !! idx = Some fg
    ∧ simple_features fg !! 0%nat = Some fc
    ∧ trading_instruments !! broker = Some instruments
    ∧ instruments !! symbol fc = Some ins
    ∧ obs_interval !! pretty idx = Some step
    ∧ rd_groups rd !! pretty idx = Some buf
    ∧ treated apply_transform (i_pip ins) (transforms fc)
        (slice_step step buf) = Ok out
    ∧ o_groups obs !! pretty idx = Some (Owned out).
Proof.
  intros Htable Hrun Hidx. unfold get_ticker_info in Htable.
  apply ticker_info_Ok_inv in Htable as [(_ & Hindex & Htab) _].
  destruct (get_obs_group _ _ _ _ _ _ idx Hrun Hidx)
    as (step & buf & info & tcs & out & vals & Hstep & _ & Hbuf & Hcfg
        & Htreated & _ & _ & Hobs & _).
  destruct Hcfg as (fg & fc & si & Hfg & Hfc & Hsi & Hinfo & ->).
  simpl in Hfg, Hsi, Hinfo.
  destruct (proj1 (Forall_lookup _ _) Htab si info Hinfo)
    as (instruments & ins & Hbroker & Hins & Hspec).
  assert (spec_symbol info = symbol fc) as Hsym.
  { apply Hindex in Hsi. rewrite list_lookup_fmap, Hinfo in Hsi.
    by injection Hsi. }
  exists fg, fc, instruments, ins, step, buf, out.
  rewrite Hsym in Hins. rewrite Hspec in Htreated. simpl in Htreated.
  done.
Qed.

Lemma built_config_pip_witness :
  ∃ out,
    treated Scenario.no_transform 0.0001 []
      (slice_step 1 ((λ n, [(1000 + Z.of_nat n) # 10]) <$> seq 1 10))
    = Ok out.
Proof.
  destruct (get_ticker_info (features Scenario.config) "metaquotes")
    as [table|e] eqn:Htable; [|vm_compute in Htable; discriminate].
  destruct (get_obs Scenario.no_transform
              (obs_config (features Scenario.config) table)
              Scenario.obs_interval Scenario.window) as [[obs rd']|e]
    eqn:Hrun;
    [|vm_compute in Htable; injection Htable as <-;
      vm_compute in Hrun; discriminate].
  destruct (built_config_pip Scenario.no_transform
              (features Scenario.config) "metaquotes" table
              Scenario.obs_interval Scenario.window rd' obs 0 Htable Hrun)
    as (fg & fc & instruments & ins & step & buf & out & Hfg & Hfc & Hbroker
        & Hins & Hstep & Hbuf & Htreated & _).
  { vm_compute. lia. }
  injection Hfg as <-. injection Hfc as <-. injection Hbroker as <-.
  injection Hins as <-. injection Hstep as <-. injection Hbuf as <-.
  exists out. exact Htreated.
Defined.

(** ** The configuration builder: group shapes *)

Lemma sum_columns_inr i0 shapes : ∀ j0 j,
  sum_columns i0 shapes j0 = inr j
  ↔ Forall (λ s, s.1 = i0) shapes
    ∧ j = (j0 + sum_list (snd <$> shapes))%nat.
Proof.
  induction shapes as [|[i1 j1] shapes IH]; intros j0 j; simpl.
  - split.
    + intros [= <-]. split; [constructor|lia].
    + intros [_ ->]. f_equal. lia.
  - destruct (decide (i0 = i1)) as [<-|Hne].
    + rewrite IH. split.
      * intros [Hall ->]. split; [by constructor|].
        symmetry. apply Nat.add_assoc.
      * intros [Hall ->]. split; [by inversion Hall|].
        apply Nat.add_assoc.
    + split; [done|]. intros [Hall _]. inversion Hall. simpl in *.
      congruence.
Qed.

Lemma shape_groups_inr spec : ∀ k m0 m,
  shape_groups k spec m0 = inr m →
  (∀ idx fcs, spec !! idx = Some fcs →
     ∃ i0, output_shapes fcs ≠ []
           ∧ Forall (λ s, s.1 = i0) (output_shapes fcs)
           ∧ m !! pretty (k + idx)%nat
             = Some (i0, sum_list (snd <$> output_shapes fcs))
           ∧ m0 !! timeframe fcs = None
           ∧ ∀ j, (j < idx)%nat → timeframe fcs ≠ pretty (k + j)%nat)
  ∧ (∀ key, (∀ idx, (idx < length spec)%nat → key ≠ pretty (k + idx)%nat) →
            m !! key = m0 !! key).
Proof.
  induction spec as [|fcs rest IH]; intros k m0 m Hrun; simpl in Hrun.
  - injection Hrun as <-. split; [|done]. intros idx fcs Hl.
    by rewrite lookup_nil in Hl.
  - destruct (decide (is_Some (m0 !! timeframe fcs))) as [|Hfresh]; [done|].
    destruct (output_shapes fcs) as [|[i0 j1] shapes] eqn:Hshapes; [done|].
    destruct (sum_columns i0 ((i0, j1) :: shapes) 0) as [e|j0] eqn:Hsum;
      [done|].
    apply sum_columns_inr in Hsum as [Hrows ->].
    destruct (IH _ _ _ Hrun) as [IHin IHout]. split.
    + intros [|idx] fcs' Hl; simpl in Hl.
      * injection Hl as <-. exists i0. rewrite Hshapes.
        split_and!; [done|done| |by apply eq_None_not_Some|intros; lia].
        rewrite Nat.add_0_r, IHout, lookup_insert_eq; [done|].
        intros idx _ Heq%(inj pretty). lia.
      * destruct (IHin idx fcs' Hl)
          as (i0' & Hne & Hrows' & Hm & Hm0 & Hearlier).
        apply lookup_insert_None in Hm0 as [Hm0 Hk].
        exists i0'. split_and!; try done.
        -- by replace (k + S idx)%nat with (S k + idx)%nat by lia.
        -- intros [|j] Hj.
           ++ by rewrite Nat.add_0_r.
           ++ replace (k + S j)%nat with (S k + j)%nat by lia.
              apply Hearlier. lia.
    + intros key Hkey. rewrite IHout, lookup_insert_ne; [done| |].
      * specialize (Hkey 0%nat ltac:(simpl; lia)).
        by rewrite Nat.add_0_r in Hkey.
      * intros idx Hidx.
        replace (S k + idx)%nat with (k + S idx)%nat by lia.
        apply Hkey. simpl. lia.
Qed.

Lemma shape_groups_ok spec : ∀ k m0,
  (∀ idx fcs, spec !! idx = Some fcs →
     output_shapes fcs ≠ []
     ∧ (∃ i0, Forall (λ s, s.1 = i0) (output_shapes fcs))
     ∧ m0 !! timeframe fcs = None
     ∧ ∀ j, (j < idx)%nat → timeframe fcs ≠ pretty (k + j)%nat) →
  ∃ m, shape_groups k spec m0 = inr m.
Proof.
  induction spec as [|fcs rest IH]; intros k m0 Hall; simpl; [eauto|].
  destruct (Hall 0%nat fcs eq_refl) as (Hne & [i0 Hrows] & Hfresh & _).
  rewrite decide_False by (by rewrite Hfresh; intros [? ?]).
  destruct (output_shapes fcs) as [|[i1 j1] shapes] eqn:Hshapes; [done|].
  assert (i1 = i0) as -> by (by inversion Hrows).
  destruct (sum_columns i0 ((i0, j1) :: shapes) 0) as [e|j0] eqn:Hsum.
  - assert (∃ j, sum_columns i0 ((i0, j1) :: shapes) 0 = inr j) as [j Hj]
      by (eexists; by apply sum_columns_inr).
    congruence.
  - apply IH. intros idx fcs' Hl.
    destruct (Hall (S idx) fcs' Hl) as (Hne' & Hrows' & Hfresh' & Hearlier).
    split_and!; [done|done| |].
    + apply lookup_insert_None. split; [done|].
      specialize (Hearlier 0%nat ltac:(lia)).
      rewrite Nat.add_0_r in Hearlier. done.
    + intros j Hj. replace (S k + j)%nat with (k + S j)%nat by lia.
      apply Hearlier. lia.
Qed.

(** X13: the dict [get_feat_group_shape] returns has exactly the keys
    ["0"], ..., [str(N - 1)] for [N] feature groups, and under [str(idx)]
    the pair of the row count all features of group [idx] share and the sum
    of their column counts. *)
Theorem get_feat_group_shape_result (feature_spec : list group_shapes)
    (symbol_structure : gmap string (nat * nat)) :
  get_feat_group_shape feature_spec = inr symbol_structure →
  (∀ key, is_Some (symbol_structure !! key)
          ↔ ∃ idx, (idx < length feature_spec)%nat ∧ key = pretty idx)
  ∧ (∀ idx fcs, feature_spec !! idx = Some fcs →
       ∃ i0, output_shapes fcs ≠ []
             ∧ Forall (λ s, s.1 = i0) (output_shapes fcs)
             ∧ symbol_structure !! pretty idx
               = Some (i0, sum_list (snd <$> output_shapes fcs))).
Proof.
  intros Hrun. apply shape_groups_inr in Hrun as [Hin Hout]. split.
  - intros key. split.
    + intros Hsome.
      destruct (decide (key ∈ pretty <$> seq 0 (length feature_spec)))
        as [Hkey|Hkey].
      * apply list_elem_of_fmap in Hkey as (idx & -> & Hidx%elem_of_seq).
        exists idx. split; [lia|done].
      * rewrite Hout, lookup_empty in Hsome; [by destruct Hsome|].
        intros idx Hidx ->. apply Hkey, list_elem_of_fmap.
        exists idx. split; [done|]. apply elem_of_seq. lia.
    + intros (idx & Hidx & ->).
      destruct (lookup_lt_is_Some_2 feature_spec idx Hidx) as [fcs Hfcs].
      destruct (Hin idx fcs Hfcs) as (i0 & _ & _ & Hm & _).
      by exists (i0, sum_list (snd <$> output_shapes fcs)).
  - intros idx fcs Hfcs.
    destruct (Hin idx fcs Hfcs) as (i0 & ? & ? & ? & _). by exists i0.
Qed.

Lemma get_feat_group_shape_result_witness :
  ∃ symbol_structure,
    get_feat_group_shape
      [ {| timeframe := "M1"; output_shapes := [(10, 1); (10, 2)]%nat |};
        {| timeframe := "M1"; output_shapes := [(5, 4)]%nat |} ]
    = inr symbol_structure
    ∧ symbol_structure !! "1" = Some (5, 4)%nat.
Proof.
  destruct (get_feat_group_shape
              [ {| timeframe := "M1";
                   output_shapes := [(10, 1); (10, 2)]%nat |};
                {| timeframe := "M1"; output_shapes := [(5, 4)]%nat |} ])
    as [e|m] eqn:Hrun; [vm_compute in Hrun; discriminate|].
  exists m. split; [reflexivity|].
  destruct (get_feat_group_shape_result _ _ Hrun) as [_ Hgroups].
  destruct (Hgroups 1%nat _ eq_refl) as (i0 & _ & Hrows & Hm).
  apply Forall_cons in Hrows as [<- _]. exact Hm.
Defined.

(** X14: [get_feat_group_shape] returns a dict exactly when every group has
    a feature, the features of a group agree on the row count, and no
    group's timeframe reads as the index of an earlier group.  The last
    condition is all the [assert timeframe not in symbol_structure] checks:
    the keys of the dict are indices, so two groups with the same timeframe
    pass. *)
Theorem get_feat_group_shape_succeeds_iff (feature_spec : list group_shapes) :
  (∃ symbol_structure, get_feat_group_shape feature_spec = inr symbol_structure)
  ↔ ∀ idx fcs, feature_spec !! idx = Some fcs →
      output_shapes fcs ≠ []
      ∧ (∃ i0, Forall (λ s, s.1 = i0) (output_shapes fcs))
      ∧ ∀ j, (j < idx)%nat → timeframe fcs ≠ pretty j.
Proof.
  unfold get_feat_group_shape. split.
  - intros [m Hrun] idx fcs Hfcs.
    apply shape_groups_inr in Hrun as [Hin _].
    destruct (Hin idx fcs Hfcs) as (i0 & ? & ? & _ & _ & Hearlier).
    split_and!; [done|by exists i0|]. intros j Hj. by apply Hearlier.
  - intros Hall. apply shape_groups_ok. intros idx fcs Hfcs.
    destruct (Hall idx fcs Hfcs) as (? & ? & Hearlier).
    split_and!; [done|done|apply lookup_empty|]. intros j Hj.
    by apply Hearlier.
Qed.

Lemma get_feat_group_shape_succeeds_iff_witness :
  ∃ symbol_structure,
    get_feat_group_shape
      [ {| timeframe := "M1"; output_shapes := [(10, 1)]%nat |};
        {| timeframe := "M1"; output_shapes := [(5, 4)]%nat |} ]
    = inr symbol_structure.
Proof.
  apply (proj2 (get_feat_group_shape_succeeds_iff _)).
  intros [|[|idx]] fcs [= <-]; (split_and!; [done|eexists; by repeat constructor|]).
  - intros j Hj. lia.
  - intros [|j] Hj; [|lia]. discriminate.
Defined.

(** ** The configuration builder: indexing the portfolio *)

Lemma symbol_index_map_snoc l x :
  symbol_index_map (l ++ [x])
  = <[spec_symbol x := (length l, pip x)]> (symbol_index_map l).
Proof.
  unfold symbol_index_map. rewrite length_app. simpl.
  rewrite seq_app. simpl.
  rewrite zip_with_app by (by rewrite length_seq).
  by rewrite foldl_app.
Qed.

Lemma symbol_index_map_lookup l :
  NoDup (spec_symbol <$> l) →
  ∀ s i q, symbol_index_map l !! s = Some (i, q)
           ↔ ∃ spec, l !! i = Some spec ∧ spec_symbol spec = s
                     ∧ q = pip spec.
Proof.
  induction l as [|x l IH] using rev_ind; intros Hnd s i q.
  - unfold symbol_index_map. simpl. rewrite lookup_empty.
    split; [done|]. by intros (spec & Hl & _).
  - rewrite fmap_app in Hnd. apply NoDup_app in Hnd as (Hnd & Hfresh & _).
    rewrite symbol_index_map_snoc.
    destruct (decide (s = spec_symbol x)) as [->|Hne].
    + rewrite lookup_insert_eq. split.
      * intros [= <- <-]. exists x. split; [|done].
        by rewrite lookup_app_r, Nat.sub_diag.
      * intros (spec & Hl & Hsym & ->).
        apply lookup_app_Some in Hl as [Hl|[Hlen Hl]].
        -- exfalso. apply (Hfresh (spec_symbol x)); [|by left].
           rewrite <-Hsym. apply list_elem_of_fmap. exists spec.
           split; [done|]. by eapply list_elem_of_lookup_2.
        -- apply list_lookup_singleton_Some in Hl as [Hi <-].
           do 2 f_equal. lia.
    + rewrite lookup_insert_ne by done. rewrite (IH Hnd). split.
      * intros (spec & Hl & ? & ?). exists spec. split; [|done].
        rewrite lookup_app_l; [done|]. by eapply lookup_lt_Some.
      * intros (spec & Hl & Hsym & ?).
        apply lookup_app_Some in Hl as [Hl|[_ Hl]]; [by exists spec|].
        apply list_lookup_singleton_Some in Hl as [_ <-]. congruence.
Qed.

Lemma index_portfolio_Ok_inv m portfolio : ∀ ps,
  index_portfolio m portfolio = Ok ps →
  Forall2 (λ s p, pos_symbol p = s
                  ∧ m !! s = Some (pos_symbol_index p, pos_pip_val p))
    portfolio ps.
Proof.
  induction portfolio as [|s rest IH]; intros ps Hrun; simpl in Hrun.
  - injection Hrun as <-. constructor.
  - apply bind_Ok_inv in Hrun as (p & Hp & Hrun).
    apply bind_Ok_inv in Hrun as (ps' & Hps' & [= <-]).
    constructor; [|by apply IH]. unfold index_position in Hp.
    apply bind_Ok_inv in Hp as ([i q] & Hs%getitem_Ok & [= <-]). done.
Qed.

Lemma index_portfolio_Ok m portfolio :
  Forall (λ s, is_Some (m !! s)) portfolio →
  ∃ ps, index_portfolio m portfolio = Ok ps.
Proof.
  induction 1 as [|s rest [e He] _ [ps IH]]; simpl; [eauto|].
  unfold index_position, getitem. rewrite He. simpl. rewrite IH. simpl.
  eauto.
Qed.

Lemma index_portfolio_Raise m portfolio : ∀ e,
  index_portfolio m portfolio = Raise e → e = KeyError.
Proof.
  induction portfolio as [|s rest IH]; intros e Hrun; simpl in Hrun; [done|].
  unfold index_position, getitem in Hrun.
  destruct (m !! s); simpl in Hrun; [|by injection Hrun].
  destruct (index_portfolio m rest) as [ps|e'] eqn:Hrest; simpl in Hrun;
    [done|]. injection Hrun as <-. by apply IH.
Qed.

(** X15: how [make_agent_config] indexes the portfolio.  With the table of
    [get_ticker_info], the loop over the portfolio runs through exactly when
    every position's symbol is a symbol of the feature specification, and
    fails with [KeyError] otherwise.  Each position then gets as
    [symbol_index] the index [symbol_info_index] has for its symbol, and as
    [pip_val] the [pip] (not the [pip_val]) of
    [trading_instruments[broker][symbol]]. *)
Theorem portfolio_indices {TC} (feature_spec : list (FeatureGroupConfig TC))
    (broker : string) (info : list SymbolSpec) (index : gmap string nat)
    (portfolio : list string) :
  get_ticker_info feature_spec broker = Ok (info, index) →
  ((∃ ps, index_portfolio (symbol_index_map info) portfolio = Ok ps)
   ↔ Forall (λ s, s ∈ feature_symbols feature_spec) portfolio)
  ∧ (∀ ps, index_portfolio (symbol_index_map info) portfolio = Ok ps →
       Forall2 (λ s p,
           pos_symbol p = s
           ∧ index !! s = Some (pos_symbol_index p)
           ∧ ∃ instruments ins,
               trading_instruments !! broker = Some instruments
               ∧ instruments !! s = Some ins
               ∧ pos_pip_val p = i_pip ins) portfolio ps)
  ∧ (∀ e, index_portfolio (symbol_index_map info) portfolio = Raise e →
          e = KeyError).
Proof.
  intros Htable. unfold get_ticker_info in Htable.
  apply ticker_info_Ok_inv in Htable as [(Hnd & Hindex & Htab) Hsym].
  simpl in *.
  pose proof (symbol_index_map_lookup info Hnd) as Hmap.
  split_and!.
  - split.
    + intros [ps Hrun%index_portfolio_Ok_inv].
      apply Forall_forall. intros s Hs.
      apply list_elem_of_lookup_1 in Hs as [n Hn].
      destruct (Forall2_lookup_l _ _ _ _ _ Hrun Hn) as (p & _ & _ & Hp).
      apply Hmap in Hp as (spec & Hspec & <- & _).
      apply Hsym, list_elem_of_fmap. exists spec. split; [done|].
      by eapply list_elem_of_lookup_2.
    + intros Hall. apply index_portfolio_Ok.
      eapply Forall_impl; [exact Hall|]. intros s Hs. simpl.
      apply Hsym, list_elem_of_fmap in Hs as (spec & -> & Hspec).
      apply list_elem_of_lookup_1 in Hspec as [i Hi].
      exists (i, pip spec). apply Hmap. by exists spec.
  - intros ps Hrun%index_portfolio_Ok_inv.
    eapply Forall2_impl; [exact Hrun|]. intros s p [Hs Hp]. simpl in *.
    apply Hmap in Hp as (spec & Hspec & Hsymbol & Hpip).
    split_and!; [done| |].
    + apply Hindex. by rewrite list_lookup_fmap, Hspec, <-Hsymbol.
    + destruct (proj1 (Forall_lookup _ _) Htab _ _ Hspec)
        as (instruments & ins & Hbroker & Hins & Heq).
      exists instruments, ins. rewrite <-Hsymbol. split_and!; [done|done|].
      rewrite Hpip, Heq. done.
  - apply index_portfolio_Raise.
Qed.

Lemma portfolio_indices_witness :
  ∃ info index ps,
    get_ticker_info (features Scenario.config) "metaquotes"
    = Ok (info, index)
    ∧ index_portfolio (symbol_index_map info) ["EURUSD"] = Ok ps.
Proof.
  destruct (get_ticker_info (features Scenario.config) "metaquotes")
    as [[info index]|e] eqn:Htable; [|vm_compute in Htable; discriminate].
  destruct (portfolio_indices (features Scenario.config) "metaquotes"
              info index ["EURUSD"] Htable) as ([_ Hrun] & _ & _).
  destruct Hrun as [ps Hps].
  { constructor; [|constructor]. apply list_elem_of_here. }
  exists info, index, ps. split; [reflexivity|exact Hps].
Defined.
